(** * jarvis_coding: destination registry, delivery streams and log cleaning

    A shallow embedding of
      - [Frontend/log_generator_ui.py]: the destination registry
        ([create_destination], [delete_destination], [list_destinations]) and
        the streaming generators of [generate_logs] and [run_scenario];
      - [event_generators/vibelog_ui.py]: [detect_log_format],
        [clean_raw_logs] and [clean_json_logs].

    Python text is modelled as a list of 8-bit characters, Python dicts as
    finite maps from field names to values, the destinations file and the
    keyring as explicit state, and generators as the list of events they
    perform when they are run to completion. *)

From Stdlib Require Import Ascii String ZArith Lia.
From stdpp Require Import gmap strings list pretty.

(** ** Text *)

Module Text.

Definition str := list ascii.

(** Literal text. *)
Definition L (s : string) : str := list_ascii_of_string s.
Arguments L s%_string : simpl never.

Definition nl : ascii := ascii_of_nat 10.

Definition dquote : ascii := ascii_of_nat 34.

Definition backslash : ascii := ascii_of_nat 92.

Definition eqc (a b : ascii) : bool := Ascii.eqb a b.

(** [s.startswith(p)] *)
Fixpoint startswith (p s : str) : bool :=
  match p, s with
  | [], _ => true
  | _ :: _, [] => false
  | a :: p', b :: s' => eqc a b && startswith p' s'
  end.

(** [s.endswith(p)] *)
Definition endswith (p s : str) : bool :=
  startswith (reverse p) (reverse s).

(** [t in s] *)
Fixpoint contains (t s : str) : bool :=
  startswith t s ||
  match s with
  | [] => false
  | _ :: s' => contains t s'
  end.

(** [s.lstrip(chars)] and [s.rstrip(chars)] for a set of characters given
    as a predicate. *)
Fixpoint lstrip (p : ascii -> bool) (s : str) : str :=
  match s with
  | [] => []
  | c :: s' => if p c then lstrip p s' else s
  end.

Fixpoint rstrip (p : ascii -> bool) (s : str) : str :=
  match s with
  | [] => []
  | c :: s' =>
      match rstrip p s' with
      | [] => if p c then [] else [c]
      | r => c :: r
      end
  end.

(** Whitespace as [str.isspace] sees it on 8-bit characters: TAB..CR,
    FS..US, space, NEL and NBSP. *)
Definition isspace (c : ascii) : bool :=
  let n := nat_of_ascii c in
  ((9 <=? n) && (n <=? 13)) || ((28 <=? n) && (n <=? 32))
  || (n =? 133) || (n =? 160).

(** [s.strip()] *)
Definition strip (s : str) : str := lstrip isspace (rstrip isspace s).

Definition is_lower (c : ascii) : bool :=
  let n := nat_of_ascii c in (97 <=? n) && (n <=? 122).

Definition is_upper (c : ascii) : bool :=
  let n := nat_of_ascii c in (65 <=? n) && (n <=? 90).

Definition is_digit (c : ascii) : bool :=
  let n := nat_of_ascii c in (48 <=? n) && (n <=? 57).

Definition upper_char (c : ascii) : ascii :=
  if is_lower c then ascii_of_nat (nat_of_ascii c - 32) else c.

Definition lower_char (c : ascii) : ascii :=
  if is_upper c then ascii_of_nat (nat_of_ascii c + 32) else c.

(** [s.upper()], on the letters a..z. *)
Definition upper (s : str) : str := map upper_char s.

(** [s.split(sep)] for a one-character separator: never empty, one more
    field than there are separators. *)
Fixpoint split_on (sep : ascii) (s : str) : list str :=
  match s with
  | [] => [[]]
  | c :: s' =>
      if eqc c sep then [] :: split_on sep s'
      else match split_on sep s' with
           | [] => [[c]]
           | w :: ws => (c :: w) :: ws
           end
  end.

(** [sep.join(parts)] *)
Fixpoint join (sep : str) (parts : list str) : str :=
  match parts with
  | [] => []
  | [p] => p
  | p :: ps => p ++ sep ++ join sep ps
  end.

(** [s.split()]: the maximal runs of non-whitespace characters. *)
Fixpoint words_go (cur : str) (s : str) : list str :=
  match s with
  | [] => match cur with [] => [] | _ => [reverse cur] end
  | c :: s' =>
      if isspace c
      then match cur with
           | [] => words_go [] s'
           | _ => reverse cur :: words_go [] s'
           end
      else words_go (c :: cur) s'
  end.

Definition words (s : str) : list str := words_go [] s.

(** [s.replace(old, new)]: every non-overlapping occurrence of [old], found
    from the left, becomes [new]. With an empty [old], [new] is inserted
    before every character and at the end. [fuel] bounds the scan; the
    length of [s] is always enough. *)
Fixpoint replace_go (fuel : nat) (old new s : str) : str :=
  match fuel with
  | O => s
  | S fuel' =>
      match s with
      | [] => []
      | c :: s' =>
          if startswith old s
          then new ++ replace_go fuel' old new (drop (length old) s)
          else c :: replace_go fuel' old new s'
      end
  end.

Definition replace (old new s : str) : str :=
  match old with
  | [] => new ++ concat (map (fun c => c :: new) s)
  | _ => replace_go (length s) old new s
  end.

(** Substring relation: [t] occurs in [s]. *)
Definition occurs (t s : str) : Prop := exists p q, s = p ++ t ++ q.

(** Decimal rendering of a natural number, as [str(n)]. *)
Definition decimal (n : nat) : str := L (pretty n).

End Text.

Import Text.

(** ** Python values and dicts *)

Module Py.

(** The JSON scalars a request body or the destinations file can hold. *)
Inductive value :=
| VNone
| VBool (b : bool)
| VInt (z : Z)
| VStr (s : str).

Abbreviation dict := (gmap string value).

(** [d.get(k)] *)
Definition get (d : dict) (k : string) : value := default VNone (d !! k).
Arguments get d k%_string.

(** Truth value, as [if v:] and [not v] see it. *)
Definition truthy (v : value) : bool :=
  match v with
  | VNone => false
  | VBool b => b
  | VInt z => negb (z =? 0)%Z
  | VStr s => match s with [] => false | _ => true end
  end.

Definition Z_of_bool (b : bool) : Z := if b then 1%Z else 0%Z.

(** [a == b]; [bool] is a subclass of [int]. *)
Definition py_eq (a b : value) : bool :=
  match a, b with
  | VNone, VNone => true
  | VBool x, VBool y => Bool.eqb x y
  | VBool x, VInt y => (Z_of_bool x =? y)%Z
  | VInt x, VBool y => (x =? Z_of_bool y)%Z
  | VInt x, VInt y => (x =? y)%Z
  | VStr x, VStr y => bool_decide (x = y)
  | _, _ => false
  end.

(** Digits of an [int] literal: single underscores may separate digits. *)
Fixpoint digits_go (acc : Z) (after_digit : bool) (s : str) : option Z :=
  match s with
  | [] => if after_digit then Some acc else None
  | c :: s' =>
      if is_digit c
      then digits_go (acc * 10 + (Z.of_nat (nat_of_ascii c) - 48))%Z true s'
      else if eqc c "_"%char && after_digit
           then match s' with
                | d :: _ => if is_digit d then digits_go acc false s' else None
                | [] => None
                end
           else None
  end.

(** [int(s)] for text: surrounding whitespace, an optional sign, digits. *)
Definition int_of_str (s : str) : option Z :=
  match strip s with
  | [] => None
  | c :: r =>
      if eqc c "-"%char then Z.opp <$> digits_go 0 false r
      else if eqc c "+"%char then digits_go 0 false r
      else digits_go 0 false (c :: r)
  end.

(** [int(v)]; [None] stands for the [TypeError] or [ValueError] raised. *)
Definition py_int (v : value) : option Z :=
  match v with
  | VNone => None
  | VBool b => Some (Z_of_bool b)
  | VInt z => Some z
  | VStr s => int_of_str s
  end.

End Py.

Import Py.

(** ** The destination registry ([Frontend/log_generator_ui.py]) *)

Module Registry.

(** What the surroundings decide: whether [import keyring] succeeded, and
    whether a given keyring call or file write goes through. *)
Record env := {
  HAS_KEYRING : bool;
  set_password_ok : str -> str -> bool;
  delete_password_ok : str -> bool;
  save_ok : list dict -> bool
}.

(** The destinations file, as [_load_destinations] reads it (a missing or
    unreadable file reads as the empty list), and the secrets stored in
    the keyring under [KEYRING_SERVICE], by destination id. *)
Record state := {
  destinations_file : list dict;
  keyring : gmap str str
}.

(** What a route hands back: [jsonify(body), status], an empty body with a
    status, or an exception that escapes the view function. *)
Inductive response :=
| Json (status : nat) (body : dict)
| Empty (status : nat)
| Unhandled (exn : string).

Definition error (status : nat) (msg : string) : response :=
  Json status {["error" := VStr (L msg)]}.
Arguments error status msg%_string.

Definition _load_destinations (st : state) : list dict := destinations_file st.

(** [_save_destinations(items)]: [None] when the write fails. *)
Definition _save_destinations (e : env) (st : state) (items : list dict)
  : option state :=
  if save_ok e items
  then Some {| destinations_file := items; keyring := keyring st |}
  else None.

(** [keyring.set_password(KEYRING_SERVICE, id, token)]; [None] when it
    raises. The keyring stores text under text. *)
Definition set_password (e : env) (st : state) (id token : value)
  : option state :=
  match id, token with
  | VStr i, VStr t =>
      if set_password_ok e i t
      then Some {| destinations_file := destinations_file st;
                   keyring := <[i := t]> (keyring st) |}
      else None
  | _, _ => None
  end.

(** [keyring.get_password(KEYRING_SERVICE, id)] *)
Definition get_password (st : state) (id : value) : option str :=
  match id with
  | VStr i => keyring st !! i
  | _ => None
  end.

(** The HEC url as [create_destination] stores it (lines 146-148). *)
Definition normalize_url (url : str) : str :=
  let base := rstrip (eqc "/") url in
  if negb (endswith (L "/event") base || endswith (L "/raw") base
           || contains (L "/services/collector") base)
  then base ++ L "/services/collector"
  else base.

(** A payload that passed validation. *)
Inductive validated :=
| Hec (base : str) (token : value)
| Syslog (ip port : value) (protocol : str).

Definition type_of (v : validated) : str :=
  match v with
  | Hec _ _ => L "hec"
  | Syslog _ _ _ => L "syslog"
  end.

(** Lines 136-156: [inl] is the response of a rejected payload. *)
Definition validate (payload : dict) : response + validated :=
  let dest_type := get payload "type" in
  let name := get payload "name" in
  if py_eq dest_type (VStr (L "hec")) then
    let url := get payload "url" in
    let token := get payload "token" in
    if negb (truthy name) || negb (truthy url) || negb (truthy token)
    then inl (error 400 "name, url and token are required")
    else match url with
         | VStr u => inr (Hec (normalize_url u) token)
         | _ => inl (Unhandled "AttributeError")
         end
  else if py_eq dest_type (VStr (L "syslog")) then
    let ip := get payload "ip" in
    let port := get payload "port" in
    let p := get payload "protocol" in
    match (if truthy p then p else VStr []) with
    | VStr s =>
        let protocol := upper s in
        if negb (truthy name) || negb (truthy ip) || negb (truthy port)
           || negb (bool_decide (protocol = L "UDP")
                    || bool_decide (protocol = L "TCP"))
        then inl (error 400 "name, ip, port, protocol (UDP/TCP) are required")
        else inr (Syslog ip port protocol)
    | _ => inl (Unhandled "AttributeError")
    end
  else inl (error 400 "Unsupported destination type").

(** [next((d for d in items if d.get('name') == name and
    d.get('type') == dest_type), None)], with the position of the match. *)
Definition matches (name : value) (dest_type : str) (d : dict) : bool :=
  py_eq (get d "name") name && py_eq (get d "type") (VStr dest_type).

Fixpoint find_existing (name : value) (dest_type : str) (items : list dict)
  : option (nat * dict) :=
  match items with
  | [] => None
  | d :: rest =>
      if matches name dest_type d then Some (0, d)
      else prod_map S id <$> find_existing name dest_type rest
  end.

(** [existing = next(...)] followed by [if existing:]: an empty dict is as
    good as no match. *)
Definition existing_entry (name : value) (dest_type : str)
    (items : list dict) : option (nat * dict) :=
  match find_existing name dest_type items with
  | Some (i, d) => if bool_decide (d = ∅) then None else Some (i, d)
  | None => None
  end.

(** Lines 193-196. The response names [base], which only the HEC branch
    binds: [None] here is the syslog branch, where evaluating the
    response raises. *)
Definition save_and_respond (e : env) (st : state) (items : list dict)
    (dest_id name : value) (dest_type : str) (base : option str)
  : response * state :=
  match _save_destinations e st items with
  | None => (error 500 "Failed to save destination", st)
  | Some st' =>
      match base with
      | Some b =>
          (Json 201 (<["id" := dest_id]> (<["name" := name]>
                    (<["type" := VStr dest_type]> {["url" := VStr b]}))), st')
      | None => (Unhandled "UnboundLocalError", st')
      end
  end.

Definition secure_storage_unavailable : string :=
  "Secure storage unavailable. Unable to save token. Please contact support.".

Definition failed_to_save_token : string :=
  "Failed to save token securely. Please contact support.".

Definition new_id (dest_type : str) (items : list dict) : value :=
  VStr (dest_type ++ L ":" ++ decimal (length items + 1)).

(** Lines 158-196. An early [return] leaves the file as it was: the
    changes made to [existing] so far live in memory only. *)
Definition upsert (e : env) (st : state) (name : value) (v : validated)
  : response * state :=
  let items := _load_destinations st in
  let dest_type := type_of v in
  match existing_entry name dest_type items with
  | Some (i, existing) =>
      match v with
      | Hec base token =>
          let existing := <["url" := VStr base]> existing in
          if negb (HAS_KEYRING e) || negb (truthy (get existing "id"))
          then (error 500 secure_storage_unavailable, st)
          else match set_password e st (get existing "id") token with
               | None => (error 500 failed_to_save_token, st)
               | Some st1 =>
                   let existing := delete "token" existing in
                   save_and_respond e st1 (<[i := existing]> items)
                     (get existing "id") name dest_type (Some base)
               end
      | Syslog ip port protocol =>
          match py_int port with
          | None => (Unhandled "ValueError", st)
          | Some p =>
              let existing :=
                <["protocol" := VStr protocol]>
                  (<["port" := VInt p]> (<["ip" := ip]> existing)) in
              save_and_respond e st (<[i := existing]> items)
                (get existing "id") name dest_type None
          end
      end
  | None =>
      let dest_id := new_id dest_type items in
      match v with
      | Hec base token =>
          let entry : dict :=
            <["id" := dest_id]> (<["type" := VStr dest_type]>
              (<["name" := name]> {["url" := VStr base]})) in
          if negb (HAS_KEYRING e)
          then (error 500 secure_storage_unavailable, st)
          else match set_password e st dest_id token with
               | None => (error 500 failed_to_save_token, st)
               | Some st1 =>
                   save_and_respond e st1 (items ++ [entry])
                     dest_id name dest_type (Some base)
               end
      | Syslog ip port protocol =>
          match py_int port with
          | None => (Unhandled "ValueError", st)
          | Some p =>
              let entry : dict :=
                <["id" := dest_id]> (<["type" := VStr dest_type]>
                  (<["name" := name]> (<["ip" := ip]>
                    (<["port" := VInt p]> {["protocol" := VStr protocol]})))) in
              save_and_respond e st (items ++ [entry])
                dest_id name dest_type None
          end
      end
  end.

(** [POST /destinations] *)
Definition create_destination (e : env) (st : state) (payload : dict)
  : response * state :=
  match validate payload with
  | inl r => (r, st)
  | inr v => upsert e st (get payload "name") v
  end.

(** [keyring.delete_password], best effort: a failure is swallowed. *)
Definition delete_password (e : env) (st : state) (id : str) : state :=
  if HAS_KEYRING e && delete_password_ok e id
  then {| destinations_file := destinations_file st;
          keyring := delete id (keyring st) |}
  else st.

(** [DELETE /destinations/<dest_id>] *)
Definition delete_destination (e : env) (st : state) (dest_id : str)
  : response * state :=
  let items := _load_destinations st in
  let st1 := delete_password e st dest_id in
  let new_items :=
    filter (fun d => negb (py_eq (get d "id") (VStr dest_id)) = true) items in
  match _save_destinations e st1 new_items with
  | None => (error 500 "Failed to delete destination", st1)
  | Some st2 => (Empty 204, st2)
  end.

(** [GET /destinations]: the descriptors without the token. *)
Definition redact (d : dict) : dict :=
  let base : dict :=
    <["id" := get d "id"]> (<["name" := get d "name"]>
      {["type" := get d "type"]}) in
  if py_eq (get d "type") (VStr (L "hec"))
  then <["url" := get d "url"]> base
  else if py_eq (get d "type") (VStr (L "syslog"))
  then <["ip" := get d "ip"]> (<["port" := get d "port"]>
         (<["protocol" := get d "protocol"]> base))
  else base.

Definition list_destinations (st : state) : list dict :=
  map redact (_load_destinations st).

End Registry.

Import Registry.

(** ** Streaming delivery ([generate_logs] and [run_scenario]) *)

Module Delivery.

Inductive sock_kind := SOCK_DGRAM | SOCK_STREAM.

(** What a generator does when its consumer reads it to the end, in
    order: the lines it yields and its calls on sockets and processes. *)
Inductive event :=
| Yield (line : str)
| SocketOpen (kind : sock_kind)
| SocketSend (data : str)
| SocketClose
| Popen (command : list str) (extra_env : list (string * str))
| Terminate
| Wait.

(** An exception raised inside a [try] block. *)
Inductive failure :=
| FileNotFoundError
| AttributeError
| ValueError
| TypeError
| OSError.

(** The fields [generate_logs] reads from the request body. [delay] is the
    text of the float computed from [eps] at line 558 and
    [full_script_path] the generator path joined at line 424. *)
Record request := {
  destination : str;
  full_script_path : str;
  log_count : Z;
  delay : str;
  syslog_ip : value;
  syslog_port : option Z;
  syslog_protocol : value;
  product_id : value;
  unified_dest_id : value;
  hec_dest_id : value;
  syslog_dest_id : value
}.

(** What the network, the file system and the child process do. *)
Record world := {
  script_exists : bool;
  sender_exists : bool;
  hec_sender_path : str;
  scenarios_dir : str;
  exception_text : failure -> str;
  connect_error : option str;
  popen_error : option failure;
  send_error : nat -> option str;
  child_stdout : list str;
  child_stderr : str;
  returncode : Z
}.

(** [str(v)], as an f-string renders it. *)
Definition py_str (v : value) : str :=
  match v with
  | VNone => L "None"
  | VBool true => L "True"
  | VBool false => L "False"
  | VInt z => L (pretty z)
  | VStr s => s
  end.

(** [a if a else b] on ids. *)
Definition prefer (a b : value) : value := if truthy a then a else b.

(** [next((d for d in items if d.get('id') == id and d.get('type') == t),
    None)] *)
Definition find_by_id (id : value) (t : str) (items : list dict)
  : option dict :=
  head (filter (fun d => (py_eq (get d "id") id
                          && py_eq (get d "type") (VStr t)) = true) items).

Definition find_by_type (t : str) (items : list dict) : option dict :=
  head (filter (fun d => py_eq (get d "type") (VStr t) = true) items).

(** [(v or '').upper()]; [None] is the [AttributeError] of a value without
    [upper]. *)
Definition upper_or_empty (v : value) : option str :=
  match (if truthy v then v else VStr []) with
  | VStr s => Some (upper s)
  | _ => None
  end.

(** The result of running a [try] body: its events, how it ended, and
    whether [sock] was bound to a socket by then. *)
Inductive ending := Returned | Raised (f : failure).

Definition body := (list event * ending * bool)%type.

Definition ret (evs : list event) (sock : bool) : body := (evs, Returned, sock).

(** Lines 475-488: one send and one [LOG] line per line read, until the
    child closes its output or a send fails. [readline] returns the empty
    text at the end of the output. *)
Fixpoint send_lines (w : world) (n : nat) (lines : list str) : list event :=
  match lines with
  | [] => []
  | [] :: _ => []
  | line :: rest =>
      let log_line := strip line in
      match send_error w n with
      | Some e =>
          [Yield (L "ERROR: Failed to send log to syslog server. Details: "
                  ++ e ++ [nl]);
           Terminate]
      | None =>
          SocketSend (log_line ++ [nl])
          :: Yield (L "LOG: " ++ log_line ++ [nl])
          :: send_lines w (S n) rest
      end
  end.

(** Lines 490-494. *)
Definition script_errors (w : world) : list event :=
  match child_stderr w with
  | [] => []
  | errors =>
      [Yield (L "ERROR: Script execution produced errors:" ++ [nl]
              ++ errors ++ [nl])]
  end.

(** Lines 452-494, once ip, port and protocol are known. *)
Definition syslog_send (r : request) (w : world) (ip : value) (port : Z)
    (protocol : str) : body :=
  let stream (open : list event) : body :=
    let start := open ++ [Yield (L "INFO: Starting log generation..." ++ [nl])] in
    match popen_error w with
    | Some f => (start, Raised f, true)
    | None =>
        ret (start
             ++ [Popen [L "python"; full_script_path r;
                        L (pretty (log_count r))] []]
             ++ send_lines w 0 (child_stdout w)
             ++ script_errors w ++ [Wait]) true
    end in
  if bool_decide (protocol = L "UDP") then stream [SocketOpen SOCK_DGRAM]
  else if bool_decide (protocol = L "TCP") then
    match connect_error w with
    | Some e =>
        ret [SocketOpen SOCK_STREAM;
             Yield (L "ERROR: Could not connect to TCP syslog server at "
                    ++ py_str ip ++ L ":" ++ L (pretty port)
                    ++ L ". Details: " ++ e ++ [nl])] true
    | None => stream [SocketOpen SOCK_STREAM]
    end
  else ret [Yield (L "ERROR: Invalid syslog protocol. Please select TCP or UDP."
                   ++ [nl])] false.

(** Lines 448-450, then the send. *)
Definition syslog_checked (r : request) (w : world) (ip : value)
    (port : option Z) (protocol : str) : body :=
  match port with
  | Some p =>
      if negb (truthy ip) || (p =? 0)%Z
         || negb (bool_decide (protocol = L "UDP")
                  || bool_decide (protocol = L "TCP"))
      then ret [Yield (L "ERROR: Missing or invalid syslog destination details."
                       ++ [nl])] false
      else syslog_send r w ip p protocol
  | None =>
      ret [Yield (L "ERROR: Missing or invalid syslog destination details."
                  ++ [nl])] false
  end.

(** Lines 431-494. *)
Definition syslog_body (st : state) (r : request) (w : world) : body :=
  let resolved := prefer (unified_dest_id r) (syslog_dest_id r) in
  if truthy resolved then
    match find_by_id resolved (L "syslog") (_load_destinations st) with
    | None =>
        ret [Yield (L "ERROR: Selected syslog destination not found." ++ [nl])]
            false
    | Some chosen =>
        let port := get chosen "port" in
        match py_int (if truthy port then port else VInt 0) with
        | None => ([], Raised ValueError, false)
        | Some p =>
            match upper_or_empty (get chosen "protocol") with
            | None => ([], Raised AttributeError, false)
            | Some protocol =>
                syslog_checked r w (get chosen "ip") (Some p) protocol
            end
        end
    end
  else
    match upper_or_empty (syslog_protocol r) with
    | None => ([], Raised AttributeError, false)
    | Some protocol =>
        syslog_checked r w (syslog_ip r) (syslog_port r) protocol
    end.

(** [_normalize_hec_url] (lines 538-547). *)
Definition _normalize_hec_url (u : str) : str :=
  match u with
  | [] => u
  | _ =>
      let base := rstrip (eqc "/") u in
      if endswith (L "/event") base || endswith (L "/raw") base then base
      else if contains (L "/services/collector") base then base
      else base ++ L "/services/collector"
  end.

(** Lines 573-576 and 581-584. *)
Definition sanitize (hec_token hec_url normalized_hec_url : str) (line : str)
  : str :=
  replace normalized_hec_url (L "<hec_url>")
    (replace hec_url (L "<hec_url>")
       (replace hec_token (L "***") line)).

(** Lines 569-577: every line read is yielded sanitized. *)
Fixpoint forward_sanitized (tok url nurl : str) (lines : list str)
  : list event :=
  match lines with
  | [] => []
  | [] :: _ => []
  | line :: rest =>
      Yield (sanitize tok url nurl line) :: forward_sanitized tok url nurl rest
  end.

(** Lines 579-585. *)
Definition sender_errors (tok url nurl : str) (w : world) : list event :=
  match child_stderr w with
  | [] => []
  | errors =>
      [Yield (L "ERROR: HEC sender errors:" ++ [nl]
              ++ sanitize tok url nurl errors ++ [nl])]
  end.

(** Lines 503-512: the destination of a HEC run. *)
Definition choose_hec (st : state) (r : request) : option dict :=
  let dest_items := _load_destinations st in
  let resolved := prefer (unified_dest_id r) (hec_dest_id r) in
  let chosen :=
    if truthy resolved then find_by_id resolved (L "hec") dest_items
    else None in
  match chosen with
  | Some d => Some d
  | None => find_by_type (L "hec") dest_items
  end.

(** Lines 513-525: the url and the token of the chosen destination, when
    both are there; [inl] is the error line yielded otherwise. *)
Definition hec_credentials (e : env) (st : state) (chosen : dict)
  : str + (value * str) :=
  let hec_url := get chosen "url" in
  if negb (HAS_KEYRING e) || negb (truthy (get chosen "id"))
  then inl (L "ERROR: Secure token storage unavailable. Cannot access HEC token. Please contact support.")
  else
    match get_password st (get chosen "id") with
    | Some (c :: t) =>
        if truthy hec_url then inr (hec_url, c :: t)
        else inl (L "ERROR: Selected HEC destination is incomplete or token missing from secure storage. Please contact support.")
    | _ => inl (L "ERROR: Selected HEC destination is incomplete or token missing from secure storage. Please contact support.")
    end.

(** Lines 551-586, once the url and the token are known. [Popen] wants
    text for every argument of the command. *)
Definition hec_send (r : request) (w : world) (tok url nurl : str) : body :=
  let start := [Yield (L "INFO: Starting HEC send..." ++ [nl])] in
  match product_id r with
  | VStr product =>
      match popen_error w with
      | Some f => (start, Raised f, false)
      | None =>
          ret (start
               ++ [Popen [L "python3"; hec_sender_path w; L "--product";
                          product; L "-n"; L (pretty (log_count r));
                          L "--min-delay"; delay r; L "--max-delay"; delay r;
                          L "--print-responses"]
                     [("S1_HEC_TOKEN"%string, tok); ("S1_HEC_URL"%string, nurl);
                      ("S1_HEC_DEBUG"%string, L "1")]]
               ++ forward_sanitized tok url nurl (child_stdout w)
               ++ sender_errors tok url nurl w ++ [Wait]) false
      end
  | _ => (start, Raised TypeError, false)
  end.

(** Lines 496-586. *)
Definition hec_body (e : env) (st : state) (r : request) (w : world) : body :=
  if negb (truthy (product_id r))
  then ret [Yield (L "ERROR: Missing product id for HEC." ++ [nl])] false
  else
    match choose_hec st r with
    | None =>
        ret [Yield (L "ERROR: No HEC destination configured. Add one in Settings > Destinations." ++ [nl])] false
    | Some chosen =>
        match hec_credentials e st chosen with
        | inl msg => ret [Yield (msg ++ [nl])] false
        | inr (hec_url, tok) =>
            let start := [Yield (L "INFO: Starting HEC send..." ++ [nl])] in
            if negb (sender_exists w)
            then ret (start ++ [Yield (L "ERROR: HEC sender not found." ++ [nl])])
                     false
            else
              match hec_url with
              | VStr url => hec_send r w tok url (_normalize_hec_url url)
              | _ => (start, Raised AttributeError, false)
              end
        end
    end.

(** Lines 588-596: the handlers and the [finally] block around a body. *)
Definition finish (w : world) (b : body) : list event :=
  let '(evs, how, sock) := b in
  evs
  ++ match how with
     | Returned => []
     | Raised FileNotFoundError =>
         [Yield (L "ERROR: Python executable not found. Please ensure Python is in your system's PATH." ++ [nl])]
     | Raised f =>
         [Yield (L "ERROR: An unexpected error occurred: "
                 ++ exception_text w f ++ [nl])]
     end
  ++ [Yield (L "INFO: Log generation complete." ++ [nl])]
  ++ (if sock then [SocketClose] else []).

(** [generate_and_stream] of [generate_logs] (lines 428-596). *)
Definition generate_and_stream (e : env) (st : state) (r : request)
    (w : world) : list event :=
  if bool_decide (destination r = L "syslog")
  then finish w (syslog_body st r w)
  else if bool_decide (destination r = L "hec")
  then finish w (hec_body e st r w)
  else finish w (ret [] false).

(** [POST /generate-logs]: the streamed response, or the rejection of a
    syslog request whose script does not exist. *)
Definition generate_logs (e : env) (st : state) (r : request) (w : world)
  : response + list event :=
  if bool_decide (destination r = L "syslog") && negb (script_exists w)
  then inl (error 400 "Invalid script name or path")
  else inr (generate_and_stream e st r w).

(** [generate_and_stream] of [run_scenario] (lines 341-395). The child's
    standard error is merged into its standard output. *)
Fixpoint forward (lines : list str) : list event :=
  match lines with
  | [] => []
  | [] :: _ => []
  | line :: rest => Yield line :: forward rest
  end.

Definition scenario_stream (w : world) (scenario_id : value)
    (hec_token : str) (hec_url : value) : list event :=
  let filename := py_str scenario_id ++ L ".py" in
  let start := [Yield (L "INFO: Starting scenario execution..." ++ [nl])] in
  let failed (f : failure) :=
    [Yield (L "ERROR: Scenario execution failed: " ++ exception_text w f
            ++ [nl])] in
  if negb (script_exists w)
  then start ++ [Yield (L "ERROR: Scenario script not found: " ++ filename
                        ++ [nl])]
  else
    match hec_url with
    | VStr url =>
        let exec := [Yield (L "INFO: Executing " ++ filename ++ L "..." ++ [nl])] in
        match popen_error w with
        | Some f => start ++ exec ++ failed f
        | None =>
            start ++ exec
            ++ [Popen [L "python"; scenarios_dir w ++ L "/" ++ filename]
                  [("S1_HEC_TOKEN"%string, hec_token);
                   ("S1_HEC_URL"%string, rstrip (eqc "/") url)]]
            ++ forward (child_stdout w) ++ [Wait]
            ++ [Yield (if (returncode w =? 0)%Z
                       then L "INFO: Scenario execution complete" ++ [nl]
                       else L "ERROR: Scenario exited with code "
                            ++ L (pretty (returncode w)) ++ [nl])]
        end
    | _ => start ++ failed AttributeError
    end.

(** [POST /scenarios/run] (lines 310-397). *)
Definition run_scenario (e : env) (st : state) (data : dict) (w : world)
  : response + list event :=
  let scenario_id := get data "scenario_id" in
  let destination_id := get data "destination_id" in
  if negb (truthy scenario_id) then inl (error 400 "scenario_id is required")
  else if negb (truthy destination_id)
  then inl (error 400 "destination_id is required")
  else
    match head (filter (fun d => py_eq (get d "id") destination_id = true)
                  (_load_destinations st)) with
    | None => inl (error 404 "Destination not found")
    | Some chosen =>
        if negb (py_eq (get chosen "type") (VStr (L "hec")))
        then inl (error 400 "Scenarios currently only support HEC destinations")
        else
          let hec_url := get chosen "url" in
          let hec_token :=
            if HAS_KEYRING e && truthy (get chosen "id")
            then get_password st (get chosen "id") else None in
          match hec_token with
          | Some (c :: t) =>
              if truthy hec_url
              then inr (scenario_stream w scenario_id (c :: t) hec_url)
              else inl (error 400 "HEC destination incomplete or token missing")
          | _ => inl (error 400 "HEC destination incomplete or token missing")
          end
    end.

(** The events of a [try] body. *)
Definition events_of (b : body) : list event := b.1.1.

End Delivery.

(** ** Regular expressions, as [re] runs them *)

Module Regex.

(** The pattern constructs the two modules use. [Chr p] is one character
    of a set; [Eos] is [$]: the end of the text, or just before a newline
    that ends it. *)
Inductive re :=
| Eps
| Chr (p : ascii -> bool)
| Cat (r1 r2 : re)
| Opt (r : re)
| Star (r : re)
| Eos.

Section Exec.
Context {R : Type}.

(** [r*], greedy: as many rounds of [body] as possible, giving one back
    at a time when what follows fails. A round that consumes nothing
    ends the repetition. *)
Fixpoint star_loop (body : str -> (str -> option R) -> option R)
    (k : str -> option R) (n : nat) (s : str) : option R :=
  match n with
  | O => k s
  | S n' =>
      match body s (fun s1 => if (length s1 <? length s)%nat
                              then star_loop body k n' s1 else None) with
      | Some x => Some x
      | None => k s
      end
  end.

(** Backtracking search: [exec r s k] matches [r] at the head of [s] and
    hands the rest to [k]; the first success in [re]'s order of
    preference is the result. *)
Fixpoint exec (r : re) (s : str) (k : str -> option R) {struct r}
  : option R :=
  match r with
  | Eps => k s
  | Chr p =>
      match s with
      | c :: s' => if p c then k s' else None
      | [] => None
      end
  | Cat r1 r2 => exec r1 s (fun s1 => exec r2 s1 k)
  | Opt r1 =>
      match exec r1 s k with
      | Some x => Some x
      | None => k s
      end
  | Star r1 => star_loop (exec r1) k (length s) s
  | Eos =>
      match s with
      | [] => k s
      | [c] => if eqc c nl then k s else None
      | _ => None
      end
  end.
End Exec.

(** [re.match(r, s)] is not [None]. *)
Definition re_match (r : re) (s : str) : bool :=
  match exec r s (fun _ => Some tt) with
  | Some _ => true
  | None => false
  end.

(** [re.findall(r, s)] for a pattern without groups: the matches found
    from the left, each search resuming where the last match ended (one
    character further after an empty match). *)
Fixpoint findall_go (fuel : nat) (r : re) (s : str) : list str :=
  match fuel with
  | O => []
  | S fuel' =>
      match exec r s Some with
      | Some rest =>
          let m := take (length s - length rest) s in
          match m, s with
          | [], [] => [[]]
          | [], _ :: s' => [] :: findall_go fuel' r s'
          | _, _ => m :: findall_go fuel' r rest
          end
      | None =>
          match s with
          | [] => []
          | _ :: s' => findall_go fuel' r s'
          end
      end
  end.

Definition findall (r : re) (s : str) : list str :=
  findall_go (S (length s)) r s.

(** Pattern syntax. *)
Definition chr (c : ascii) : re := Chr (eqc c).

(** A letter under [re.IGNORECASE]. *)
Definition chr_i (c : ascii) : re :=
  Chr (fun x => eqc (lower_char x) (lower_char c)).

Fixpoint seq (rs : list re) : re :=
  match rs with
  | [] => Eps
  | [r] => r
  | r :: rs' => Cat r (seq rs')
  end.

Definition lit_i (s : string) : re := seq (map chr_i (L s)).
Arguments lit_i s%_string.

Definition plus (r : re) : re := Cat r (Star r).

(** [.] without [re.DOTALL], [\d], [\s] and [[^{}]]. *)
Definition dot : re := Chr (fun c => negb (eqc c nl)).
Definition digit : re := Chr is_digit.
Definition space : re := Chr isspace.
Definition is_brace (c : ascii) : bool := eqc c "{" || eqc c "}".
Definition nb (c : ascii) : bool := negb (is_brace c).
Definition not_brace : re := Chr nb.

End Regex.

Import Regex.

(** ** JSON, as [json.loads] and [json.dumps] treat it *)

Module Json.

#[warnings="-register-all"]
Inductive json :=
| JNull
| JBool (b : bool)
| JInt (z : Z)
| JString (s : str)
| JArray (items : list json)
| JObject (members : list (str * json)).

(** The outcome of decoding: a value, a [JSONDecodeError], or a text this
    model does not cover (floats, [NaN] and [Infinity], escapes of
    characters beyond 8 bits, integers beyond the digit limit). *)
Inductive result (A : Type) :=
| Parsed (a : A)
| DecodeError
| Unmodelled.
Arguments Parsed {A} a.
Arguments DecodeError {A}.
Arguments Unmodelled {A}.

Definition bind {A B} (f : A -> result B) (x : result A) : result B :=
  match x with
  | Parsed a => f a
  | DecodeError => DecodeError
  | Unmodelled => Unmodelled
  end.

#[export] Instance result_bind : MBind result := @bind.

(** JSON whitespace: space, TAB, LF, CR. *)
Definition is_ws (c : ascii) : bool :=
  let n := nat_of_ascii c in
  (n =? 32)%nat || (n =? 9)%nat || (n =? 10)%nat || (n =? 13)%nat.

Definition skip_ws (s : str) : str := lstrip is_ws s.

Definition hex_digit (c : ascii) : option nat :=
  let n := nat_of_ascii c in
  if is_digit c then Some (n - 48)
  else if ((97 <=? n) && (n <=? 102))%nat then Some (n - 87)
  else if ((65 <=? n) && (n <=? 70))%nat then Some (n - 55)
  else None.

Definition hex4 (a b c d : ascii) : option nat :=
  match hex_digit a, hex_digit b, hex_digit c, hex_digit d with
  | Some x, Some y, Some z, Some w => Some (((x * 16 + y) * 16 + z) * 16 + w)
  | _, _, _, _ => None
  end.

(** The character a one-letter escape stands for. *)
Definition unescape (c : ascii) : option ascii :=
  if eqc c dquote then Some dquote
  else if eqc c "\" then Some "\"%char
  else if eqc c "/" then Some "/"%char
  else if eqc c "b" then Some (ascii_of_nat 8)
  else if eqc c "f" then Some (ascii_of_nat 12)
  else if eqc c "n" then Some (ascii_of_nat 10)
  else if eqc c "r" then Some (ascii_of_nat 13)
  else if eqc c "t" then Some (ascii_of_nat 9)
  else None.

(** [scanstring], strict, from just after the opening quote: the decoded
    text and what follows the closing quote. *)
Fixpoint scanstring (s : str) : result (str * str) :=
  match s with
  | [] => DecodeError
  | c :: r =>
      if eqc c dquote then Parsed ([], r)
      else if eqc c "\" then
        match r with
        | [] => DecodeError
        | e :: r1 =>
            if eqc e "u" then
              match r1 with
              | h1 :: h2 :: h3 :: h4 :: r2 =>
                  match hex4 h1 h2 h3 h4 with
                  | Some n =>
                      if (n <? 256)%nat
                      then '(t, rest) ← scanstring r2;
                           Parsed (ascii_of_nat n :: t, rest)
                      else Unmodelled
                  | None => DecodeError
                  end
              | _ => DecodeError
              end
            else
              match unescape e with
              | Some x => '(t, rest) ← scanstring r1; Parsed (x :: t, rest)
              | None => DecodeError
              end
        end
      else if (nat_of_ascii c <? 32)%nat then DecodeError
      else '(t, rest) ← scanstring r; Parsed (c :: t, rest)
  end.

Definition digits_value (ds : str) : Z :=
  fold_left (fun acc c => (acc * 10 + (Z.of_nat (nat_of_ascii c) - 48))%Z) ds 0%Z.

Fixpoint span_digits (s : str) : str * str :=
  match s with
  | c :: s' =>
      if is_digit c then let '(ds, rest) := span_digits s' in (c :: ds, rest)
      else ([], s)
  | [] => ([], [])
  end.

(** What follows the integer part makes the number a float. *)
Definition float_tail (s : str) : bool :=
  match s with
  | c :: d :: r =>
      (eqc c "." && is_digit d)
      || ((eqc c "e" || eqc c "E")
          && (is_digit d
              || ((eqc d "+" || eqc d "-")
                  && match r with x :: _ => is_digit x | [] => false end)))
  | _ => false
  end.

(** [NUMBER_RE] at the head of [s]; [None] when it does not match. An
    integer of more than 4300 digits makes [int] raise an error that is
    not a [JSONDecodeError]. *)
Definition scan_number (s : str) : option (result (json * str)) :=
  let '(neg, r) :=
    match s with
    | c :: r' => if eqc c "-" then (true, r') else (false, s)
    | [] => (false, s)
    end in
  let finish (n : Z) (rest : str) :=
    if float_tail rest then Unmodelled
    else Parsed (JInt (if neg then - n else n)%Z, rest) in
  match r with
  | c :: r' =>
      if eqc c "0" then Some (finish 0%Z r')
      else if is_digit c
      then let '(ds, rest) := span_digits r in
           if (4300 <? length ds)%nat then Some Unmodelled
           else Some (finish (digits_value ds) rest)
      else None
  | [] => None
  end.

(** [dict(pairs)]: a repeated key keeps its place and takes the last
    value. *)
Fixpoint dict_set (m : list (str * json)) (k : str) (v : json)
  : list (str * json) :=
  match m with
  | [] => [(k, v)]
  | (k', v') :: m' =>
      if bool_decide (k' = k) then (k, v) :: m' else (k', v') :: dict_set m' k v
  end.

(** [scan_once]. [fuel] bounds the depth of the descent and the number of
    members read. *)
Fixpoint scan_value (fuel : nat) (s : str) : result (json * str) :=
  match fuel with
  | O => Unmodelled
  | S fuel' =>
      let members :=
        fix members (n : nat) (acc : list (str * json)) (s : str)
          : result (json * str) :=
          match n with
          | O => Unmodelled
          | S n' =>
              '(key, r) ← scanstring s;
              match skip_ws r with
              | c :: r1 =>
                  if eqc c ":" then
                    '(v, r2) ← scan_value fuel' (skip_ws r1);
                    let acc := dict_set acc key v in
                    match skip_ws r2 with
                    | d :: r3 =>
                        if eqc d "}" then Parsed (JObject acc, r3)
                        else if eqc d "," then
                          match skip_ws r3 with
                          | q :: r4 =>
                              if eqc q dquote then members n' acc r4
                              else DecodeError
                          | [] => DecodeError
                          end
                        else DecodeError
                    | [] => DecodeError
                    end
                  else DecodeError
              | [] => DecodeError
              end
          end in
      let elements :=
        fix elements (n : nat) (acc : list json) (s : str)
          : result (json * str) :=
          match n with
          | O => Unmodelled
          | S n' =>
              '(v, r) ← scan_value fuel' s;
              match skip_ws r with
              | d :: r1 =>
                  if eqc d "]" then Parsed (JArray (acc ++ [v]), r1)
                  else if eqc d "," then elements n' (acc ++ [v]) (skip_ws r1)
                  else DecodeError
              | [] => DecodeError
              end
          end in
      match s with
      | [] => DecodeError
      | c :: r =>
          if eqc c dquote then
            '(t, rest) ← scanstring r; Parsed (JString t, rest)
          else if eqc c "{" then
            match skip_ws r with
            | d :: r1 =>
                if eqc d "}" then Parsed (JObject [], r1)
                else if eqc d dquote then members fuel' [] r1
                else DecodeError
            | [] => DecodeError
            end
          else if eqc c "[" then
            match skip_ws r with
            | d :: r1 =>
                if eqc d "]" then Parsed (JArray [], r1)
                else elements fuel' [] (d :: r1)
            | [] => DecodeError
            end
          else if startswith (L "null") s then Parsed (JNull, drop 4 s)
          else if startswith (L "true") s then Parsed (JBool true, drop 4 s)
          else if startswith (L "false") s then Parsed (JBool false, drop 5 s)
          else if startswith (L "NaN") s || startswith (L "Infinity") s
                  || startswith (L "-Infinity") s then Unmodelled
          else match scan_number s with
               | Some x => x
               | None => DecodeError
               end
      end
  end.

(** [json.loads(s)]: one value, whitespace around it, nothing else. *)
Definition json_loads (s : str) : result json :=
  '(v, rest) ← scan_value (2 * length s + 2) (skip_ws s);
  match skip_ws rest with
  | [] => Parsed v
  | _ => DecodeError
  end.

Definition hex_char (n : nat) : ascii :=
  if (n <? 10)%nat then ascii_of_nat (48 + n) else ascii_of_nat (87 + n).

(** One character of a string under [ensure_ascii]. *)
Definition encode_char (c : ascii) : str :=
  let n := nat_of_ascii c in
  if eqc c dquote then [backslash; dquote]
  else if eqc c "\" then L "\\"
  else if (n =? 10)%nat then L "\n"
  else if (n =? 13)%nat then L "\r"
  else if (n =? 9)%nat then L "\t"
  else if (n =? 8)%nat then L "\b"
  else if (n =? 12)%nat then L "\f"
  else if ((32 <=? n) && (n <=? 126))%nat then [c]
  else L "\u00" ++ [hex_char (n / 16); hex_char (n mod 16)].

Definition encode_string (s : str) : str :=
  [dquote] ++ concat (map encode_char s) ++ [dquote].

(** [json.dumps(v, separators=(',', ':'))] *)
Fixpoint json_dumps (v : json) : str :=
  match v with
  | JNull => L "null"
  | JBool true => L "true"
  | JBool false => L "false"
  | JInt z => L (pretty z)
  | JString s => encode_string s
  | JArray items => L "[" ++ join (L ",") (map json_dumps items) ++ L "]"
  | JObject members =>
      L "{"
      ++ join (L ",")
           (map (fun kv => encode_string (fst kv) ++ L ":" ++ json_dumps (snd kv))
              members)
      ++ L "}"
  end.

End Json.

Import Json.

(** ** Format detection and cleaning ([event_generators/vibelog_ui.py]) *)

Module Vibelog.

Inductive log_format := JSON | RAW.

(** [r'\{[^{}]*\}'] *)
Definition json_pattern : re := seq [chr "{"; Star not_brace; chr "}"].

(** [detect_log_format] *)
Definition detect_log_format (output : str) : log_format :=
  let json_matches := findall json_pattern output in
  if (2 <? length json_matches)%nat then JSON else RAW.

(** The patterns of [clean_raw_logs], matched under [re.IGNORECASE]. The
    leading [^] adds nothing to [re.match], which only matches at the
    start. *)
Definition skip_patterns : list re := [
  seq [plus (chr "="); Eos];
  seq [plus (chr "-"); Eos];
  seq [Star dot; lit_i "Sample"; Star dot; lit_i "Events"; Star dot;
       Opt (chr ":"); Eos];
  seq [lit_i "Sample"; Star dot; lit_i "logs"; Opt (chr ":"); Eos];
  seq [lit_i "Traffic logs"; Opt (chr ":"); Eos];
  seq [lit_i "Threat logs"; Opt (chr ":"); Eos];
  seq [lit_i "Traffic log"; Opt (chr ":"); Eos];
  seq [lit_i "Threat log"; Opt (chr ":"); Eos];
  seq [lit_i "Event "; plus digit; Opt (chr ":"); Eos];
  seq [Star space; Eos]
].

(** The inner loop (lines 110-114): does some pattern match the stripped
    line? *)
Fixpoint should_skip (patterns : list re) (line : str) : bool :=
  match patterns with
  | [] => false
  | pattern :: rest =>
      if re_match pattern (strip line) then true else should_skip rest line
  end.

(** [clean_raw_logs] *)
Definition clean_raw_logs (output product_name : str) : str :=
  let lines := split_on nl output in
  let cleaned_lines :=
    fold_left
      (fun cleaned line =>
         if negb (should_skip skip_patterns line)
            && negb (bool_decide (strip line = []))
         then cleaned ++ [line] else cleaned)
      lines [] in
  join [nl] cleaned_lines.

(** The pattern of [clean_json_logs]: an opening brace, text without
    braces, any number of inner brace pairs each followed by text without
    braces, and a closing brace. *)
Definition json_object_pattern : re :=
  seq [chr "{"; Star not_brace;
       Star (seq [chr "{"; Star not_brace; chr "}"; Star not_brace]);
       chr "}"].

(** The body of the loop of [clean_json_logs] (lines 129-137); [None]
    when the JSON model does not cover [json_str]. *)
Definition format_json (json_str : str) : option str :=
  match json_loads json_str with
  | Parsed parsed => Some (json_dumps parsed)
  | DecodeError => Some (join (L " ") (words json_str))
  | Unmodelled => None
  end.

(** [clean_json_logs] *)
Definition clean_json_logs (output : str) : option str :=
  let json_objects := findall json_object_pattern output in
  formatted_logs ← mapM format_json json_objects;
  Some (join [nl] formatted_logs).

End Vibelog.

Import Vibelog.

Import Delivery.

(** ** The statements of the specification *)

Module Spec.

(** The validation rule for a HEC url: [stored] is [url] without its
    trailing slashes, with the collector path appended unless what is left
    ends in /event or /raw or already has the path. *)
Definition hec_url_rule (url stored : str) : Prop :=
  exists trimmed k,
    url = trimmed ++ replicate k "/"%char
    /\ ~ L "/" `suffix_of` trimmed
    /\ let kept :=
         L "/event" `suffix_of` trimmed \/ L "/raw" `suffix_of` trimmed
         \/ occurs (L "/services/collector") trimmed in
       (kept -> stored = trimmed)
       /\ (~ kept -> stored = trimmed ++ L "/services/collector").

(** A descriptor whose id is a non-empty text, as every descriptor that
    [create_destination] appends is. *)
Definition has_text_id (d : dict) : Prop :=
  exists i, get d "id" = VStr i /\ i <> [].

(** The responses after which the file has been written: 201, or the
    exception raised while building the response. *)
Definition saved (r : response) : Prop :=
  (exists body, r = Json 201 body) \/ r = Unhandled "UnboundLocalError".

(** How many destinations have this name and type. *)
Definition count_matching (name : value) (t : str) (items : list dict) : nat :=
  length (filter (fun d => matches name t d = true) items).

(** The invariant of the data model: no two destinations with the same
    name and type. *)
Definition unique_per_name_type (items : list dict) : Prop :=
  forall name t, count_matching name t items <= 1.

(** [clear_of ph t]: the text [t] cannot overlap the placeholder [ph]. It
    has neither the first nor the last character of [ph] in it, and it is
    not a piece of [ph]. *)
Definition clear_of (ph t : str) : bool :=
  match ph with
  | [] => false
  | a :: _ =>
      negb (existsb (eqc a) t) && negb (existsb (eqc (List.last ph a)) t)
      && negb (contains t ph)
  end.

(** The fixed texts of a HEC run of [generate_logs]. *)
Definition status_texts : list str :=
  [L "INFO: Starting HEC send..."; L "ERROR: HEC sender not found.";
   L "ERROR: HEC sender errors:"; L "INFO: Log generation complete."].

(** A secret that none of the fixed texts of the stream can show by
    accident: no newline in it, not a piece of a status text, and clear of
    the two placeholders. *)
Definition distinctive (t : str) : bool :=
  negb (existsb (eqc nl) t)
  && forallb (fun f => negb (contains t f)) status_texts
  && clear_of (L "***") t && clear_of (L "<hec_url>") t.

(** [closes s]: the first brace of [s] is a closing one. *)
Fixpoint closes (s : str) : bool :=
  match s with
  | [] => false
  | c :: s' =>
      if eqc c "}" then true else if eqc c "{" then false else closes s'
  end.

(** The number of brace-delimited substrings with no brace inside: the
    opening braces that the next brace closes. *)
Fixpoint brace_groups (s : str) : nat :=
  match s with
  | [] => 0
  | c :: s' => (if eqc c "{" && closes s' then 1 else 0) + brace_groups s'
  end.

(** The second pattern as an automaton over the braces: [scan inner s]
    reads [s] after an opening brace and returns what follows the brace
    that closes it; [inner] says that an inner pair is open. *)
Fixpoint scan (inner : bool) (s : str) : option str :=
  match s with
  | [] => None
  | c :: s' =>
      if eqc c "}" then (if inner then scan false s' else Some s')
      else if eqc c "{" then (if inner then None else scan true s')
      else scan inner s'
  end.

Definition object_end (s : str) : option str :=
  match s with
  | c :: s' => if eqc c "{" then scan false s' else None
  | [] => None
  end.

(** A record that [clean_json_logs] reads back as it is: the pattern
    matches it from its first to its last character, and formatting it
    gives the same text. *)
Definition stable (r : str) : Prop :=
  exec json_object_pattern r Some = Some [] /\ format_json r = Some r.

(** The pieces of the second pattern: an inner pair with the text after
    it, and the closing brace with what is done after it. *)
Definition inner_pair : re :=
  seq [chr "{"; Star not_brace; chr "}"; Star not_brace].

Definition close_brace : str -> option str := fun s3 => exec (chr "}") s3 Some.

End Spec.

Import Spec.

(** ** Sample hosts and payloads *)

Module Examples.

(** A host where the keyring works and the file can be written, and one
    where [import keyring] failed. *)
Definition working : env :=
  {| HAS_KEYRING := true; set_password_ok := fun _ _ => true;
     delete_password_ok := fun _ => true; save_ok := fun _ => true |}.

Definition no_keyring : env :=
  {| HAS_KEYRING := false; set_password_ok := fun _ _ => false;
     delete_password_ok := fun _ => false; save_ok := fun _ => true |}.

Definition empty_registry : state :=
  {| destinations_file := []; keyring := ∅ |}.

Definition hec_payload (name url token : string) : dict :=
  <["type" := VStr (L "hec")]> (<["name" := VStr (L name)]>
    (<["url" := VStr (L url)]> {["token" := VStr (L token)]})).

Definition syslog_payload (name ip : string) (port : Z) (protocol : string)
  : dict :=
  <["type" := VStr (L "syslog")]> (<["name" := VStr (L name)]>
    (<["ip" := VStr (L ip)]> (<["port" := VInt port]>
      {["protocol" := VStr (L protocol)]}))).

(** A request for three lines over TCP to 10.0.0.5:514, and a network that
    refuses the connection. *)
Definition tcp_request : request :=
  {| destination := L "syslog"; full_script_path := L "event_generators/gen.py";
     log_count := 3; delay := L "1.0";
     syslog_ip := VStr (L "10.0.0.5"); syslog_port := Some 514%Z;
     syslog_protocol := VStr (L "tcp"); product_id := VNone;
     unified_dest_id := VNone; hec_dest_id := VNone; syslog_dest_id := VNone |}.

Definition refusing : world :=
  {| script_exists := true; sender_exists := true;
     hec_sender_path := L "Backend/event_generators/shared/hec_sender.py";
     scenarios_dir := L "Backend/scenarios";
     exception_text := fun _ => L "error";
     connect_error := Some (L "Connection refused");
     popen_error := None; send_error := fun _ => None;
     child_stdout := [L "line 1" ++ [nl]; L "line 2" ++ [nl]];
     child_stderr := []; returncode := 0 |}.

(** A registry with one HEC destination, hec:1, whose token is in the
    keyring; a request that sends to it; and a sender, or a scenario
    script, that prints [out] and writes [err] to its standard error. *)
Definition hec_registry (token : string) : state :=
  {| destinations_file :=
       [ <["id" := VStr (L "hec:1")]> (<["type" := VStr (L "hec")]>
           (<["name" := VStr (L "prod")]>
              {["url" := VStr (L "https://example.com/services/collector")]})) ];
     keyring := {[ L "hec:1" := L token ]} |}.

Definition hec_request : request :=
  {| destination := L "hec"; full_script_path := [];
     log_count := 3; delay := L "1.0";
     syslog_ip := VNone; syslog_port := None; syslog_protocol := VNone;
     product_id := VStr (L "okta_authentication");
     unified_dest_id := VStr (L "hec:1"); hec_dest_id := VNone;
     syslog_dest_id := VNone |}.

Definition printing (out : list str) (err : str) : world :=
  {| script_exists := true; sender_exists := true;
     hec_sender_path := L "Backend/event_generators/shared/hec_sender.py";
     scenarios_dir := L "Backend/scenarios";
     exception_text := fun _ => L "error";
     connect_error := None; popen_error := None; send_error := fun _ => None;
     child_stdout := out; child_stderr := err; returncode := 0 |}.

Definition scenario_request : dict :=
  <["scenario_id" := VStr (L "quick_scenario")]>
    {["destination_id" := VStr (L "hec:1")]}.

(** A text in double quotes. *)
Definition quoted (s : string) : str := [dquote] ++ L s ++ [dquote].

End Examples.

Import Examples.

(** ** Sending cleaned logs ([event_generators/vibelog_ui.py]) *)

Module Routes.

(** How [subprocess.run(nc_command, input=logs, ...)] ends. *)
Inductive completed :=
| Exited (returncode : Z) (stderr : str)
| NotFound
| TimedOut
| Crashed (text : str).

(** What the machine of the web service does: whether [nc -h] runs, what a
    run of [nc] gives, what [ensure_output_directory] finds, whether the
    log file can be written, and the texts of the exceptions raised on
    values of the wrong type. *)
Record host := {
  nc_available : bool;
  run_nc : list str -> str -> completed;
  bad_argument : str;
  config_output_dir : str;
  ensure_output_directory : value -> bool * str;
  write_error : str -> str -> option str;
  error_text : failure -> str
}.

(** What a request does outside the process: a run of [nc] with its
    input, a file written to the end. *)
Inductive effect :=
| Ran (command : list str) (input : str)
| Wrote (path : str) (content : str).

(** [send_to_syslog]: the pair returned, or [None] for the
    [AttributeError] of a protocol without [upper], and the runs of [nc].
    A command with an argument that is not text is refused by
    [subprocess.run] before anything runs. *)
Definition send_to_syslog (h : host) (logs : str) (ip port protocol : value)
  : option (bool * str) * list effect :=
  if negb (nc_available h)
  then (Some (false, L "Error: 'nc' (netcat) command is not available. Cannot send to syslog."), [])
  else
    match protocol with
    | VStr p =>
        let flags :=
          if bool_decide (upper p = L "TCP") then Some [L "nc"; L "-w"; L "3"]
          else if bool_decide (upper p = L "UDP")
          then Some [L "nc"; L "-u"; L "-w"; L "3"]
          else None in
        match flags with
        | None =>
            (Some (false, L "Error: Unknown protocol '" ++ p
                          ++ L "'. Must be TCP or UDP."), [])
        | Some flags =>
            match ip, port with
            | VStr i, VStr q =>
                let nc_command := flags ++ [i; q] in
                (Some
                   match run_nc h nc_command logs with
                   | Exited rc stderr =>
                       if (rc =? 0)%Z
                       then (true, L "Logs successfully sent to syslog at "
                                   ++ i ++ L ":" ++ q ++ L " (" ++ p ++ L ").")
                       else (false, L "Syslog transmission failed: "
                                    ++ match stderr with
                                       | [] => L "nc command failed with exit code "
                                               ++ L (pretty rc) ++ L "."
                                       | _ => stderr
                                       end)
                   | NotFound =>
                       (false, L "Error: 'nc' command is not available. Cannot send to syslog.")
                   | TimedOut =>
                       (false, L "Syslog transmission timed out to "
                               ++ i ++ L ":" ++ q ++ L ".")
                   | Crashed text =>
                       (false, L "Syslog transmission failed: " ++ text)
                   end,
                 [Ran nc_command logs])
            | _, _ =>
                (Some (false, L "Syslog transmission failed: " ++ bad_argument h),
                 [])
            end
        end
    | _ => (None, [])
    end.

(** [jsonify] of a success and of a failure. *)
Definition succeeded (message : str) : dict :=
  <["success" := VBool true]> {["message" := VStr message]}.

Definition failed (error : str) : dict :=
  <["success" := VBool false]> {["error" := VStr error]}.

(** [os.path.join(directory, filename)] on a POSIX system. *)
Definition path_join (directory filename : str) : str :=
  if startswith (L "/") filename then filename
  else if bool_decide (directory = []) || endswith (L "/") directory
  then directory ++ filename
  else directory ++ L "/" ++ filename.

(** [data.get(key, default)] *)
Definition get_or (data : dict) (key : string) (v : value) : value :=
  default v (data !! key).
Arguments get_or data key%_string v.

(** The cleaning step of [api_process] (lines 920-925): the cleaned text
    and the file name. The outer [None] is a text outside the JSON model;
    [inl] is the exception raised when [output] is not text. *)
Definition cleaned_output (data : dict) : option (failure + str * str) :=
  let output := get_or data "output" (VStr []) in
  let script_name := get_or data "script_name" (VStr (L "unknown")) in
  if py_eq (get_or data "format" (VStr (L "RAW"))) (VStr (L "JSON")) then
    match output with
    | VStr text =>
        cleaned ← clean_json_logs text;
        Some (inr (cleaned, py_str script_name ++ L "-json.log"))
    | _ => Some (inl TypeError)
    end
  else
    match output with
    | VStr text =>
        Some (inr (clean_raw_logs text (py_str script_name),
                   py_str script_name ++ L "-raw.log"))
    | _ => Some (inl AttributeError)
    end.

(** [POST /api/process] *)
Definition api_process (h : host) (data : dict) : option (dict * list effect) :=
  step ← cleaned_output data;
  match step with
  | inl f => Some (failed (error_text h f), [])
  | inr (cleaned, filename) =>
      let output_target := get_or data "output_target" (VStr (L "local")) in
      if py_eq output_target (VStr (L "local")) then
        let output_dir :=
          get_or data "output_dir" (VStr (config_output_dir h)) in
        let '(is_writable, message) := ensure_output_directory h output_dir in
        if negb is_writable then Some (failed message, [])
        else
          match output_dir with
          | VStr directory =>
              let output_path := path_join directory filename in
              match write_error h output_path cleaned with
              | Some text => Some (failed text, [])
              | None =>
                  Some (succeeded (L "Logs processed and saved to "
                                   ++ output_path),
                        [Wrote output_path cleaned])
              end
          | _ => Some (failed (error_text h TypeError), [])
          end
      else if py_eq output_target (VStr (L "syslog")) then
        let syslog_ip := get data "syslog_ip" in
        let syslog_port := get data "syslog_port" in
        let syslog_protocol := get data "syslog_protocol" in
        if negb (truthy syslog_ip) || negb (truthy syslog_port)
           || negb (truthy syslog_protocol)
        then Some (failed (L "Syslog configuration is incomplete."), [])
        else
          match send_to_syslog h cleaned syslog_ip syslog_port syslog_protocol with
          | (Some (true, message), effects) => Some (succeeded message, effects)
          | (Some (false, message), effects) => Some (failed message, effects)
          | (None, effects) =>
              Some (failed (error_text h AttributeError), effects)
          end
      else Some (failed (L "Unknown output target: " ++ py_str output_target),
                 [])
  end.

End Routes.

Import Routes.

(** ** The sourcetype map of the HEC sender
       ([testing/parser_validation/apply_generator_parser_fixes.py]) *)

Module ParserFixes.

(** A Python index into a text of length [len]: a negative one counts from
    the end, and both ends are clamped. *)
Definition index (len : nat) (i : Z) : nat :=
  Z.to_nat (if (i <? 0)%Z then Z.max 0 (i + Z.of_nat len)
            else Z.min i (Z.of_nat len)).

(** The first place at or after the head of [s] where [sub] starts, the
    head being place [i]. *)
Fixpoint find_from (sub s : str) (i : nat) : option nat :=
  if startswith sub s then Some i
  else match s with
       | [] => None
       | _ :: s' => find_from sub s' (S i)
       end.

(** [s.find(sub, start)] *)
Definition find (sub s : str) (start : Z) : Z :=
  if (Z.of_nat (length s) <? start)%Z then (-1)%Z
  else
    let a := index (length s) start in
    match find_from sub (drop a s) a with
    | Some i => Z.of_nat i
    | None => (-1)%Z
    end.

(** The last place where [sub] starts. *)
Fixpoint rfind_from (sub s : str) (i : nat) : option nat :=
  match s with
  | [] => if startswith sub [] then Some i else None
  | _ :: s' =>
      match rfind_from sub s' (S i) with
      | Some j => Some j
      | None => if startswith sub s then Some i else None
      end
  end.

(** [s.rfind(sub, start)] *)
Definition rfind (sub s : str) (start : Z) : Z :=
  if (Z.of_nat (length s) <? start)%Z then (-1)%Z
  else
    let a := index (length s) start in
    match rfind_from sub (drop a s) a with
    | Some i => Z.of_nat i
    | None => (-1)%Z
    end.

(** [s[a:b]] *)
Definition slice (s : str) (a b : Z) : str :=
  let a' := index (length s) a in
  let b' := index (length s) b in
  take (b' - a') (drop a' s).

(** An entry of [updates_made]. *)
Inductive update :=
| Updated (generator current_parser parser : str)
| Added (generator parser : str).

(** The text searched for: the generator in double quotes, a colon, a
    space and the quote that opens the value. *)
Definition search_pattern (generator : str) : str :=
  [dquote] ++ generator ++ [dquote] ++ L ": " ++ [dquote].

(** A mapping as the file has it: the search pattern, the parser and
    the closing quote. *)
Definition mapping_line (generator parser : str) : str :=
  search_pattern generator ++ parser ++ [dquote].

(** The line added for a new mapping: four spaces, the mapping, a comma
    and a newline. *)
Definition new_entry (generator parser : str) : str :=
  L "    " ++ mapping_line generator parser ++ L "," ++ [nl].

(** The body of the loop of [update_hec_sender_mappings] (lines 113-147):
    the content after one mapping, and what is appended to
    [updates_made]. *)
Definition apply_mapping (content : str) (m : str * str) : str * list update :=
  let '(generator, parser) := m in
  if contains (search_pattern generator) content then
    let start_idx := find (search_pattern generator) content 0 in
    let start_value :=
      find [dquote] content
        (start_idx + Z.of_nat (length (search_pattern generator))) in
    let end_value := find [dquote] content (start_value + 1) in
    let current_parser := slice content (start_value + 1) end_value in
    if bool_decide (current_parser <> parser) then
      (replace (mapping_line generator current_parser)
         (mapping_line generator parser) content,
       [Updated generator current_parser parser])
    else (content, [])
  else
    let sourcetype_start := find (L "SOURCETYPE_MAP = {") content 0 in
    if bool_decide (sourcetype_start <> (-1)%Z) then
      let insert_point := rfind (L "}") content sourcetype_start in
      if bool_decide (insert_point <> (-1)%Z) then
        (slice content 0 insert_point ++ new_entry generator parser
         ++ slice content insert_point (Z.of_nat (length content)),
         [Added generator parser])
      else (content, [])
    else (content, []).

(** The loop over [mappings.items()]. *)
Definition apply_mappings (content : str) (mappings : list (str * str))
  : str * list update :=
  fold_left
    (fun acc m =>
       let '(content', made) := apply_mapping (fst acc) m in
       (content', snd acc ++ made))
    mappings (content, []).

(** [update_hec_sender_mappings]: the value returned and the text written
    to the file, if any. [file] is [None] when the sender is not there,
    [write_ok] says whether the write goes through. *)
Definition update_hec_sender_mappings (file : option str) (write_ok : bool)
    (mappings : list (str * str)) (test_run : bool) : bool * option str :=
  match file with
  | None => (false, None)
  | Some content =>
      let '(content', updates_made) := apply_mappings content mappings in
      match updates_made with
      | [] => (false, None)
      | _ =>
          if negb test_run
          then if write_ok then (true, Some content') else (false, None)
          else (true, None)
      end
  end.

End ParserFixes.

Import ParserFixes.

(** ** Notions for the laws of the registry, the streams and the cleaners *)

Module Notions.

(** *** The registry *)

Definition listed_fields : list string :=
  ["id"; "name"; "type"; "url"; "ip"; "port"; "protocol"]%string.

Definition remaining (dest_id : str) (items : list dict) : list dict :=
  filter (fun d => negb (py_eq (get d "id") (VStr dest_id)) = true) items.

Definition updated (v : validated) (d : dict) : dict :=
  match v with
  | Hec base _ => delete "token" (<["url" := VStr base]> d)
  | Syslog ip port protocol =>
      <["protocol" := VStr protocol]>
        (<["port" := VInt (default 0%Z (py_int port))]> (<["ip" := ip]> d))
  end.

Definition created (v : validated) (name dest_id : value) : dict :=
  match v with
  | Hec base _ =>
      <["id" := dest_id]> (<["type" := VStr (L "hec")]>
        (<["name" := name]> {["url" := VStr base]}))
  | Syslog ip port protocol =>
      <["id" := dest_id]> (<["type" := VStr (L "syslog")]>
        (<["name" := name]> (<["ip" := ip]>
          (<["port" := VInt (default 0%Z (py_int port))]>
             {["protocol" := VStr protocol]}))))
  end.

Definition written (name : value) (v : validated) (items : list dict)
  : list dict :=
  match find_existing name (type_of v) items with
  | Some (i, d) => <[i := updated v d]> items
  | None => items ++ [created v name (new_id (type_of v) items)]
  end.

Definition target_id (name : value) (v : validated) (items : list dict) : value :=
  match find_existing name (type_of v) items with
  | Some (_, d) => get d "id"
  | None => new_id (type_of v) items
  end.

Inductive call :=
| Create (payload : dict)
| Delete (dest_id : str).

Definition serve (st : state) (c : env * call) : state :=
  match c with
  | (e, Create payload) => snd (create_destination e st payload)
  | (e, Delete dest_id) => snd (delete_destination e st dest_id)
  end.

Definition replay (calls : list (env * call)) : state :=
  fold_left serve calls empty_registry.

Definition well_formed (d : dict) : Prop :=
  has_text_id d
  /\ d !! "token"%string = None
  /\ truthy (get d "name") = true
  /\ ((get d "type" = VStr (L "hec")
       /\ exists u, get d "url" = VStr u /\ normalize_url u = u)
      \/ (get d "type" = VStr (L "syslog")
          /\ truthy (get d "ip") = true
          /\ (exists p, get d "port" = VInt p)
          /\ (get d "protocol" = VStr (L "UDP")
              \/ get d "protocol" = VStr (L "TCP")))).

Definition has_secret (secrets : gmap str str) (d : dict) : Prop :=
  get d "type" = VStr (L "hec") ->
  exists i (tok : str),
    get d "id" = VStr i /\ secrets !! i = Some tok /\ tok <> [].

(** *** The streams *)

Definition completion : event :=
  Yield (L "INFO: Log generation complete." ++ [nl]).

Definition on_socket (ev : event) : bool :=
  match ev with
  | SocketOpen _ | SocketSend _ | SocketClose => true
  | _ => false
  end.

Definition opens_or_closes (ev : event) : bool :=
  match ev with
  | SocketOpen _ | SocketClose => true
  | _ => false
  end.

(** What a [try] body does with the socket: nothing when [sock] is still
    unbound at its end; otherwise it opens it first and does not close it. *)
Definition socket_use (b : body) : Prop :=
  let '(evs, _, sock) := b in
  if sock
  then exists kind rest,
         evs = SocketOpen kind :: rest
         /\ Forall (fun ev => opens_or_closes ev = false) rest
  else Forall (fun ev => on_socket ev = false) evs.

(** The lines [readline] returns before the empty text that ends the
    output. *)
Fixpoint readlines (lines : list str) : list str :=
  match lines with
  | [] => []
  | [] :: _ => []
  | line :: rest => line :: readlines rest
  end.

Definition sent (evs : list event) : list str :=
  omap (fun ev => match ev with SocketSend data => Some data | _ => None end) evs.

Definition logged (evs : list event) : list str :=
  omap (fun ev => match ev with
                  | Yield line =>
                      if startswith (L "LOG: ") line then Some line else None
                  | _ => None
                  end) evs.

Definition datagram (line : str) : str := strip line ++ [nl].

(** The number of sends before the first that fails, counting from send
    number [n]. *)
Fixpoint sends_before_failure (w : world) (n : nat) (lines : list str) : nat :=
  match lines with
  | [] => 0
  | _ :: rest =>
      match send_error w n with
      | Some _ => 0
      | None => S (sends_before_failure w (S n) rest)
      end
  end.

(** An event that is neither a send, nor a [LOG] line, nor a call on the
    child process. *)
Definition idle (ev : event) : bool :=
  match ev with
  | SocketSend _ | Terminate | Popen _ _ | Wait => false
  | Yield line => negb (startswith (L "LOG: ") line)
  | _ => true
  end.

Definition syslog_command (r : request) : event :=
  Popen [L "python"; full_script_path r; L (pretty (log_count r))] [].

Definition streams (r : request) (w : world) (b : body) : Prop :=
  (popen_error w = None
   /\ exists kind,
        b = ret ([SocketOpen kind;
                  Yield (L "INFO: Starting log generation..." ++ [nl]);
                  syslog_command r]
                 ++ send_lines w 0 (child_stdout w)
                 ++ script_errors w ++ [Wait]) true)
  \/ forallb idle (events_of b) = true.

(** An event that sends nothing, logs nothing and does not stop the
    child. *)
Definition silent (ev : event) : bool :=
  match ev with
  | SocketSend _ | Terminate => false
  | Yield line => negb (startswith (L "LOG: ") line)
  | _ => true
  end.

Definition scenario_command (w : world) (scenario_id : value) : list str :=
  [L "python"; scenarios_dir w ++ L "/" ++ py_str scenario_id ++ L ".py"].

Definition scenario_env (tok url : str) : list (string * str) :=
  [("S1_HEC_TOKEN"%string, tok); ("S1_HEC_URL"%string, rstrip (eqc "/") url)].

(** *** The cleaners *)

(** The test of lines 110-116. *)
Definition kept (line : str) : bool :=
  negb (should_skip skip_patterns line) && negb (bool_decide (strip line = [])).

(** A text on one line. *)
Definition one_line (s : str) : Prop := nl ∉ s.

(** *** Sample host, request and sender file *)

Definition laptop : host :=
  {| nc_available := true; run_nc := fun _ _ => Exited 0 [];
     bad_argument := L "expected str, bytes or os.PathLike object, not int";
     config_output_dir := L "/srv/logs";
     ensure_output_directory := fun _ => (true, L "Directory is writable");
     write_error := fun _ _ => None; error_text := fun _ => L "error" |}.

Definition process_request : dict :=
  <["output" := VStr (L "=====" ++ [nl] ++ L "foo=bar" ++ [nl])]>
    (<["format" := VStr (L "RAW")]>
       (<["script_name" := VStr (L "okta")]>
          {["output_target" := VStr (L "local")]})).

Definition sample_sender : str :=
  L "SOURCETYPE_MAP = {" ++ [nl]
  ++ L "    " ++ mapping_line (L "okta_authentication") (L "okta") ++ L "," ++ [nl]
  ++ L "    " ++ mapping_line (L "aws_cloudtrail") (L "aws") ++ L "," ++ [nl]
  ++ L "}" ++ [nl].

End Notions.

Import Notions.

(** * Facts *)

(** ** Text *)

Section TextFacts.

Lemma eqc_true a b : eqc a b = true <-> a = b.
Proof. apply Ascii.eqb_eq. Qed.

Lemma eqc_refl a : eqc a a = true.
Proof. by apply eqc_true. Qed.

Lemma startswith_prefix p s : startswith p s = true <-> p `prefix_of` s.
Proof.
  revert s. induction p as [|a p IH]; intros s; simpl.
  - split; [intros _; apply prefix_nil | done].
  - destruct s as [|b s].
    + split; [done | intros H; by apply prefix_nil_not in H].
    + rewrite andb_true_iff, eqc_true, IH. split.
      * intros [-> H]. by apply prefix_cons.
      * intros H. split; [by eapply prefix_cons_inv_1 | by eapply prefix_cons_inv_2].
Qed.

Lemma endswith_suffix p s : endswith p s = true <-> p `suffix_of` s.
Proof.
  unfold endswith. rewrite startswith_prefix. symmetry.
  apply suffix_prefix_reverse.
Qed.

Lemma occurs_nil t : occurs t [] -> t = [].
Proof.
  intros (p & q & H). symmetry in H.
  apply app_eq_nil in H as [_ H]. by apply app_eq_nil in H as [H _].
Qed.

Lemma occurs_cons t c s :
  occurs t (c :: s) <-> t `prefix_of` (c :: s) \/ occurs t s.
Proof.
  split.
  - intros (p & q & H). destruct p as [|x p]; simpl in H.
    + left. exists q. done.
    + right. injection H as _ H. by exists p, q.
  - intros [[q H] | (p & q & H)].
    + exists [], q. done.
    + exists (c :: p), q. by rewrite H.
Qed.

Lemma contains_occurs t s : contains t s = true <-> occurs t s.
Proof.
  induction s as [|c s IH]; simpl.
  - rewrite orb_false_r, startswith_prefix. split.
    + intros [q H]. exists [], q. done.
    + intros H. apply occurs_nil in H as ->. apply prefix_nil.
  - rewrite orb_true_iff, startswith_prefix, IH. symmetry. apply occurs_cons.
Qed.

Lemma occurs_app_l t s u : occurs t s -> occurs t (u ++ s).
Proof. intros (p & q & ->). exists (u ++ p), q. by rewrite <-(assoc_L (++)). Qed.

Lemma occurs_app_r t s u : occurs t s -> occurs t (s ++ u).
Proof.
  intros (p & q & ->). exists p, (q ++ u). by rewrite <-!(assoc_L (++)).
Qed.

Lemma occurs_prefix t s : t `prefix_of` s -> occurs t s.
Proof. intros [q ->]. by exists [], q. Qed.

(** [rstrip] removes a run of stripped characters from the end, and what
    is left does not end in one. *)
Lemma rstrip_spec p s :
  exists tail, s = rstrip p s ++ tail
    /\ Forall (fun c => p c = true) tail
    /\ (forall c, [c] `suffix_of` rstrip p s -> p c = false).
Proof.
  induction s as [|c s (tail & Hs & Ht & Hl)]; simpl.
  - exists []. split_and!; [done | done |].
    intros c [k H]. by destruct k.
  - destruct (rstrip p s) as [|x r] eqn:E.
    + destruct (p c) eqn:Hc.
      * exists (c :: tail). simpl in Hs. subst s. split_and!; [done | by constructor |].
        intros d [k H]. by destruct k.
      * exists tail. simpl in Hs. subst s. split_and!; [done | done |].
        intros d [k H]. destruct k as [|? [|]]; simplify_eq/=. done.
    + exists tail. split_and!; [by rewrite Hs at 1 | done |].
      intros d [k H]. apply Hl. destruct k as [|y k]; simplify_eq/=.
      by exists k.
Qed.

End TextFacts.

(** ** The destination registry *)

Section RegistryFacts.

Lemma py_eq_refl v : py_eq v v = true.
Proof.
  destruct v as [|b|z|s]; simpl; [done | by destruct b | lia |].
  by apply bool_decide_eq_true.
Qed.

Lemma get_insert_eq (d : dict) k v : get (<[k := v]> d) k = v.
Proof. unfold get. by rewrite lookup_insert_eq. Qed.

Lemma get_insert_ne (d : dict) k k' v : k <> k' -> get (<[k := v]> d) k' = get d k'.
Proof. intros H. unfold get. by rewrite lookup_insert_ne. Qed.

Lemma get_delete_ne (d : dict) k k' : k <> k' -> get (delete k d) k' = get d k'.
Proof. intros H. unfold get. by rewrite lookup_delete_ne. Qed.

Lemma find_existing_Some name t items i d :
  find_existing name t items = Some (i, d) ->
  items !! i = Some d /\ matches name t d = true.
Proof.
  revert i. induction items as [|x items IH]; intros i; simpl; [done |].
  destruct (matches name t x) eqn:E.
  - intros [= <- <-]. done.
  - destruct (find_existing name t items) as [[j y]|]; simpl; [| done].
    intros [= <- <-]. by apply IH.
Qed.

Lemma find_existing_None name t items :
  find_existing name t items = None <->
  Forall (fun d => matches name t d = false) items.
Proof.
  induction items as [|x items IH]; simpl.
  - split; [by constructor | done].
  - destruct (matches name t x) eqn:E.
    + split; [done |]. intros H. apply Forall_cons_1 in H as [H _]. congruence.
    + destruct (find_existing name t items) as [[j y]|]; simpl.
      * split; [done |]. intros H. apply Forall_cons_1 in H as [_ H].
        by apply IH in H.
      * split; [| done]. intros _. constructor; [done | by apply IH].
Qed.

Lemma find_existing_insert name t items i d d' :
  find_existing name t items = Some (i, d) ->
  matches name t d' = true ->
  find_existing name t (<[i := d']> items) = Some (i, d').
Proof.
  revert i. induction items as [|x items IH]; intros i; simpl; [done |].
  destruct (matches name t x) eqn:E.
  - intros [= <- <-] H. simpl. by rewrite H.
  - destruct (find_existing name t items) as [[j y]|] eqn:F; simpl; [| done].
    intros [= <- <-] H. simpl. rewrite E. by rewrite (IH j).
Qed.

Lemma find_existing_snoc name t items d :
  find_existing name t items = None ->
  matches name t d = true ->
  find_existing name t (items ++ [d]) = Some (length items, d).
Proof.
  induction items as [|x items IH]; simpl; intros H Hd.
  - by rewrite Hd.
  - destruct (matches name t x); [done |].
    destruct (find_existing name t items) as [[j y]|]; [done |].
    by rewrite IH.
Qed.

Lemma matches_empty name t : truthy name = true -> matches name t ∅ = false.
Proof. unfold matches, get. rewrite lookup_empty. simpl. by destruct name. Qed.

(** With a name that counts as present, [if existing:] adds nothing. *)
Lemma existing_entry_find name t items :
  truthy name = true ->
  existing_entry name t items = find_existing name t items.
Proof.
  intros Hn. unfold existing_entry.
  destruct (find_existing name t items) as [[i d]|] eqn:F; [| done].
  apply find_existing_Some in F as [_ F]. case_bool_decide; [| done].
  subst d. by rewrite matches_empty in F.
Qed.


Lemma normalize_url_rule url : hec_url_rule url (normalize_url url).
Proof.
  destruct (rstrip_spec (eqc "/") url) as (tail & Hs & Ht & Hl).
  exists (rstrip (eqc "/") url), (length tail). split; [| split].
  - rewrite Hs at 1. f_equal. clear Hs.
    induction Ht as [|c tail Hc Ht IH]; [done |].
    simpl. apply eqc_true in Hc as <-. by f_equal.
  - intros H. apply Hl in H. by rewrite eqc_refl in H.
  - intros kept. unfold normalize_url.
    destruct (endswith (L "/event") _
              || endswith (L "/raw") _ || contains (L "/services/collector") _) eqn:E.
    + split; [done |]. intros H. exfalso. apply H. unfold kept.
      rewrite !orb_true_iff, !endswith_suffix, contains_occurs in E. tauto.
    + split; [| done]. intros H. exfalso.
      rewrite !orb_false_iff in E. destruct E as [[E1 E2] E3].
      destruct H as [H | [H | H]].
      * apply endswith_suffix in H. congruence.
      * apply endswith_suffix in H. congruence.
      * apply contains_occurs in H. congruence.
Qed.

Lemma _normalize_hec_url_agrees u : u <> [] -> _normalize_hec_url u = normalize_url u.
Proof.
  intros H. unfold _normalize_hec_url, normalize_url. destruct u; [done |].
  destruct (endswith (L "/event") _ || endswith (L "/raw") _); simpl; [done |].
  by destruct (contains _ _).
Qed.

Lemma truthy_VStr s : truthy (VStr s) = true <-> s <> [].
Proof. by destruct s. Qed.


Lemma matches_hec_entry name base id :
  matches name (L "hec")
    (<["id" := id]> (<["type" := VStr (L "hec")]>
       (<["name" := name]> {["url" := VStr base]}))) = true.
Proof.
  unfold matches, get. simplify_map_eq. by rewrite py_eq_refl.
Qed.

Lemma matches_update_hec name t (d : dict) base :
  matches name t (delete "token" (<["url" := VStr base]> d)) = matches name t d.
Proof.
  unfold matches. by rewrite !get_delete_ne, !get_insert_ne.
Qed.

(** [C4] A HEC upsert with name, url and token stores and returns the url
    as the validation rule gives it: trailing slashes trimmed, and the
    collector path appended unless the trimmed url ends in /event or /raw or
    already contains it. [_normalize_hec_url] computes the same url when the
    events are sent. The host is one where the keyring and the file can be
    written, and the stored descriptors have their ids. *)
Theorem hec_upsert_url e st payload name url token :
  py_eq (get payload "type") (VStr (L "hec")) = true ->
  get payload "name" = name -> truthy name = true ->
  get payload "url" = VStr url -> url <> [] ->
  get payload "token" = VStr token -> token <> [] ->
  HAS_KEYRING e = true ->
  (forall i t, set_password_ok e i t = true) ->
  (forall items, save_ok e items = true) ->
  Forall has_text_id (destinations_file st) ->
  exists stored body st' i d,
    hec_url_rule url stored
    /\ create_destination e st payload = (Json 201 body, st')
    /\ get body "url" = VStr stored
    /\ find_existing name (L "hec") (destinations_file st') = Some (i, d)
    /\ get d "url" = VStr stored
    /\ _normalize_hec_url url = stored.
Proof.
  intros Ht Hn Hname Hu Hurl Htok Htoken Hk Hset Hsave Hids.
  pose proof (_normalize_hec_url_agrees url Hurl) as Hagree.
  exists (normalize_url url).
  unfold create_destination, validate. rewrite Ht, Hn, Hu, Htok, Hname.
  apply truthy_VStr in Hurl, Htoken. rewrite Hurl, Htoken. simpl.
  unfold upsert. simpl. rewrite existing_entry_find by done.
  unfold _load_destinations.
  destruct (find_existing name (L "hec") (destinations_file st))
    as [[i existing]|] eqn:F.
  - rewrite Hk. simpl. pose proof F as [Hi Hm]%find_existing_Some.
    rewrite Forall_forall in Hids.
    destruct (Hids existing) as (id & Hid & Hne).
    { eapply list_elem_of_lookup_2. exact Hi. }
    rewrite get_insert_ne, Hid by done. apply truthy_VStr in Hne as Hne'.
    rewrite Hne'. simpl. unfold set_password. rewrite Hset.
    unfold save_and_respond, _save_destinations. rewrite Hsave.
    eexists _, _, i, _. split_and!.
    + apply normalize_url_rule.
    + reflexivity.
    + unfold get. by simplify_map_eq.
    + simpl. apply (find_existing_insert _ _ _ _ _ _ F).
      by rewrite matches_update_hec.
    + by rewrite get_delete_ne, get_insert_eq.
    + done.
  - rewrite Hk. simpl. unfold set_password, new_id. rewrite Hset.
    unfold save_and_respond, _save_destinations. rewrite Hsave.
    eexists _, _, _, _. split_and!.
    + apply normalize_url_rule.
    + reflexivity.
    + unfold get. by simplify_map_eq.
    + simpl. apply (find_existing_snoc _ _ _ _ F). apply matches_hec_entry.
    + unfold get. by simplify_map_eq.
    + done.
Qed.


(** [C2] When the keyring is missing or refuses the token, a HEC create or
    update fails as a whole: the file and the keyring are left as they
    were, so no descriptor and no token is written, and the response is one
    of two fixed messages with status 500. *)
Theorem hec_upsert_fails_closed e st payload base token :
  validate payload = inr (Hec base token) ->
  HAS_KEYRING e = false \/ (forall id, set_password e st id token = None) ->
  snd (create_destination e st payload) = st
  /\ (fst (create_destination e st payload)
        = error 500 secure_storage_unavailable
      \/ fst (create_destination e st payload)
        = error 500 failed_to_save_token).
Proof.
  intros Hv H. unfold create_destination. rewrite Hv. unfold upsert.
  destruct (existing_entry _ _ _) as [[i existing]|].
  - destruct H as [-> | H]; [simpl; by auto |].
    destruct (negb (HAS_KEYRING e) || _); [simpl; by auto |].
    rewrite H. simpl. by auto.
  - destruct H as [-> | H]; [simpl; by auto |].
    destruct (negb (HAS_KEYRING e)); [simpl; by auto |].
    rewrite H. simpl. by auto.
Qed.



Lemma validate_name payload v :
  validate payload = inr v -> truthy (get payload "name") = true.
Proof.
  unfold validate. intros H.
  repeat match type of H with
         | (if ?b then _ else _) = _ => destruct b eqn:?
         | match ?x with _ => _ end = _ => destruct x eqn:?
         end; try discriminate;
    repeat match goal with
           | E : _ || _ = false |- _ => apply orb_false_iff in E as [? ?]
           end;
    by apply negb_false_iff.
Qed.

Lemma save_and_respond_saved e st items id name t base r st' :
  save_and_respond e st items id name t base = (r, st') ->
  saved r ->
  save_ok e items = true
  /\ st' = {| destinations_file := items; keyring := keyring st |}.
Proof.
  unfold save_and_respond, _save_destinations, error.
  destruct (save_ok e items).
  - destruct base; intros [= <- <-]; done.
  - intros [= <- <-] [[body H] | H]; discriminate.
Qed.

Lemma save_and_respond_ok e st items id name t base :
  save_ok e items = true ->
  save_and_respond e st items id name t base
  = (match base with
     | Some b => Json 201 (<["id" := id]> (<["name" := name]>
                   (<["type" := VStr t]> {["url" := VStr b]})))
     | None => Unhandled "UnboundLocalError"
     end,
     {| destinations_file := items; keyring := keyring st |}).
Proof.
  intros H. unfold save_and_respond, _save_destinations. rewrite H.
  by destruct base.
Qed.

Lemma count_matching_insert name t items i d d' :
  items !! i = Some d ->
  matches name t d' = matches name t d ->
  count_matching name t (<[i := d']> items) = count_matching name t items.
Proof.
  unfold count_matching. revert i.
  induction items as [|x items IH]; intros [|i]; simpl; try done.
  - intros [= ->] H. rewrite !filter_cons. rewrite H.
    by destruct (decide _).
  - intros Hi H. rewrite !filter_cons.
    destruct (decide _); simpl; by rewrite (IH i).
Qed.

Lemma count_matching_pos name t items i d :
  items !! i = Some d -> matches name t d = true ->
  1 <= count_matching name t items.
Proof.
  unfold count_matching. revert i.
  induction items as [|x items IH]; intros [|i]; simpl; try done.
  - intros [= ->] H. rewrite filter_cons_True by done. simpl. lia.
  - intros Hi H. rewrite filter_cons. specialize (IH i Hi H).
    destruct (decide _); simpl; lia.
Qed.

Lemma count_matching_none name t items :
  find_existing name t items = None -> count_matching name t items = 0.
Proof.
  rewrite find_existing_None. unfold count_matching.
  induction 1 as [|x items Hx _ IH]; [done |].
  rewrite filter_cons_False; [done | congruence].
Qed.

Lemma count_matching_snoc name t items d :
  matches name t d = true ->
  count_matching name t (items ++ [d]) = S (count_matching name t items).
Proof.
  intros H. unfold count_matching. rewrite filter_app, length_app.
  rewrite filter_cons_True by done. simpl. lia.
Qed.


Lemma set_password_inv e st id token st1 :
  set_password e st id token = Some st1 ->
  exists i t, id = VStr i /\ token = VStr t /\ set_password_ok e i t = true
    /\ st1 = {| destinations_file := destinations_file st;
                keyring := <[i := t]> (keyring st) |}.
Proof.
  unfold set_password. destruct id as [| | |i]; try done.
  destruct token as [| | |t]; try done.
  destruct (set_password_ok e i t) eqn:E; [| done].
  intros [= <-]. by exists i, t.
Qed.

Lemma update_hec_twice (d : dict) base :
  delete "token" (<["url" := VStr base]> (delete "token" (<["url" := VStr base]> d)))
  = delete "token" (<["url" := VStr base]> d).
Proof.
  apply map_eq. intros k.
  destruct (decide (k = "token")) as [-> | ?]; [by simplify_map_eq |].
  destruct (decide (k = "url")) as [-> | ?]; by simplify_map_eq.
Qed.

Lemma update_syslog_twice (d : dict) ip p proto :
  let upd (x : dict) : dict :=
    <["protocol" := VStr proto]> (<["port" := VInt p]> (<["ip" := ip]> x)) in
  upd (upd d) = upd d.
Proof.
  intros upd. unfold upd. apply map_eq. intros k.
  destruct (decide (k = "protocol")) as [-> | ?]; [by simplify_map_eq |].
  destruct (decide (k = "port")) as [-> | ?]; [by simplify_map_eq |].
  destruct (decide (k = "ip")) as [-> | ?]; by simplify_map_eq.
Qed.

Lemma matches_update_syslog name t (d : dict) ip p proto :
  matches name t
    (<["protocol" := VStr proto]> (<["port" := VInt p]> (<["ip" := ip]> d)))
  = matches name t d.
Proof. unfold matches. by rewrite !get_insert_ne. Qed.

Lemma matches_syslog_entry name id ip p proto :
  matches name (L "syslog")
    (<["id" := id]> (<["type" := VStr (L "syslog")]>
       (<["name" := name]> (<["ip" := ip]>
          (<["port" := VInt p]> {["protocol" := VStr proto]}))))) = true.
Proof. unfold matches, get. simplify_map_eq. by rewrite py_eq_refl. Qed.

Lemma hec_entry_stable id name t base :
  let entry : dict :=
    <["id" := id]> (<["type" := t]> (<["name" := name]> {["url" := VStr base]})) in
  delete "token" (<["url" := VStr base]> entry) = entry.
Proof.
  intros entry. unfold entry. apply map_eq. intros k.
  destruct (decide (k = "token")) as [-> | ?]; [by simplify_map_eq |].
  destruct (decide (k = "url")) as [-> | ?]; [by simplify_map_eq |].
  destruct (decide (k = "id")) as [-> | ?]; [by simplify_map_eq |].
  destruct (decide (k = "type")) as [-> | ?]; [by simplify_map_eq |].
  destruct (decide (k = "name")) as [-> | ?]; by simplify_map_eq.
Qed.

Lemma syslog_entry_stable id name t ip p proto :
  let entry : dict :=
    <["id" := id]> (<["type" := t]> (<["name" := name]> (<["ip" := ip]>
      (<["port" := VInt p]> {["protocol" := VStr proto]})))) in
  <["protocol" := VStr proto]> (<["port" := VInt p]> (<["ip" := ip]> entry))
  = entry.
Proof.
  intros entry. unfold entry. apply map_eq. intros k.
  destruct (decide (k = "protocol")) as [-> | ?]; [by simplify_map_eq |].
  destruct (decide (k = "port")) as [-> | ?]; [by simplify_map_eq |].
  destruct (decide (k = "ip")) as [-> | ?]; [by simplify_map_eq |].
  destruct (decide (k = "id")) as [-> | ?]; [by simplify_map_eq |].
  destruct (decide (k = "type")) as [-> | ?]; [by simplify_map_eq |].
  destruct (decide (k = "name")) as [-> | ?]; by simplify_map_eq.
Qed.

Lemma insert_snoc_last {A} (items : list A) (x y : A) :
  <[length items := y]> (items ++ [x]) = items ++ [y].
Proof. rewrite insert_app_r_alt by lia. by rewrite Nat.sub_diag. Qed.

Lemma upsert_twice e st name v r1 st1 :
  truthy name = true ->
  upsert e st name v = (r1, st1) ->
  saved r1 ->
  count_matching name (type_of v) (destinations_file st) <= 1 ->
  upsert e st1 name v = (r1, st1)
  /\ count_matching name (type_of v) (destinations_file st1) = 1.
Proof.
  intros Hname. unfold upsert. rewrite !existing_entry_find by done.
  unfold _load_destinations.
  destruct (find_existing name (type_of v) (destinations_file st))
    as [[i d]|] eqn:F.
  - pose proof F as [Hi Hm]%find_existing_Some.
    destruct v as [base token | ip port proto]; simpl type_of in *.
    + destruct (negb (HAS_KEYRING e) || _) eqn:E.
      { intros [= <- <-] [[b H] | H]; discriminate. }
      destruct (set_password e st _ token) as [stk|] eqn:Hs.
      2: { intros [= <- <-] [[b H] | H]; discriminate. }
      intros Hr Hsaved Hc.
      destruct (save_and_respond_saved _ _ _ _ _ _ _ _ _ Hr Hsaved) as [Hok ->].
      rewrite save_and_respond_ok in Hr by done. injection Hr as <-.
      apply set_password_inv in Hs as (id & t & Hid & -> & Hset & ->).
      simpl. split.
      * erewrite find_existing_insert;
          [| exact F | by rewrite matches_update_hec].
        rewrite update_hec_twice.
        rewrite ?get_insert_ne, ?get_delete_ne, ?get_insert_ne in * by done.
        rewrite E, Hid. unfold set_password. rewrite Hset. simpl.
        rewrite list_insert_insert_eq, insert_insert_eq.
        rewrite save_and_respond_ok by done. done.
      * erewrite count_matching_insert; [| exact Hi | by rewrite matches_update_hec].
        pose proof (count_matching_pos _ _ _ _ _ Hi Hm). lia.
    + destruct (py_int port) as [p|] eqn:Hp.
      2: { intros [= <- <-] [[b H] | H]; discriminate. }
      intros Hr Hsaved Hc.
      destruct (save_and_respond_saved _ _ _ _ _ _ _ _ _ Hr Hsaved) as [Hok ->].
      rewrite save_and_respond_ok in Hr by done. injection Hr as <-.
      cbn [destinations_file keyring]. split.
      * erewrite find_existing_insert;
          [| exact F | by rewrite matches_update_syslog].
        rewrite (update_syslog_twice d ip p proto).
        rewrite list_insert_insert_eq.
        by rewrite save_and_respond_ok.
      * erewrite count_matching_insert;
          [| exact Hi | by rewrite matches_update_syslog].
        pose proof (count_matching_pos _ _ _ _ _ Hi Hm). lia.
  - destruct v as [base token | ip port proto]; simpl type_of in *.
    + destruct (negb (HAS_KEYRING e)) eqn:E.
      { intros [= <- <-] [[b H] | H]; discriminate. }
      destruct (set_password e st _ token) as [stk|] eqn:Hs.
      2: { intros [= <- <-] [[b H] | H]; discriminate. }
      intros Hr Hsaved Hc.
      destruct (save_and_respond_saved _ _ _ _ _ _ _ _ _ Hr Hsaved) as [Hok ->].
      rewrite save_and_respond_ok in Hr by done. injection Hr as <-.
      apply set_password_inv in Hs as (id & t & Hid & -> & Hset & ->).
      simpl. split.
      * erewrite find_existing_snoc; [| exact F | apply matches_hec_entry].
        rewrite hec_entry_stable.
        rewrite (get_insert_ne _ "url" "id"), !get_insert_eq by done.
        rewrite Hid in Hok |- *. unfold new_id in Hid. injection Hid as Hid.
        replace (truthy (VStr id)) with true by (by rewrite <-Hid).
        unfold set_password. rewrite Hset. cbn [negb keyring destinations_file].
        rewrite insert_insert_eq, insert_snoc_last.
        by rewrite save_and_respond_ok.
      * rewrite count_matching_snoc by apply matches_hec_entry.
        by rewrite count_matching_none.
    + destruct (py_int port) as [p|] eqn:Hp.
      2: { intros [= <- <-] [[b H] | H]; discriminate. }
      intros Hr Hsaved Hc.
      destruct (save_and_respond_saved _ _ _ _ _ _ _ _ _ Hr Hsaved) as [Hok ->].
      rewrite save_and_respond_ok in Hr by done. injection Hr as <-.
      cbn [destinations_file keyring]. split.
      * erewrite find_existing_snoc; [| exact F | apply matches_syslog_entry].
        rewrite syslog_entry_stable, insert_snoc_last, get_insert_eq.
        by rewrite save_and_respond_ok.
      * rewrite count_matching_snoc by apply matches_syslog_entry.
        by rewrite count_matching_none.
Qed.


(** [C5] Submitting a valid payload a second time changes nothing: when
    the first upsert was saved, the second one returns the same response
    (the same id) and leaves the file and the keyring as the first left
    them; and if at most one destination had that name and type before,
    exactly one has them afterwards. *)
Theorem upsert_idempotent e st payload v r1 st1 :
  validate payload = inr v ->
  count_matching (get payload "name") (type_of v) (destinations_file st) <= 1 ->
  create_destination e st payload = (r1, st1) ->
  saved r1 ->
  create_destination e st1 payload = (r1, st1)
  /\ count_matching (get payload "name") (type_of v) (destinations_file st1) = 1.
Proof.
  intros Hv Hc H1 Hs. unfold create_destination in *. rewrite Hv in *.
  eapply upsert_twice; eauto using validate_name.
Qed.

(** The HEC scenario, submitted twice to an empty registry. *)
Lemma upsert_idempotent_witness :
  let payload := hec_payload "prod" "https://example.com" "abc" in
  let r1 := fst (create_destination working empty_registry payload) in
  let st1 := snd (create_destination working empty_registry payload) in
  create_destination working st1 payload = (r1, st1)
  /\ count_matching (get payload "name") (L "hec") (destinations_file st1) = 1.
Proof.
  intros payload r1 st1.
  apply (upsert_idempotent working empty_registry payload
           (Hec (L "https://example.com/services/collector") (VStr (L "abc")))
           r1 st1).
  - vm_compute. reflexivity.
  - vm_compute. lia.
  - reflexivity.
  - left. eexists. vm_compute. reflexivity.
Defined.

Lemma py_eq_sym a b : py_eq a b = py_eq b a.
Proof.
  destruct a as [|x|x|x], b as [|y|y|y]; simpl; try done.
  - by destruct x, y.
  - apply Z.eqb_sym.
  - apply Z.eqb_sym.
  - apply Z.eqb_sym.
  - apply bool_decide_ext. naive_solver.
Qed.

Lemma py_eq_trans a b c : py_eq a b = true -> py_eq b c = true -> py_eq a c = true.
Proof.
  destruct a as [|x|x|x], b as [|y|y|y], c as [|z|z|z]; simpl; try done;
    rewrite ?bool_decide_eq_true, ?Z.eqb_eq;
    try (destruct x); try (destruct y); try (destruct z); simpl;
    try done; try lia; congruence.
Qed.

Lemma matches_py_eq name name' t d :
  py_eq name name' = true -> matches name t d = matches name' t d.
Proof.
  intros H. unfold matches. f_equal.
  destruct (py_eq (get d "name") name) eqn:E1, (py_eq (get d "name") name') eqn:E2;
    try done.
  - by rewrite (py_eq_trans _ _ _ E1 H) in E2.
  - rewrite py_eq_sym in H. by rewrite (py_eq_trans _ _ _ E2 H) in E1.
Qed.

Lemma unique_empty : unique_per_name_type [].
Proof. intros name t. unfold count_matching. simpl. lia. Qed.

Lemma matches_type name t t' d :
  matches name t d = true -> matches name t' d = true -> t = t'.
Proof.
  unfold matches. rewrite !andb_true_iff. intros [_ H1] [_ H2].
  destruct (get d "type"); try done. simpl in *.
  apply bool_decide_eq_true in H1, H2. congruence.
Qed.

Lemma unique_snoc name t items d :
  truthy name = true ->
  find_existing name t items = None ->
  (forall n t', matches n t' d = true -> py_eq name n = true /\ t' = t) ->
  unique_per_name_type items -> unique_per_name_type (items ++ [d]).
Proof.
  intros Hn F Hd U n t'. unfold count_matching.
  rewrite filter_app, length_app, filter_cons, filter_nil.
  destruct (decide _) as [Hm|]; simpl; [| specialize (U n t'); unfold count_matching in U; lia].
  destruct (Hd _ _ Hm) as [He ->].
  pose proof (count_matching_none _ _ _ F) as H0. unfold count_matching in H0.
  erewrite (list_filter_iff _ (fun d => matches name t d = true)); [rewrite H0; lia |].
  intros x. by rewrite (matches_py_eq _ _ _ _ He).
Qed.

Lemma unique_insert items i d d' :
  items !! i = Some d ->
  (forall n t, matches n t d' = matches n t d) ->
  unique_per_name_type items -> unique_per_name_type (<[i := d']> items).
Proof.
  intros Hi Hm U n t. by rewrite (count_matching_insert _ _ _ _ d).
Qed.

Lemma upsert_unique e st name v :
  truthy name = true ->
  unique_per_name_type (destinations_file st) ->
  unique_per_name_type (destinations_file (snd (upsert e st name v))).
Proof.
  intros Hn U. unfold upsert. rewrite existing_entry_find by done.
  unfold _load_destinations, save_and_respond, _save_destinations, set_password.
  destruct (find_existing _ _ _) as [[i d]|] eqn:F.
  - apply find_existing_Some in F as [Hi Hm].
    destruct v as [base token | ip port proto].
    + repeat (case_match; simplify_eq/=; try done).
      all: eapply unique_insert; eauto; intros; apply matches_update_hec.
    + repeat (case_match; simplify_eq/=; try done).
      all: eapply unique_insert; eauto; intros; apply matches_update_syslog.
  - assert (forall (d : dict) n t', get d "name" = name ->
              get d "type" = VStr (type_of v) ->
              matches n t' d = true -> py_eq name n = true /\ t' = type_of v)
      as Hd.
    { intros d n t' H1 H2. unfold matches. rewrite H1, H2. simpl.
      rewrite andb_true_iff, bool_decide_eq_true. by intros [? <-]. }
    destruct v as [base token | ip port proto].
    + repeat (case_match; simplify_eq/=; try done).
      all: eapply unique_snoc; eauto; intros n t'; apply Hd;
        unfold get; by simplify_map_eq.
    + repeat (case_match; simplify_eq/=; try done).
      all: eapply unique_snoc; eauto; intros n t'; apply Hd;
        unfold get; by simplify_map_eq.
Qed.

(** Every state reached from a registry without duplicates has none. *)
Lemma create_destination_unique e st payload :
  unique_per_name_type (destinations_file st) ->
  unique_per_name_type (destinations_file (snd (create_destination e st payload))).
Proof.
  intros U. unfold create_destination.
  destruct (validate payload) as [r | v] eqn:Hv; [done |].
  apply upsert_unique; eauto using validate_name.
Qed.

Lemma delete_destination_unique e st dest_id :
  unique_per_name_type (destinations_file st) ->
  unique_per_name_type (destinations_file (snd (delete_destination e st dest_id))).
Proof.
  intros U. unfold delete_destination, _save_destinations, delete_password,
    _load_destinations.
  assert (unique_per_name_type
            (filter (fun d => negb (py_eq (get d "id") (VStr dest_id)) = true)
               (destinations_file st))) as U'.
  { intros n t. specialize (U n t). unfold count_matching in *.
    etrans; [| exact U]. clear U.
    induction (destinations_file st) as [|x l IH]; [done |].
    rewrite !(filter_cons _ x). repeat (destruct (decide _); simpl);
      rewrite ?filter_cons_True, ?filter_cons_False by done; simpl; lia. }
  repeat (case_match; simplify_eq/=; try done).
Qed.

(** The HEC scenario of the specification: https://example.com gets the
    collector path. *)
Lemma hec_upsert_url_witness :
  exists stored body st' i d,
    hec_url_rule (L "https://example.com") stored
    /\ create_destination working empty_registry
         (hec_payload "prod" "https://example.com" "abc") = (Json 201 body, st')
    /\ get body "url" = VStr stored
    /\ find_existing (VStr (L "prod")) (L "hec") (destinations_file st')
       = Some (i, d)
    /\ get d "url" = VStr stored
    /\ _normalize_hec_url (L "https://example.com") = stored.
Proof.
  apply (hec_upsert_url working empty_registry
           (hec_payload "prod" "https://example.com" "abc")
           (VStr (L "prod")) (L "https://example.com") (L "abc")).
  - vm_compute. reflexivity.
  - vm_compute. reflexivity.
  - reflexivity.
  - vm_compute. reflexivity.
  - vm_compute. discriminate.
  - vm_compute. reflexivity.
  - vm_compute. discriminate.
  - reflexivity.
  - intros i t. reflexivity.
  - intros items. reflexivity.
  - simpl. constructor.
Defined.

(** The HEC scenario on a host without keyring. *)
Lemma hec_upsert_fails_closed_witness :
  snd (create_destination no_keyring empty_registry
         (hec_payload "prod" "https://example.com" "abc")) = empty_registry
  /\ (fst (create_destination no_keyring empty_registry
             (hec_payload "prod" "https://example.com" "abc"))
        = error 500 secure_storage_unavailable
      \/ fst (create_destination no_keyring empty_registry
                (hec_payload "prod" "https://example.com" "abc"))
        = error 500 failed_to_save_token).
Proof.
  apply (hec_upsert_fails_closed no_keyring empty_registry
           (hec_payload "prod" "https://example.com" "abc")
           (L "https://example.com/services/collector") (VStr (L "abc"))).
  - vm_compute. reflexivity.
  - left. reflexivity.
Defined.

(** [C3] The scenario of the specification, run on the code: the syslog
    destination is stored with its protocol in upper case, and then building
    the response raises, because [base] is only bound on the HEC branch. The
    caller gets the error of an unhandled exception, not the destination. *)
Theorem syslog_upsert_raises :
  create_destination working empty_registry
    (syslog_payload "d1" "10.0.0.5" 514 "udp")
  = (Unhandled "UnboundLocalError",
     {| destinations_file :=
          [ <["id" := VStr (L "syslog:1")]> (<["type" := VStr (L "syslog")]>
              (<["name" := VStr (L "d1")]> (<["ip" := VStr (L "10.0.0.5")]>
                (<["port" := VInt 514]> {["protocol" := VStr (L "UDP")]})))) ];
        keyring := ∅ |}).
Proof. vm_compute. reflexivity. Qed.

Lemma py_eq_VStr v s : py_eq v (VStr s) = true -> v = VStr s.
Proof.
  destruct v; simpl; try done. intros H. apply bool_decide_eq_true in H. by subst.
Qed.

(** No syslog upsert answers 201, whatever the payload and the host. *)
Lemma syslog_upsert_never_created e st payload body :
  py_eq (get payload "type") (VStr (L "syslog")) = true ->
  fst (create_destination e st payload) <> Json 201 body.
Proof.
  intros Ht. apply py_eq_VStr in Ht.
  unfold create_destination, validate. rewrite Ht.
  replace (py_eq (VStr (L "syslog")) (VStr (L "hec"))) with false by done.
  replace (py_eq (VStr (L "syslog")) (VStr (L "syslog"))) with true by done.
  repeat (case_match; simplify_eq/=; try done).
  all: unfold upsert, save_and_respond, error in *.
  all: repeat (case_match; simplify_eq/=; try done).
Qed.

(** [C10] Ids are not unique. Create A, create B, delete A, create C: the
    registry then holds B and C, both with the id hec:2, because the id of a
    new destination is the length of the list plus one. *)
Theorem id_collision :
  let st1 := snd (create_destination working empty_registry
                    (hec_payload "A" "https://a.example" "ta")) in
  let st2 := snd (create_destination working st1
                    (hec_payload "B" "https://b.example" "tb")) in
  let st3 := snd (delete_destination working st2 (L "hec:1")) in
  let st4 := snd (create_destination working st3
                    (hec_payload "C" "https://c.example" "tc")) in
  map (fun d => (get d "name", get d "id")) (destinations_file st2)
    = [(VStr (L "A"), VStr (L "hec:1")); (VStr (L "B"), VStr (L "hec:2"))]
  /\ map (fun d => (get d "name", get d "id")) (destinations_file st4)
    = [(VStr (L "B"), VStr (L "hec:2")); (VStr (L "C"), VStr (L "hec:2"))].
Proof. vm_compute. split; reflexivity. Qed.

(** The id of a destination that is appended only depends on its type and
    on how many destinations the file holds. *)
Lemma upsert_new_id e st name v body st' :
  truthy name = true ->
  find_existing name (type_of v) (destinations_file st) = None ->
  upsert e st name v = (Json 201 body, st') ->
  get body "id"
  = VStr (type_of v ++ L ":" ++ decimal (length (destinations_file st) + 1)).
Proof.
  intros Hn F. unfold upsert, _load_destinations.
  rewrite existing_entry_find, F by done.
  unfold save_and_respond, error, new_id.
  repeat (case_match; simplify_eq/=; try done).
  intros [= <- <-]. unfold get. by simplify_map_eq.
Qed.

End RegistryFacts.

(** ** Streaming delivery *)

Section DeliveryFacts.

(** Membership in an explicit list, settled case by case. *)
Ltac in_list :=
  try unfold status_texts;
  repeat first [apply list_elem_of_here | apply list_elem_of_further].

Ltac in_cases H :=
  repeat first
    [ apply elem_of_app in H as [H | H]
    | apply elem_of_cons in H as [H | H]; [try discriminate H |]
    | by apply elem_of_nil in H ].

Lemma send_lines_no_open w k n lines : SocketOpen k ∉ send_lines w n lines.
Proof.
  revert n. induction lines as [|line rest IH]; intros n; simpl.
  - apply not_elem_of_nil.
  - destruct line as [|c line]; [apply not_elem_of_nil |].
    destruct (send_error w n).
    + rewrite !not_elem_of_cons. split_and!; [done | done | apply not_elem_of_nil].
    + rewrite !not_elem_of_cons. split_and!; [done | done | apply IH].
Qed.

Lemma script_errors_no_open w k : SocketOpen k ∉ script_errors w.
Proof.
  unfold script_errors. destruct (child_stderr w).
  - apply not_elem_of_nil.
  - rewrite not_elem_of_cons. split; [done | apply not_elem_of_nil].
Qed.

Lemma finish_open w b k :
  SocketOpen k ∈ finish w b -> SocketOpen k ∈ events_of b.
Proof.
  destruct b as [[evs how] sock]. unfold finish, events_of. simpl.
  intros H. apply elem_of_app in H as [H | H]; [done |].
  destruct how as [|[]]; destruct sock; in_cases H.
Qed.

(** A run that opens a stream socket and cannot connect does nothing else
    inside the [try] block. *)
Lemma syslog_send_refused r w ip port protocol err :
  SocketOpen SOCK_STREAM ∈ events_of (syslog_send r w ip port protocol) ->
  connect_error w = Some err ->
  syslog_send r w ip port protocol
  = ret [SocketOpen SOCK_STREAM;
         Yield (L "ERROR: Could not connect to TCP syslog server at "
                ++ py_str ip ++ L ":" ++ L (pretty port)
                ++ L ". Details: " ++ err ++ [nl])] true.
Proof.
  unfold syslog_send. intros H Hc. rewrite Hc.
  case_bool_decide as Hu.
  - exfalso. unfold events_of, ret in H.
    destruct (popen_error w); simpl in H; in_cases H.
    + by apply send_lines_no_open in H.
    + by apply script_errors_no_open in H.
  - case_bool_decide as Ht; [done |].
    exfalso. unfold events_of, ret in H. simpl in H. in_cases H.
Qed.

Lemma syslog_body_refused st r w err :
  SocketOpen SOCK_STREAM ∈ events_of (syslog_body st r w) ->
  connect_error w = Some err ->
  exists ip (port : Z),
    syslog_body st r w
    = ret [SocketOpen SOCK_STREAM;
           Yield (L "ERROR: Could not connect to TCP syslog server at "
                  ++ py_str ip ++ L ":" ++ L (pretty port)
                  ++ L ". Details: " ++ err ++ [nl])] true.
Proof.
  intros H' Hc.
  assert (forall ip port protocol,
            SocketOpen SOCK_STREAM ∈ events_of (syslog_checked r w ip port protocol) ->
            exists p, syslog_checked r w ip port protocol
                      = syslog_send r w ip p protocol
                      /\ SocketOpen SOCK_STREAM
                           ∈ events_of (syslog_send r w ip p protocol)) as Hchk.
  { intros ip port protocol. unfold syslog_checked.
    destruct port as [p|].
    - destruct (negb (truthy ip) || _ || _).
      + unfold events_of, ret. simpl. intros Hin. in_cases Hin.
      + intros Hin. by exists p.
    - unfold events_of, ret. simpl. intros Hin. in_cases Hin. }
  assert (forall (x : failure), SocketOpen SOCK_STREAM ∈ events_of ([], Raised x, false) -> False)
    as Hraise.
  { intros x. unfold events_of. simpl. apply not_elem_of_nil. }
  assert (forall line, SocketOpen SOCK_STREAM ∈ events_of (ret [Yield line] false) -> False)
    as Hline.
  { intros line. unfold events_of, ret. simpl. intros Hin. in_cases Hin. }
  revert H'. unfold syslog_body.
  repeat (case_match;
          try (intros Hin; by (apply Hraise in Hin || apply Hline in Hin))).
  all: intros Hin; apply Hchk in Hin as (p & -> & Hin); eexists _, p;
    by apply syslog_send_refused.
Qed.

(** [C9] A TCP syslog run whose connect fails yields the error line and the
    closing line and nothing else: no LOG line, nothing sent, no child
    process started, and the socket closed at the end. *)
Theorem tcp_connect_failure e st r w err :
  destination r = L "syslog" ->
  SocketOpen SOCK_STREAM ∈ generate_and_stream e st r w ->
  connect_error w = Some err ->
  let evs := generate_and_stream e st r w in
  (exists line, evs = [SocketOpen SOCK_STREAM; Yield line;
                       Yield (L "INFO: Log generation complete." ++ [nl]);
                       SocketClose]
                /\ L "ERROR: " `prefix_of` line)
  /\ (forall line, Yield line ∈ evs -> ~ L "LOG: " `prefix_of` line)
  /\ (forall data, SocketSend data ∉ evs)
  /\ (forall command env, Popen command env ∉ evs)
  /\ (Terminate ∉ evs) /\ (Wait ∉ evs)
  /\ last evs = Some SocketClose.
Proof.
  intros Hd Hopen Hc evs. subst evs. revert Hopen.
  unfold generate_and_stream. rewrite bool_decide_eq_true_2 by done.
  intros Hopen. apply finish_open in Hopen.
  destruct (syslog_body_refused _ _ _ _ Hopen Hc) as (ip & port & ->).
  unfold finish, ret. cbn [app].
  split_and!.
  - eexists. split; [reflexivity |]. by eexists.
  - intros line. rewrite !elem_of_cons, elem_of_nil.
    intros [H | [H | [H | [H | []]]]]; try discriminate.
    + injection H as ->. intros [k Hk]. discriminate.
    + injection H as ->. intros [k Hk]. discriminate.
  - intros data. rewrite !not_elem_of_cons. split_and!; try done. apply not_elem_of_nil.
  - intros c env. rewrite !not_elem_of_cons. split_and!; try done. apply not_elem_of_nil.
  - rewrite !not_elem_of_cons. split_and!; try done. apply not_elem_of_nil.
  - rewrite !not_elem_of_cons. split_and!; try done. apply not_elem_of_nil.
  - reflexivity.
Qed.

(** Three lines for 10.0.0.5:514 over TCP, connection refused. *)
Lemma tcp_connect_failure_witness :
  let evs := generate_and_stream working empty_registry tcp_request refusing in
  (exists line, evs = [SocketOpen SOCK_STREAM; Yield line;
                       Yield (L "INFO: Log generation complete." ++ [nl]);
                       SocketClose]
                /\ L "ERROR: " `prefix_of` line)
  /\ (forall line, Yield line ∈ evs -> ~ L "LOG: " `prefix_of` line)
  /\ (forall data, SocketSend data ∉ evs)
  /\ (forall command env, Popen command env ∉ evs)
  /\ (Terminate ∉ evs) /\ (Wait ∉ evs)
  /\ last evs = Some SocketClose.
Proof.
  apply (tcp_connect_failure working empty_registry tcp_request refusing
           (L "Connection refused")).
  - reflexivity.
  - vm_compute. apply list_elem_of_here.
  - reflexivity.
Defined.

(** *** Sanitized output *)

Lemma existsb_eqc c t : existsb (eqc c) t = false -> c ∉ t.
Proof.
  induction t as [|x t IH]; simpl; [intros _; apply not_elem_of_nil |].
  rewrite orb_false_iff. intros [H1 H2]. apply not_elem_of_cons. split; [| by apply IH].
  intros ->. by rewrite eqc_refl in H1.
Qed.


(** What [clear_of] gives: the shape of the placeholder and the three
    facts about [t]. *)
Lemma clear_of_spec ph t :
  clear_of ph t = true ->
  t <> []
  /\ ~ occurs t ph
  /\ (exists a rest, ph = a :: rest /\ a ∉ t)
  /\ (exists front b, ph = front ++ [b] /\ b ∉ t).
Proof.
  unfold clear_of. destruct ph as [|a rest]; [done |].
  rewrite !andb_true_iff, !negb_true_iff. intros [[H1 H2] H3].
  assert (~ occurs t (a :: rest)) as Hn.
  { intros H. apply contains_occurs in H. congruence. }
  split_and!.
  - intros ->. apply Hn. exists [], (a :: rest). done.
  - done.
  - exists a, rest. split; [done | by apply existsb_eqc].
  - exists (removelast (a :: rest)), (List.last (a :: rest) a). split.
    + by apply app_removelast_last.
    + by apply existsb_eqc.
Qed.

(** An occurrence that begins inside a placeholder either stays inside it
    or runs over its last character. *)
Lemma occurs_past_placeholder t front b r :
  b ∉ t -> ~ occurs t (front ++ [b]) ->
  occurs t ((front ++ [b]) ++ r) -> occurs t r.
Proof.
  intros Hb Hn (p & q & H).
  apply app_eq_app in H as [k [[H1 H2] | [H1 H2]]].
  - (* the occurrence begins inside the placeholder *)
    symmetry in H2. apply app_eq_app in H2 as [k' [[H3 H4] | [H3 H4]]].
    + (* and ends inside it *)
      exfalso. apply Hn. exists p, k'. by rewrite H1, H3.
    + (* or runs over its end *)
      destruct k as [|x k].
      * rewrite app_nil_l in H3. subst k'. rewrite H4. by exists [], q.
      * exfalso. apply Hb. rewrite H3.
        assert (b ∈ x :: k) as Hin.
        { destruct (exists_last (l := x :: k)) as (k0 & y & Hk); [done |].
          rewrite Hk in H1 |- *. rewrite app_assoc in H1.
          apply app_inj_tail in H1 as [_ ->]. apply elem_of_app. right.
          apply list_elem_of_here. }
        apply elem_of_app. by left.
  - (* the occurrence begins after the placeholder *)
    exists k, q. done.
Qed.

Lemma replace_go_prefix fuel old a rest t s :
  a ∉ t ->
  t `prefix_of` replace_go fuel old (a :: rest) s -> t `prefix_of` s.
Proof.
  intros Ha. revert t s Ha. induction fuel as [|fuel IH]; intros t s Ha; simpl; [done |].
  destruct s as [|c s]; [done |].
  destruct (startswith old (c :: s)).
  - destruct t as [|x t]; [intros _; apply prefix_nil |].
    intros H. apply prefix_cons_inv_1 in H. subst x.
    exfalso. apply Ha. apply list_elem_of_here.
  - destruct t as [|x t]; [intros _; apply prefix_nil |].
    intros H. pose proof (prefix_cons_inv_1 _ _ _ _ H) as ->.
    apply prefix_cons. apply IH.
    + intros Hin. apply Ha. by apply list_elem_of_further.
    + by apply prefix_cons_inv_2 in H.
Qed.

Lemma occurs_drop t n s : occurs t (drop n s) -> occurs t s.
Proof.
  intros H. rewrite <-(take_drop n s). by apply occurs_app_l.
Qed.

(** Replacing [old] by a placeholder brings no new occurrence of a text
    that is clear of the placeholder. *)
Lemma replace_go_occurs fuel old new t s :
  clear_of new t = true ->
  occurs t (replace_go fuel old new s) -> occurs t s.
Proof.
  intros Hc. destruct (clear_of_spec _ _ Hc)
    as (Ht & Hn & (a & rest & Hnew & Ha) & (front & b & Hlast & Hb)).
  revert s. induction fuel as [|fuel IH]; intros s; simpl; [done |].
  destruct s as [|c s]; [done |].
  destruct (startswith old (c :: s)).
  - intros H. rewrite Hlast in H, Hn. apply occurs_past_placeholder in H; [| done | done].
    rewrite <-Hlast in H. apply IH in H. by apply occurs_drop in H.
  - intros H. apply occurs_cons in H as [H | H].
    + apply occurs_prefix. destruct t as [|x t]; [done |].
      pose proof (prefix_cons_inv_1 _ _ _ _ H) as ->.
      apply prefix_cons. apply prefix_cons_inv_2 in H. rewrite Hnew in H.
      apply replace_go_prefix in H; [done |].
      intros Hin. apply Ha. by apply list_elem_of_further.
    + apply occurs_cons. right. by apply IH.
Qed.

(** After the replacement, [old] is gone, when it is clear of the
    placeholder. *)
Lemma replace_go_clean fuel old new s :
  clear_of new old = true -> length s <= fuel ->
  ~ occurs old (replace_go fuel old new s).
Proof.
  intros Hc. destruct (clear_of_spec _ _ Hc)
    as (Ht & Hn & (a & rest & Hnew & Ha) & (front & b & Hlast & Hb)).
  revert s. induction fuel as [|fuel IH]; intros s Hlen; simpl.
  - destruct s; [| simpl in Hlen; lia]. intros H. by apply occurs_nil in H.
  - destruct s as [|c s]; [intros H; by apply occurs_nil in H |].
    destruct (startswith old (c :: s)) eqn:E.
    + intros H. rewrite Hlast in H, Hn.
      apply occurs_past_placeholder in H; [| done | done].
      rewrite <-Hlast in H. revert H. apply IH.
      rewrite length_drop. simpl in *. destruct old; [done |]. simpl. lia.
    + intros H. apply occurs_cons in H as [H | H].
      * destruct old as [|x old]; [done |].
        pose proof (prefix_cons_inv_1 _ _ _ _ H) as ->.
        apply prefix_cons_inv_2 in H. rewrite Hnew in H.
        apply replace_go_prefix in H.
        -- assert (startswith (c :: old) (c :: s) = true) as E'.
           { apply startswith_prefix. by apply prefix_cons. }
           congruence.
        -- intros Hin. apply Ha. by apply list_elem_of_further.
      * revert H. apply IH. simpl in Hlen. lia.
Qed.

Lemma replace_clean old new s :
  clear_of new old = true -> ~ occurs old (replace old new s).
Proof.
  intros Hc. unfold replace. destruct old as [|x old].
  - by destruct (clear_of_spec _ _ Hc) as [Ht _].
  - by apply replace_go_clean.
Qed.

Lemma replace_occurs old new t s :
  clear_of new t = true -> occurs t (replace old new s) -> occurs t s.
Proof.
  intros Hc. unfold replace. destruct old as [|x old].
  2: { by apply replace_go_occurs. }
  destruct (clear_of_spec _ _ Hc)
    as (Ht & Hn & (a & rest & Hnew & Ha) & (front & b & Hlast & Hb)).
  induction s as [|c s IH]; simpl.
  - rewrite app_nil_r. done.
  - intros H. rewrite Hlast in H, Hn. apply occurs_past_placeholder in H; [| done | done].
    rewrite <-Hlast in H. apply occurs_cons in H as [H | H].
    + destruct t as [|y t]; [done |].
      pose proof (prefix_cons_inv_1 _ _ _ _ H) as ->. apply prefix_cons_inv_2 in H.
      destruct t as [|z t].
      * exists [], s. done.
      * exfalso. rewrite Hnew in H. simpl in H. apply prefix_cons_inv_1 in H. subst z.
        apply Ha. apply list_elem_of_further, list_elem_of_here.
    + apply occurs_cons. right. by apply IH.
Qed.



Lemma sanitize_clean tok url nurl secret line :
  secret ∈ [tok; url; nurl] ->
  clear_of (L "***") secret = true ->
  clear_of (L "<hec_url>") secret = true ->
  ~ occurs secret (sanitize tok url nurl line).
Proof.
  intros Hin Hs Hp. unfold sanitize.
  apply elem_of_cons in Hin as [-> | Hin].
  { intros H. apply replace_occurs in H; [| done].
    apply replace_occurs in H; [| done]. by apply replace_clean in H. }
  apply elem_of_cons in Hin as [-> | Hin].
  { intros H. apply replace_occurs in H; [| done]. by apply replace_clean in H. }
  apply elem_of_cons in Hin as [-> | Hin]; [| by apply elem_of_nil in Hin].
  by apply replace_clean.
Qed.

Lemma occurs_sep t c a b :
  c ∉ t -> occurs t (a ++ c :: b) -> occurs t a \/ occurs t b.
Proof.
  intros Hc (p & q & H).
  apply app_eq_app in H as [k [[H1 H2] | [H1 H2]]].
  - symmetry in H2. apply app_eq_app in H2 as [k' [[H3 H4] | [H3 H4]]].
    + left. exists p, k'. by rewrite H1, H3.
    + destruct k' as [|x k'].
      * left. rewrite app_nil_r in H3. subst k. exists p, []. by rewrite app_nil_r.
      * exfalso. apply Hc. injection H4 as -> _. rewrite H3.
        apply elem_of_app. right. apply list_elem_of_here.
  - right. destruct k as [|x k].
    + simpl in H2. destruct t as [|y t].
      * exists [], b. done.
      * exfalso. apply Hc. injection H2 as -> _. apply list_elem_of_here.
    + injection H2 as _ ->. by exists k, q.
Qed.

Lemma distinctive_spec t :
  distinctive t = true ->
  (nl ∉ t)
  /\ Forall (fun f => ~ occurs t f) status_texts
  /\ clear_of (L "***") t = true /\ clear_of (L "<hec_url>") t = true.
Proof.
  unfold distinctive. rewrite !andb_true_iff, negb_true_iff.
  intros [[[H1 H2] H3] H4]. split_and!; try done.
  - by apply existsb_eqc.
  - rewrite forallb_forall in H2. apply Forall_forall. intros f Hf Ho.
    apply list_elem_of_In in Hf. apply H2 in Hf. apply contains_occurs in Ho.
    rewrite Ho in Hf. done.
Qed.

Lemma status_line_clean t f :
  distinctive t = true -> f ∈ status_texts -> ~ occurs t (f ++ [nl]).
Proof.
  intros (Hnl & Hst & _)%distinctive_spec Hf H.
  rewrite Forall_forall in Hst. apply occurs_sep in H as [H | H]; [| | done].
  - by apply (Hst f).
  - apply occurs_nil in H. subst t.
    apply (Hst f Hf). exists [], f. done.
Qed.

Lemma forward_sanitized_lines tok url nurl lines ev :
  ev ∈ forward_sanitized tok url nurl lines ->
  exists l, ev = Yield (sanitize tok url nurl l).
Proof.
  induction lines as [|l lines IH]; simpl; [intros H; by apply elem_of_nil in H |].
  destruct l as [|c l]; [intros H; by apply elem_of_nil in H |].
  intros [-> | H]%elem_of_cons; [by eexists | by apply IH].
Qed.

(** [C1, amended] In a HEC run of [generate_logs] that starts the sender,
    no line yielded to the caller contains the token, the stored url or the
    normalized url, when that value is distinctive. This covers the lines
    read from the sender's standard output, the block read from its
    standard error, and the status lines around them. *)
Theorem hec_stream_sanitized e st r w product chosen url tok secret line :
  destination r = L "hec" ->
  product_id r = VStr product -> product <> [] ->
  choose_hec st r = Some chosen ->
  hec_credentials e st chosen = inr (VStr url, tok) ->
  popen_error w = None ->
  secret ∈ [tok; url; _normalize_hec_url url] ->
  distinctive secret = true ->
  Yield line ∈ generate_and_stream e st r w ->
  ~ occurs secret line.
Proof.
  intros Hd Hprod Hp%truthy_VStr Hch Hcr Hpo Hsec Hdis.
  rewrite <-Hprod in Hp.
  pose proof (distinctive_spec _ Hdis) as (Hnl & Hst & Hs1 & Hs2).
  unfold generate_and_stream.
  rewrite (bool_decide_eq_false_2 (destination r = L "syslog"))
    by (rewrite Hd; done).
  rewrite bool_decide_eq_true_2 by done.
  unfold hec_body. rewrite Hp, Hch, Hcr. simpl negb. cbn iota.
  assert (forall f, f ∈ status_texts -> ~ occurs secret (f ++ [nl])) as Hfix.
  { intros f Hf. by apply status_line_clean. }
  assert (forall f x, f ∈ status_texts -> Yield x = Yield (f ++ [nl]) ->
                      ~ occurs secret x) as Hline.
  { intros f x Hf [= ->]. by apply Hfix. }
  destruct (sender_exists w); simpl negb; cbn iota.
  - unfold hec_send. rewrite Hprod, Hpo. unfold finish, ret.
    intros Hin. in_cases Hin.
    + apply (Hline (L "INFO: Starting HEC send...")); [in_list | exact Hin].
    + apply forward_sanitized_lines in Hin as (l & [= ->]).
      by apply sanitize_clean.
    + unfold sender_errors in Hin. destruct (child_stderr w) as [|c errs] eqn:E;
        [by apply elem_of_nil in Hin |].
      in_cases Hin. injection Hin as ->.
      intros H.
      apply (occurs_sep _ _ (L "ERROR: HEC sender errors:")) in H as [H | H];
        [| | done].
      * rewrite Forall_forall in Hst.
        apply (Hst (L "ERROR: HEC sender errors:")); [in_list | done].
      * apply occurs_sep in H as [H | H]; [| | done].
        -- by apply sanitize_clean in H.
        -- apply occurs_nil in H. subst secret.
           by destruct (clear_of_spec _ _ Hs1) as [? _].
    + apply (Hline (L "INFO: Log generation complete.")); [in_list | exact Hin].
  - unfold finish, ret. intros Hin. in_cases Hin.
    + apply (Hline (L "INFO: Starting HEC send...")); [in_list | exact Hin].
    + apply (Hline (L "ERROR: HEC sender not found.")); [in_list | exact Hin].
    + apply (Hline (L "INFO: Log generation complete.")); [in_list | exact Hin].
Qed.


(** A sender that prints the url and the token: both are replaced. *)
Lemma hec_stream_sanitized_witness :
  ~ occurs (L "s3cr3t-Tok") (L "POST <hec_url> token=***" ++ [nl]).
Proof.
  apply (hec_stream_sanitized working (hec_registry "s3cr3t-Tok") hec_request
           (printing [L "POST https://example.com/services/collector token=s3cr3t-Tok"
                      ++ [nl]] (L "401 for s3cr3t-Tok"))
           (L "okta_authentication")
           (<["id" := VStr (L "hec:1")]> (<["type" := VStr (L "hec")]>
              (<["name" := VStr (L "prod")]>
                 {["url" := VStr (L "https://example.com/services/collector")]})))
           (L "https://example.com/services/collector") (L "s3cr3t-Tok")
           (L "s3cr3t-Tok")).
  - reflexivity.
  - reflexivity.
  - vm_compute. discriminate.
  - vm_compute. reflexivity.
  - vm_compute. reflexivity.
  - reflexivity.
  - apply list_elem_of_here.
  - vm_compute. reflexivity.
  - vm_compute. in_list.
Defined.

(** [C1] The claim fails twice. In [generate_logs] a token that is a piece
    of a placeholder survives the replacement: with the token [*], the
    sender's line [token=*] is yielded as [token=***]. And [run_scenario]
    forwards what the scenario script prints as it is: a line with the
    token in it reaches the caller unchanged. *)
Lemma yielded_line_shows_token :
  (get_password (hec_registry "*") (VStr (L "hec:1")) = Some (L "*")
   /\ Yield (L "token=***" ++ [nl])
        ∈ generate_and_stream working (hec_registry "*") hec_request
            (printing [L "token=*" ++ [nl]] [])
   /\ occurs (L "*") (L "token=***" ++ [nl]))
  /\ (get_password (hec_registry "s3cr3t-Tok") (VStr (L "hec:1"))
        = Some (L "s3cr3t-Tok")
      /\ exists evs,
           run_scenario working (hec_registry "s3cr3t-Tok") scenario_request
             (printing [L "token=s3cr3t-Tok" ++ [nl]] []) = inr evs
           /\ Yield (L "token=s3cr3t-Tok" ++ [nl]) ∈ evs
           /\ occurs (L "s3cr3t-Tok") (L "token=s3cr3t-Tok" ++ [nl])).
Proof.
  split; split_and!.
  - vm_compute. reflexivity.
  - vm_compute. in_list.
  - exists (L "token="), (L "**" ++ [nl]). reflexivity.
  - vm_compute. reflexivity.
  - eexists. split_and!.
    + vm_compute. reflexivity.
    + in_list.
    + exists (L "token="), [nl]. reflexivity.
Qed.

End DeliveryFacts.

(** ** Regular expressions *)

Section RegexFacts.

Context {R : Type}.

(** A greedy run of one character set, followed by something that cannot
    start with a character of the set, takes the whole run: giving
    characters back never helps. *)
Lemma star_loop_chr (p : ascii -> bool) (k : str -> option R) n s :
  (forall c s', p c = true -> k (c :: s') = None) ->
  length s <= n ->
  star_loop (exec (Chr p)) k n s = k (lstrip p s).
Proof.
  intros Hk. revert s. induction n as [|n IH]; intros s Hn.
  - destruct s; [done | simpl in Hn; lia].
  - destruct s as [|c s]; [done |]. cbn [star_loop exec lstrip].
    destruct (p c) eqn:Hc; [| done].
    rewrite (proj2 (Nat.ltb_lt _ _)) by (simpl; lia).
    rewrite IH by (simpl in Hn; lia).
    destruct (k (lstrip p s)) eqn:E; [done |].
    by apply Hk.
Qed.

Lemma exec_star_chr (p : ascii -> bool) (k : str -> option R) s :
  (forall c s', p c = true -> k (c :: s') = None) ->
  exec (Star (Chr p)) s k = k (lstrip p s).
Proof. intros Hk. by apply star_loop_chr. Qed.


End RegexFacts.

(** ** Format detection and cleaning *)

Section VibelogFacts.

Lemma lstrip_nb_head s c rest : lstrip nb s = c :: rest -> is_brace c = true.
Proof.
  induction s as [|x s IH]; simpl; [done |].
  unfold nb at 1. destruct (is_brace x) eqn:E; simpl; [by intros [= <- _] | done].
Qed.

Lemma lstrip_length p s : length (lstrip p s) <= length s.
Proof. induction s as [|x s IH]; simpl; [done |]. destruct (p x); simpl; lia. Qed.

Lemma is_brace_cases c :
  is_brace c = true -> c = "{"%char \/ c = "}"%char.
Proof.
  unfold is_brace. rewrite orb_true_iff, !eqc_true. naive_solver.
Qed.

(** The first pattern, run: an opening brace, then the next brace must
    close it. *)
Lemma exec_json_pattern s :
  exec json_pattern s Some
  = match s with
    | c :: s1 =>
        if eqc "{" c then
          match lstrip nb s1 with
          | d :: rest => if eqc "}" d then Some rest else None
          | [] => None
          end
        else None
    | [] => None
    end.
Proof.
  unfold json_pattern, seq, chr, not_brace. cbn [exec].
  destruct s as [|c s1]; [done |]. destruct (eqc "{" c); [| done].
  change (star_loop _ _ _ _)
    with (exec (Star (Chr nb)) s1
            (fun s2 => exec (Chr (eqc "}")) s2 (@Some str))).
  rewrite exec_star_chr; [done |].
  intros x s' Hx. cbn [exec]. destruct (eqc "}" x) eqn:E; [| done].
  apply eqc_true in E. subst x. done.
Qed.

Lemma closes_lstrip s : closes s = closes (lstrip nb s).
Proof.
  induction s as [|c s IH]; [done |]. cbn [closes lstrip]. unfold nb at 1, is_brace.
  destruct (eqc c "{") eqn:E1, (eqc c "}") eqn:E2; cbn [orb negb closes];
    rewrite ?E1, ?E2; done.
Qed.

Lemma brace_groups_lstrip s : brace_groups s = brace_groups (lstrip nb s).
Proof.
  induction s as [|c s IH]; [done |]. cbn [brace_groups lstrip].
  unfold nb at 1, is_brace.
  destruct (eqc c "{") eqn:E1, (eqc c "}") eqn:E2;
    cbn [orb negb andb brace_groups]; rewrite ?E1, ?E2; done.
Qed.

Lemma findall_go_json_pattern fuel s :
  length s < fuel ->
  length (findall_go fuel json_pattern s) = brace_groups s.
Proof.
  revert s. induction fuel as [|fuel IH]; intros s Hf; [lia |].
  cbn [findall_go]. rewrite exec_json_pattern.
  destruct s as [|c s1]; [done |].
  cbn [brace_groups]. rewrite (Ascii.eqb_sym c "{" : eqc c "{" = eqc "{" c).
  destruct (eqc "{" c) eqn:Ec.
  2: { simpl. apply IH. simpl in Hf. lia. }
  rewrite closes_lstrip, (brace_groups_lstrip s1).
  pose proof (lstrip_length nb s1) as Hl.
  destruct (lstrip nb s1) as [|d rest] eqn:El.
  { cbn [closes brace_groups]. rewrite andb_false_r. cbn [Nat.add].
    rewrite IH by (simpl in Hf; lia). by rewrite brace_groups_lstrip, El. }
  cbn [closes brace_groups]. rewrite (Ascii.eqb_sym d "}" : eqc d "}" = eqc "}" d).
  destruct (eqc "}" d) eqn:Ed.
  - simpl in Hl. replace (length (c :: s1) - length rest) with (S (length s1 - length rest))
      by (simpl; lia).
    cbn [take length]. rewrite IH by (simpl in Hf; lia).
    apply eqc_true in Ed as <-. done.
  - assert (d = "{"%char) as ->.
    { apply lstrip_nb_head in El. apply is_brace_cases in El as [-> | ->]; [done |].
      by rewrite eqc_refl in Ed. }
    rewrite IH by (simpl in Hf; lia). by rewrite (brace_groups_lstrip s1), El.
Qed.

(** The first brace of [s] closes: [s] is text without braces, a closing
    brace, and the rest. *)
Lemma closes_spec s :
  closes s = true <->
  exists w q, s = w ++ "}"%char :: q /\ Forall (fun c => is_brace c = false) w.
Proof.
  induction s as [|c s IH]; simpl.
  - split; [done |]. intros (w & q & H & _). by destruct w.
  - destruct (eqc c "}") eqn:E2.
    + split; [| done]. intros _. apply eqc_true in E2 as ->. by exists [], s.
    + destruct (eqc c "{") eqn:E1.
      * split; [done |]. intros (w & q & H & Hw).
        destruct w as [|x w]; simplify_eq/=.
        apply Forall_cons_1 in Hw as [Hx _]. unfold is_brace in Hx.
        by rewrite E1 in Hx.
      * rewrite IH. split.
        -- intros (w & q & -> & Hw). exists (c :: w), q. split; [done |].
           constructor; [| done]. unfold is_brace. by rewrite E1, E2.
        -- intros (w & q & H & Hw). destruct w as [|x w]; simplify_eq/=.
           apply Forall_cons_1 in Hw as [_ Hw]. by exists w, q.
Qed.

(** [C6] [detect_log_format] answers JSON exactly when the text has more
    than two brace-delimited substrings without a brace inside, and RAW
    otherwise; there is no third answer. *)
Theorem detect_log_format_counts output :
  (detect_log_format output = JSON <-> 2 < brace_groups output)
  /\ (detect_log_format output = RAW <-> brace_groups output <= 2)
  /\ (detect_log_format output = JSON \/ detect_log_format output = RAW).
Proof.
  unfold detect_log_format, findall.
  rewrite findall_go_json_pattern by lia.
  destruct (2 <? brace_groups output) eqn:E.
  - apply Nat.ltb_lt in E. split_and!; [done | | by left].
    split; [done | lia].
  - apply Nat.ltb_ge in E. split_and!; [| done | by right].
    split; [done | lia].
Qed.

Lemma should_skip_existsb patterns line :
  should_skip patterns line
  = existsb (fun pattern => re_match pattern (strip line)) patterns.
Proof.
  induction patterns as [|p ps IH]; simpl; [done |].
  by destruct (re_match p (strip line)).
Qed.

Lemma blank_line_skipped line :
  strip line = [] -> should_skip skip_patterns line = true.
Proof. intros H. rewrite should_skip_existsb, H. vm_compute. reflexivity. Qed.

Lemma fold_left_keep {A} (keep : A -> bool) (l acc : list A) :
  fold_left (fun cleaned x => if keep x then cleaned ++ [x] else cleaned) l acc
  = acc ++ filter (fun x => keep x = true) l.
Proof.
  revert acc. induction l as [|x l IH]; intros acc; simpl.
  - by rewrite app_nil_r.
  - rewrite IH, filter_cons. destruct (keep x); simpl.
    + by rewrite <-app_assoc.
    + done.
Qed.

(** [C8] [clean_raw_logs] keeps, in their order and as they are, the lines
    that match no skip pattern once stripped, and drops the others; the
    test for a blank line adds nothing, since the last pattern matches the
    empty text. On the sample of the specification the result is the two
    content lines. *)
Theorem clean_raw_logs_filters output product_name :
  clean_raw_logs output product_name
  = join [nl]
      (filter (fun line =>
                 existsb (fun pattern => re_match pattern (strip line))
                   skip_patterns = false)
         (split_on nl output))
  /\ clean_raw_logs
       (L "=== Sample Events ===" ++ [nl] ++ L "Event 1:" ++ [nl]
        ++ L "foo=bar" ++ [nl] ++ [nl] ++ L "Event 2:" ++ [nl] ++ L "baz=qux")
       product_name
     = L "foo=bar" ++ [nl] ++ L "baz=qux".
Proof.
  split; [| vm_compute; reflexivity].
  unfold clean_raw_logs. rewrite fold_left_keep, app_nil_l. f_equal.
  apply list_filter_iff. intros line.
  rewrite <-should_skip_existsb, andb_true_iff, !negb_true_iff. split; [by intros [? _] |].
  intros H. split; [done |]. apply bool_decide_eq_false. intros Hb.
  apply blank_line_skipped in Hb. congruence.
Qed.

(** What the separator patterns match: a non-empty run of the one
    character, up to a newline that ends the text. *)
Lemma separator_pattern c s :
  c <> nl ->
  re_match (seq [plus (chr c); Eos]) s = true <->
  exists n, s = replicate (S n) c \/ s = replicate (S n) c ++ [nl].
Proof.
  intros Hc. unfold re_match, seq, plus, chr. cbn [exec].
  assert (forall s1, (exists n, s1 = replicate n c \/ s1 = replicate n c ++ [nl])
            <-> (lstrip (eqc c) s1 = [] \/ lstrip (eqc c) s1 = [nl])) as Hrun.
  { intros s1. induction s1 as [|x s1 IH]; simpl.
    - split; [by left |]. intros _. exists 0. by left.
    - destruct (eqc c x) eqn:E.
      + apply eqc_true in E as <-. rewrite <-IH. split.
        * intros ([|n] & [H | H]); simplify_eq/=; try done;
            exists n; [by left | by right].
        * intros (n & [-> | ->]); exists (S n); [by left | by right].
      + split.
        * intros ([|n] & [H | H]); simplify_eq/=; try (by rewrite eqc_refl in E).
          by right.
        * intros [H | H]; simplify_eq/=. exists 0. by right. }
  destruct s as [|x s1].
  { split; [done |]. intros (n & [H | H]); simplify_eq/=. }
  destruct (eqc c x) eqn:E.
  2: { split; [done |]. intros (n & [H | H]); simplify_eq/=; by rewrite eqc_refl in E. }
  apply eqc_true in E as <-.
  change (star_loop _ _ _ _)
    with (exec (Star (Chr (eqc c))) s1
            (fun s2 => exec Eos s2 (fun _ : str => Some tt))).
  rewrite exec_star_chr.
  - transitivity (lstrip (eqc c) s1 = [] \/ lstrip (eqc c) s1 = [nl]).
    + cbn [exec]. destruct (lstrip (eqc c) s1) as [|y [|z t]] eqn:El.
      * split; [by left | done].
      * destruct (eqc y nl) eqn:Ey.
        -- apply eqc_true in Ey as ->. split; [by right | done].
        -- split; [done |].
           intros [H | H]; simplify_eq/=; try (by rewrite eqc_refl in Ey).
      * split; [done |]. intros [H | H]; simplify_eq/=.
    + rewrite <-Hrun. split.
      * intros (n & [-> | ->]); exists n; [by left | by right].
      * intros (n & [H | H]); simplify_eq/=; exists n; [by left | by right].
  - intros y s' Hy. apply eqc_true in Hy as <-. cbn [exec].
    destruct s'; [| done]. destruct (eqc c nl) eqn:E; [| done].
    apply eqc_true in E. done.
Qed.

(** *** Cleaning JSON *)

Lemma scan_lstrip inner s : scan inner s = scan inner (lstrip nb s).
Proof.
  induction s as [|c s IH]; [done |]. cbn [scan lstrip]. unfold nb at 1, is_brace.
  destruct (eqc c "{") eqn:E1, (eqc c "}") eqn:E2; cbn [orb negb scan];
    rewrite ?E1, ?E2; done.
Qed.

Lemma lstrip_idemp p s : lstrip p (lstrip p s) = lstrip p s.
Proof.
  induction s as [|c s IH]; [done |]. simpl. destruct (p c) eqn:E; [done |].
  simpl. by rewrite E.
Qed.

Lemma inner_pairs_text n c s :
  nb c = true ->
  forall k : str -> option str,
    (forall s', k (c :: s') = None) ->
    star_loop (exec inner_pair) k n (c :: s) = None.
Proof.
  intros Hc k Hk. unfold nb, is_brace in Hc.
  apply negb_true_iff, orb_false_iff in Hc as [H1 H2].
  destruct n as [|n]; cbn [star_loop]; [apply Hk |].
  unfold inner_pair, seq, chr. cbn [exec].
  rewrite (Ascii.eqb_sym "{" c : eqc "{" c = eqc c "{"), H1. apply Hk.
Qed.

Lemma close_brace_text c s : nb c = true -> close_brace (c :: s) = None.
Proof.
  unfold nb, is_brace, close_brace, chr. intros H.
  apply negb_true_iff, orb_false_iff in H as [H1 H2]. cbn [exec].
  by rewrite (Ascii.eqb_sym "}" c : eqc "}" c = eqc c "}"), H2.
Qed.

(** The inner pairs and the closing brace of the second pattern, run on a
    text that starts at a brace. *)
Lemma inner_pairs_scan n u :
  length u <= n -> lstrip nb u = u ->
  star_loop (exec inner_pair) close_brace n u = scan false u.
Proof.
  revert u. induction n as [|n IH]; intros u Hn Hu.
  { destruct u; [done | simpl in Hn; lia]. }
  destruct u as [|c u1]; [done |].
  assert (is_brace c = true) as Hc by (by eapply lstrip_nb_head).
  cbn [star_loop]. unfold inner_pair at 1, seq, chr. cbn [exec].
  apply is_brace_cases in Hc as [-> | ->].
  2: { done. }
  rewrite eqc_refl.
  change (star_loop (exec not_brace) ?k (length u1) u1)
    with (exec (Star (Chr nb)) u1 k).
  rewrite exec_star_chr.
  2: { intros x s' Hx. unfold nb, is_brace in Hx.
       apply negb_true_iff, orb_false_iff in Hx as [H1 H2].
       by rewrite (Ascii.eqb_sym "}" x : eqc "}" x = eqc x "}"), H2. }
  cbn [scan]. replace (eqc "{" "}") with false by done. rewrite eqc_refl.
  rewrite (scan_lstrip true u1).
  pose proof (lstrip_length nb u1) as Hl1.
  destruct (lstrip nb u1) as [|d t2] eqn:E1; [done |].
  assert (is_brace d = true) as Hd by (by eapply lstrip_nb_head).
  apply is_brace_cases in Hd as [-> | ->]; [done |].
  rewrite eqc_refl. cbn [scan]. rewrite eqc_refl.
  change (star_loop (exec not_brace) ?k (length t2) t2)
    with (exec (Star (Chr nb)) t2 k).
  rewrite exec_star_chr.
  2: { intros x s' Hx. destruct (_ <? _); [| done].
       apply inner_pairs_text; [done |]. intros s''. by apply close_brace_text. }
  pose proof (lstrip_length nb t2) as Hl2. simpl in Hl1, Hn.
  rewrite (proj2 (Nat.ltb_lt _ _)) by (simpl; lia).
  fold inner_pair. rewrite IH by (rewrite ?lstrip_idemp; done || lia).
  rewrite <-scan_lstrip. by destruct (scan false t2).
Qed.

(** The second pattern, run: it matches from an opening brace to the brace
    that closes it, with inner pairs one level deep. *)
Lemma exec_json_object_pattern s :
  exec json_object_pattern s Some = object_end s.
Proof.
  unfold json_object_pattern, object_end. cbn [seq exec]. unfold chr at 1. cbn [exec].
  destruct s as [|c s1]; [done |].
  rewrite (Ascii.eqb_sym "{" c : eqc "{" c = eqc c "{").
  destruct (eqc c "{"); [| done].
  change (star_loop (exec not_brace) ?k (length s1) s1)
    with (exec (Star (Chr nb)) s1 k).
  rewrite exec_star_chr.
  - fold inner_pair. fold close_brace.
    rewrite inner_pairs_scan; [by rewrite <-scan_lstrip | done | apply lstrip_idemp].
  - intros x s' Hx. fold inner_pair. fold close_brace.
    apply inner_pairs_text; [done |]. intros s''. by apply close_brace_text.
Qed.

Lemma scan_app inner s x rest :
  scan inner s = Some x -> scan inner (s ++ rest) = Some (x ++ rest).
Proof.
  revert inner. induction s as [|c s IH]; intros inner; [done |]. simpl.
  destruct (eqc c "}"); [destruct inner; [apply IH | by intros [= <-]] |].
  destruct (eqc c "{"); [destruct inner; [done | apply IH] |]. apply IH.
Qed.

Lemma object_end_app r rest :
  object_end r = Some [] -> object_end (r ++ rest) = Some rest.
Proof.
  destruct r as [|c r]; [done |]. simpl. destruct (eqc c "{"); [| done].
  intros H. by rewrite (scan_app _ _ _ rest H).
Qed.

Lemma findall_go_nil fuel r : exec r [] Some = None -> findall_go fuel r [] = [].
Proof. intros H. destruct fuel; [done |]. simpl. by rewrite H. Qed.

(** Records that the pattern matches whole, written one per line, are
    found again one by one. *)
Lemma findall_go_records fuel records :
  Forall (fun r => object_end r = Some []) records ->
  length (join [nl] records) < fuel ->
  findall_go fuel json_object_pattern (join [nl] records) = records.
Proof.
  intros Hr. revert fuel. induction Hr as [|r records Hw Hr IH]; intros fuel Hf.
  { apply findall_go_nil. by rewrite exec_json_object_pattern. }
  assert (exists tail, join [nl] (r :: records) = r ++ tail
            /\ (tail = [] /\ records = []
                \/ tail = nl :: join [nl] records)) as (tail & Hj & Ht).
  { destruct records as [|r' records].
    - exists []. split; [by rewrite app_nil_r | by left].
    - exists (nl :: join [nl] (r' :: records)). split; [done | by right]. }
  rewrite Hj in Hf |- *. rewrite length_app in Hf.
  destruct fuel as [|fuel]; [lia |]. cbn [findall_go].
  rewrite exec_json_object_pattern, (object_end_app _ _ Hw).
  rewrite length_app, Nat.add_sub, take_app_length.
  destruct r as [|c r]; [done |]. cbn [app]. f_equal.
  destruct Ht as [[-> ->] | ->].
  - apply findall_go_nil. by rewrite exec_json_object_pattern.
  - destruct fuel as [|fuel]; [simpl in Hf; lia |]. cbn [findall_go].
    rewrite exec_json_object_pattern. cbn [object_end].
    replace (eqc nl "{") with false by done.
    apply IH. simpl in Hf. lia.
Qed.

Lemma mapM_stable (records : list str) :
  Forall (fun r => format_json r = Some r) records ->
  mapM format_json records = Some records.
Proof.
  intros H. apply mapM_Some. induction H; constructor; done.
Qed.

(** A text made of stable records, one per line, is a fixed point of
    [clean_json_logs]. *)
Lemma clean_json_logs_fixed records :
  Forall stable records ->
  clean_json_logs (join [nl] records) = Some (join [nl] records).
Proof.
  intros Hs. unfold clean_json_logs, findall. rewrite findall_go_records.
  - rewrite mapM_stable; [done |]. eapply Forall_impl; [exact Hs |]. by intros r [_ ?].
  - eapply Forall_impl; [exact Hs |]. intros r [H _].
    by rewrite exec_json_object_pattern in H.
  - lia.
Qed.

Lemma scan_split inner s rest :
  scan inner s = Some rest ->
  exists m, s = m ++ rest /\ scan inner m = Some [].
Proof.
  revert inner. induction s as [|c s IH]; intros inner; [done |]. simpl.
  destruct (eqc c "}") eqn:E1.
  - destruct inner.
    + intros (m & -> & Hm)%IH. exists (c :: m). simpl. by rewrite E1.
    + intros [= ->]. exists [c]. simpl. by rewrite E1.
  - destruct (eqc c "{") eqn:E2.
    + destruct inner; [done |].
      intros (m & -> & Hm)%IH. exists (c :: m). simpl. by rewrite E1, E2.
    + intros (m & -> & Hm)%IH. exists (c :: m). simpl. by rewrite E1, E2.
Qed.

Lemma object_end_split s rest :
  object_end s = Some rest ->
  exists c m, s = (c :: m) ++ rest /\ object_end (c :: m) = Some [].
Proof.
  destruct s as [|c s]; [done |]. simpl. destruct (eqc c "{") eqn:E; [| done].
  intros (m & -> & Hm)%scan_split. exists c, m. simpl. by rewrite E.
Qed.

(** What [findall] extracts with the second pattern is matched by it from
    the first to the last character. *)
Lemma findall_go_whole fuel s m :
  m ∈ findall_go fuel json_object_pattern s -> object_end m = Some [].
Proof.
  revert s. induction fuel as [|fuel IH]; intros s; [by intros H%elem_of_nil |].
  cbn [findall_go]. rewrite exec_json_object_pattern.
  destruct (object_end s) as [rest|] eqn:E.
  - apply object_end_split in E as (c & m0 & -> & Hw).
    rewrite length_app, Nat.add_sub, take_app_length. cbn [app].
    intros [-> | H]%elem_of_cons; [done | by eapply IH].
  - destruct s as [|c s]; [by intros H%elem_of_nil | apply IH].
Qed.

(** On a text whose records are already in their final form, cleaning
    twice is cleaning once. *)
Lemma clean_json_logs_normalized_input output :
  Forall (fun m => format_json m = Some m) (findall json_object_pattern output) ->
  clean_json_logs output = Some (join [nl] (findall json_object_pattern output))
  /\ clean_json_logs (join [nl] (findall json_object_pattern output))
     = Some (join [nl] (findall json_object_pattern output)).
Proof.
  intros Hn. split.
  - unfold clean_json_logs. by rewrite mapM_stable.
  - apply clean_json_logs_fixed. apply Forall_forall. intros m Hm. split.
    + rewrite exec_json_object_pattern. by eapply findall_go_whole.
    + rewrite Forall_forall in Hn. by apply Hn.
Qed.

(** [C7, amended] When every record of the cleaned text is stable, cleaning
    the cleaned text again changes nothing. *)
Theorem clean_json_logs_twice output records :
  mapM format_json (findall json_object_pattern output) = Some records ->
  Forall stable records ->
  clean_json_logs output = Some (join [nl] records)
  /\ clean_json_logs (join [nl] records) = Some (join [nl] records).
Proof.
  intros Hm Hs. split.
  - unfold clean_json_logs. by rewrite Hm.
  - by apply clean_json_logs_fixed.
Qed.

(** Two records, one that parses and one that does not, both stable. *)
Lemma clean_json_logs_twice_witness :
  let output :=
    L "event: {" ++ quoted "a" ++ L ": 1} and then {bad json}" in
  let records := [L "{" ++ quoted "a" ++ L ":1}"; L "{bad json}"] in
  clean_json_logs output = Some (join [nl] records)
  /\ clean_json_logs (join [nl] records) = Some (join [nl] records).
Proof.
  intros output records. apply (clean_json_logs_twice output records).
  - vm_compute. reflexivity.
  - repeat constructor; vm_compute; reflexivity.
Defined.

(** [C7] Cleaning is not idempotent. A line break inside a string makes the
    record invalid JSON, so the first pass only collapses its whitespace;
    that makes it valid, and the second pass writes it again without the
    space after the colon. *)
Lemma clean_json_logs_not_idempotent :
  let x := L "{" ++ quoted "msg" ++ L ": " ++ [dquote] ++ L "a" ++ [nl]
           ++ L "b" ++ [dquote] ++ L "}" in
  let y := L "{" ++ quoted "msg" ++ L ": " ++ quoted "a b" ++ L "}" in
  let z := L "{" ++ quoted "msg" ++ L ":" ++ quoted "a b" ++ L "}" in
  clean_json_logs x = Some y /\ clean_json_logs y = Some z /\ y <> z.
Proof. vm_compute. split_and!; [reflexivity | reflexivity | discriminate]. Qed.

End VibelogFacts.

(** ** Laws of the destination registry *)

Section RegistryLaws.

Lemma redact_fields d k : is_Some (redact d !! k) -> k ∈ listed_fields.
Proof.
  unfold redact, listed_fields. intros H.
  repeat case_match;
    repeat (apply lookup_insert_is_Some in H as [<- | [_ H]];
            [repeat first [apply list_elem_of_here | apply list_elem_of_further] |]);
    try (apply lookup_singleton_is_Some in H as <-;
      repeat first [apply list_elem_of_here | apply list_elem_of_further]).
Qed.

(** [X1] [list_destinations] answers with one descriptor per stored
    destination, in the order of the file. A descriptor never has a
    [token] field, even when the stored entry has one: its fields are
    among id, name, type, url, ip, port and protocol, and id, name and
    type are those of the stored entry. *)
Theorem list_destinations_redacts st :
  Forall2 (fun d shown =>
             shown !! "token"%string = None
             /\ (forall k, is_Some (shown !! k) -> k ∈ listed_fields)
             /\ get shown "id" = get d "id"
             /\ get shown "name" = get d "name"
             /\ get shown "type" = get d "type")
    (destinations_file st) (list_destinations st).
Proof.
  unfold list_destinations, _load_destinations.
  induction (destinations_file st) as [|d items IH]; simpl; constructor; [| exact IH].
  split_and!.
  - destruct (redact d !! "token"%string) eqn:E; [| done].
    assert (H : "token"%string ∈ listed_fields) by (apply (redact_fields d); by rewrite E).
    unfold listed_fields in H. 
    repeat (apply elem_of_cons in H as [H | H]; [discriminate H |]).
    by apply elem_of_nil in H.
  - apply redact_fields.
  - unfold redact, get. repeat case_match; by simplify_map_eq.
  - unfold redact, get. repeat case_match; by simplify_map_eq.
  - unfold redact, get. repeat case_match; by simplify_map_eq.
Qed.

Lemma delete_password_twice e st i :
  delete_password e (delete_password e st i) i = delete_password e st i.
Proof.
  unfold delete_password.
  destruct (HAS_KEYRING e && delete_password_ok e i) eqn:E; [| done].
  cbn [keyring destinations_file]. by rewrite delete_delete_eq.
Qed.

Lemma delete_password_file e st i :
  destinations_file (delete_password e st i) = destinations_file st.
Proof. unfold delete_password. by case_match. Qed.

Lemma delete_destination_eq e st dest_id :
  delete_destination e st dest_id
  = if save_ok e (remaining dest_id (destinations_file st))
    then (Empty 204,
          {| destinations_file := remaining dest_id (destinations_file st);
             keyring := keyring (delete_password e st dest_id) |})
    else (error 500 "Failed to delete destination",
          delete_password e st dest_id).
Proof.
  unfold delete_destination, _load_destinations, _save_destinations, remaining.
  by destruct (save_ok e _).
Qed.

Lemma remaining_twice dest_id items :
  remaining dest_id (remaining dest_id items) = remaining dest_id items.
Proof.
  unfold remaining. rewrite list_filter_filter. apply list_filter_iff. tauto.
Qed.

(** [X2] Deleting a destination twice, on a host that behaves the same
    way both times, gives the answer and the state of deleting it once. *)
Theorem delete_destination_idempotent e st dest_id :
  delete_destination e (snd (delete_destination e st dest_id)) dest_id
  = delete_destination e st dest_id.
Proof.
  rewrite (delete_destination_eq e st).
  destruct (save_ok e (remaining dest_id (destinations_file st))) eqn:Hs;
    cbn [snd]; rewrite delete_destination_eq.
  - cbn [destinations_file]. rewrite remaining_twice, Hs. do 2 f_equal.
    unfold delete_password.
    destruct (HAS_KEYRING e && delete_password_ok e dest_id);
      cbn [keyring]; [| done].
    by rewrite delete_delete_eq.
  - by rewrite delete_password_twice, delete_password_file, Hs.
Qed.

(** [X3] After a [delete_destination] answered with 204, the file holds
    the entries whose id is not the one given, in their order and as they
    were; the secrets of the other ids are untouched, and the secret of
    this id is gone when the keyring accepted the deletion. *)
Theorem delete_destination_removes e st dest_id st' :
  delete_destination e st dest_id = (Empty 204, st') ->
  (forall d, d ∈ destinations_file st' <->
             d ∈ destinations_file st /\ get d "id" <> VStr dest_id)
  /\ destinations_file st' `sublist_of` destinations_file st
  /\ (forall i, i <> dest_id -> keyring st' !! i = keyring st !! i)
  /\ (HAS_KEYRING e = true -> delete_password_ok e dest_id = true ->
      keyring st' !! dest_id = None).
Proof.
  rewrite delete_destination_eq.
  destruct (save_ok e _) eqn:Hs; [| discriminate].
  intros [= <-]. cbn [destinations_file keyring]. split_and!.
  - intros d. unfold remaining. rewrite list_elem_of_filter, negb_true_iff.
    split; intros [H1 H2]; (split; [try done | try done]).
    + intros Hid. rewrite Hid, py_eq_refl in H1. discriminate.
    + destruct (py_eq (get d "id") (VStr dest_id)) eqn:E; [| done].
      by apply py_eq_VStr in E.
  - apply sublist_filter.
  - intros i Hi. unfold delete_password. case_match; [| done].
    cbn. by rewrite lookup_delete_ne.
  - intros H1 H2. unfold delete_password. rewrite H1, H2. cbn.
    by rewrite lookup_delete_eq.
Qed.
Lemma delete_destination_removes_witness :
  let st := hec_registry "abc" in
  let st' := snd (delete_destination working st (L "hec:1")) in
  (forall d, d ∈ destinations_file st' <->
             d ∈ destinations_file st /\ get d "id" <> VStr (L "hec:1"))
  /\ destinations_file st' `sublist_of` destinations_file st
  /\ (forall i, i <> L "hec:1" -> keyring st' !! i = keyring st !! i)
  /\ (HAS_KEYRING working = true ->
      delete_password_ok working (L "hec:1") = true ->
      keyring st' !! L "hec:1" = None).
Proof.
  intros st st'.
  apply (delete_destination_removes working st (L "hec:1")).
  vm_compute. reflexivity.
Defined.

Lemma not_saved_error n msg : n <> 201 -> ~ saved (Json n msg).
Proof. intros Hn [[body [= ? ?]] | [=]]. done. Qed.

Lemma not_saved_error500 msg : ~ saved (error 500 msg).
Proof. by apply not_saved_error. Qed.

Lemma save_and_respond_cases e st items id name t base r st' :
  save_and_respond e st items id name t base = (r, st') ->
  keyring st' = keyring st
  /\ ((saved r /\ destinations_file st' = items /\ save_ok e items = true)
      \/ (r = error 500 "Failed to save destination" /\ st' = st
          /\ save_ok e items = false)).
Proof.
  unfold save_and_respond, _save_destinations.
  destruct (save_ok e items) eqn:Hs.
  - destruct base; intros [= <- <-]; (split; [done |]); left;
      (split; [| done]); [left; eauto | by right].
  - intros [= <- <-]. split; [done |]. by right.
Qed.

(** How an upsert ends. *)
Lemma upsert_cases e st name v r st' :
  truthy name = true ->
  upsert e st name v = (r, st') ->
  (saved r /\ destinations_file st' = written name v (destinations_file st)
   /\ save_ok e (written name v (destinations_file st)) = true
   \/ ~ saved r /\ destinations_file st' = destinations_file st)
  /\ (keyring st' = keyring st
        /\ (forall base token, v = Hec base token -> ~ saved r)
      \/ exists base i t,
           v = Hec base (VStr t)
           /\ target_id name v (destinations_file st) = VStr i /\ i <> []
           /\ HAS_KEYRING e = true /\ set_password_ok e i t = true
           /\ keyring st' = <[i := t]> (keyring st)
           /\ (saved r \/ r = error 500 "Failed to save destination")).
Proof.
  intros Hname. unfold upsert, _load_destinations, written, target_id.
  rewrite existing_entry_find by done.
  destruct (find_existing name (type_of v) (destinations_file st))
    as [[i d] |] eqn:Hfind; destruct v as [base token | ip port protocol];
    cbn [updated created type_of].
  - rewrite get_insert_ne by done.
    destruct (negb (HAS_KEYRING e) || negb (truthy (get d "id"))) eqn:Hk.
    { intros [= <- <-]. split; [right | left].
      - split; [apply not_saved_error500 | done].
      - split; [done |]. intros _ _ _. apply not_saved_error500. }
    apply orb_false_iff in Hk as [Hk Hid']. apply negb_false_iff in Hk.
    apply negb_false_iff in Hid'.
    destruct (set_password e st (get d "id") token) as [st1 |] eqn:Hset.
    2:{ intros [= <- <-]. split; [right | left].
        - split; [apply not_saved_error500 | done].
        - split; [done |]. intros _ _ _. apply not_saved_error500. }
    apply set_password_inv in Hset as (i' & t & Hid & -> & Hok & ->).
    rewrite get_delete_ne, get_insert_ne by done.
    intros H. apply save_and_respond_cases in H as [Hkr H].
    cbn [keyring destinations_file] in *. split.
    + destruct H as [(? & ? & ?) | (-> & -> & ?)]; [by left | right].
      split; [apply not_saved_error500 | done].
    + right. exists base, i', t. split_and!; try done.
      * intros ->. by rewrite Hid in Hid'.
      * destruct H as [(? & ? & ?) | (-> & -> & ?)]; [by left | by right].
  - destruct (py_int port) as [p |] eqn:Hp.
    2:{ intros [= <- <-]. split; [right | left]; [| done].
        split; [| done]. intros [[body [=]] | [=]]. }
    cbn [default].
    intros H. apply save_and_respond_cases in H as [Hkr H]. split; [| by left].
    destruct H as [(? & ? & ?) | (-> & -> & ?)]; [by left | right].
    split; [apply not_saved_error500 | done].
  - destruct (negb (HAS_KEYRING e)) eqn:Hk.
    { intros [= <- <-]. split; [right | left].
      - split; [apply not_saved_error500 | done].
      - split; [done |]. intros _ _ _. apply not_saved_error500. }
    apply negb_false_iff in Hk.
    destruct (set_password e st _ token) as [st1 |] eqn:Hset.
    2:{ intros [= <- <-]. split; [right | left].
        - split; [apply not_saved_error500 | done].
        - split; [done |]. intros _ _ _. apply not_saved_error500. }
    apply set_password_inv in Hset as (i' & t & Hid & -> & Hok & ->).
    intros H. apply save_and_respond_cases in H as [Hkr H].
    cbn [keyring destinations_file] in *. split.
    + destruct H as [(? & ? & ?) | (-> & -> & ?)]; [by left | right].
      split; [apply not_saved_error500 | done].
    + right. exists base, i', t. split_and!; try done.
      * intros ->. unfold new_id in Hid. by injection Hid.
      * destruct H as [(? & ? & ?) | (-> & -> & ?)]; [by left | by right].
  - destruct (py_int port) as [p |] eqn:Hp.
    2:{ intros [= <- <-]. split; [right | left]; [| done].
        split; [| done]. intros [[body [=]] | [=]]. }
    cbn [default].
    intros H. apply save_and_respond_cases in H as [Hkr H]. split; [| by left].
    destruct H as [(? & ? & ?) | (-> & -> & ?)]; [by left | right].
    split; [apply not_saved_error500 | done].
Qed.

Lemma rstrip_fixed p s :
  (forall c, [c] `suffix_of` s -> p c = false) -> rstrip p s = s.
Proof.
  induction s as [|c s IH]; [done |]. intros H. simpl.
  destruct s as [|x s'].
  - simpl. rewrite H; [done |]. by exists [].
  - rewrite IH.
    + done.
    + intros d Hd. apply H. by apply suffix_cons_r.
Qed.

Lemma rstrip_idemp p s : rstrip p (rstrip p s) = rstrip p s.
Proof.
  apply rstrip_fixed. by destruct (rstrip_spec p s) as (tail & _ & _ & Hl).
Qed.

Lemma rstrip_collector base :
  rstrip (eqc "/") (base ++ L "/services/collector")
  = base ++ L "/services/collector".
Proof.
  apply rstrip_fixed. intros d Hd.
  change (L "/services/collector")
    with (L "/services/collecto" ++ ["r"%char]) in Hd.
  rewrite (assoc_L (++)) in Hd.
  apply (suffix_snoc_inv_1 d _ []) in Hd. by subst d.
Qed.

Lemma normalize_url_nonempty u : normalize_url u <> [].
Proof.
  unfold normalize_url.
  destruct (rstrip (eqc "/") u) as [|c r] eqn:E; [| by case_match].
  vm_compute. discriminate.
Qed.

(** [X8] The url that [create_destination] stores is never empty, and
    normalizing it again changes nothing, neither with the rule of
    [create_destination] nor with [_normalize_hec_url] of
    [generate_logs]. *)
Theorem normalize_url_idempotent u :
  normalize_url (normalize_url u) = normalize_url u
  /\ _normalize_hec_url (normalize_url u) = normalize_url u
  /\ normalize_url u <> [].
Proof.
  assert (H : normalize_url (normalize_url u) = normalize_url u).
  { unfold normalize_url at 2 3.
    destruct (endswith (L "/event") _
              || endswith (L "/raw") _ || contains (L "/services/collector") _)
      eqn:E; cbn [negb].
    - unfold normalize_url. rewrite rstrip_idemp, E. done.
    - unfold normalize_url.
      rewrite rstrip_collector.
      replace (contains _ _) with true; [by rewrite !orb_true_r |].
      symmetry. apply contains_occurs.
      exists (rstrip (eqc "/") u), []. by rewrite app_nil_r. }
  split_and!; [done | | apply normalize_url_nonempty].
  rewrite _normalize_hec_url_agrees; [done | apply normalize_url_nonempty].
Qed.

Lemma validate_rejected payload r : validate payload = inl r -> ~ saved r.
Proof.
  unfold validate. intros H.
  repeat (case_match; simplify_eq/=; try done);
    try apply not_saved_error; try done; intros [[body [=]] | [=]].
Qed.



Lemma validate_hec payload base token :
  validate payload = inr (Hec base token) ->
  exists u, get payload "url" = VStr u /\ base = normalize_url u
    /\ token = get payload "token" /\ truthy token = true.
Proof.
  unfold validate.
  destruct (py_eq (get payload "type") (VStr (L "hec"))).
  - destruct (_ || _) eqn:E; [discriminate |].
    destruct (get payload "url") as [| | |u]; try discriminate.
    intros [= <- <-]. exists u. split_and!; try done.
    apply orb_false_iff in E as [_ E]. by apply negb_false_iff in E.
  - destruct (py_eq _ _); [| discriminate].
    destruct (if truthy _ then _ else _); try discriminate.
    by destruct (_ || _).
Qed.

Lemma validate_syslog payload ip port protocol :
  validate payload = inr (Syslog ip port protocol) ->
  truthy ip = true /\ (protocol = L "UDP" \/ protocol = L "TCP").
Proof.
  unfold validate.
  destruct (py_eq (get payload "type") (VStr (L "hec"))).
  - destruct (_ || _); [discriminate |].
    by destruct (get payload "url").
  - destruct (py_eq _ _); [| discriminate].
    destruct (if truthy _ then _ else _); try discriminate.
    destruct (_ || _) eqn:E; [discriminate |].
    intros [= <- <- <-].
    rewrite !orb_false_iff, !negb_false_iff in E.
    destruct E as [[[_ Hip] _] Hp].
    split; [done |].
    apply orb_true_iff in Hp as [Hp | Hp]; apply bool_decide_eq_true in Hp; auto.
Qed.

Lemma new_id_text t items : exists i, new_id t items = VStr i /\ i <> [].
Proof.
  unfold new_id. eexists. split; [done |].
  intros H. apply app_eq_nil in H as [_ H]. discriminate H.
Qed.

Lemma py_eq_truthy a b : py_eq a b = true -> truthy a = truthy b.
Proof.
  destruct a as [|x|x|x], b as [|y|y|y]; cbn [py_eq truthy];
    try discriminate; intros H.
  - done.
  - by destruct x, y.
  - apply Z.eqb_eq in H. subst y. by destruct x.
  - apply Z.eqb_eq in H. subst x. by destruct y.
  - apply Z.eqb_eq in H. by subst y.
  - apply bool_decide_eq_true in H. by subst y.
Qed.

Lemma matches_fields name t d :
  truthy name = true -> matches name t d = true ->
  truthy (get d "name") = true /\ get d "type" = VStr t.
Proof.
  unfold matches. intros Hn H. apply andb_true_iff in H as [H1 H2].
  split; [| by apply py_eq_VStr].
  apply py_eq_truthy in H1. congruence.
Qed.

Lemma find_existing_length name t items i d :
  find_existing name t items = Some (i, d) -> i < length items.
Proof.
  intros H. apply find_existing_Some in H as [H _].
  by apply lookup_lt_Some in H.
Qed.

Lemma written_lookup name v items j d :
  items !! j = Some d ->
  matches name (type_of v) d = false ->
  written name v items !! j = Some d.
Proof.
  intros Hj Hm. unfold written.
  destruct (find_existing name (type_of v) items) as [[i x] |] eqn:Hfind.
  - apply find_existing_Some in Hfind as [Hi Hx].
    destruct (decide (i = j)) as [-> | Hne].
    + congruence.
    + by rewrite list_lookup_insert_ne.
  - by apply lookup_app_l_Some.
Qed.

Lemma matches_updated name t v d :
  matches name t (updated v d) = matches name t d.
Proof.
  destruct v; cbn [updated].
  - apply matches_update_hec.
  - apply matches_update_syslog.
Qed.

Lemma matches_created name v id :
  matches name (type_of v) (created v name id) = true.
Proof.
  destruct v; cbn [created type_of].
  - apply matches_hec_entry.
  - apply matches_syslog_entry.
Qed.

Lemma written_length name v items :
  length items <= length (written name v items) <= S (length items).
Proof.
  unfold written. destruct (find_existing _ _ _) as [[i x] |].
  - rewrite length_insert. lia.
  - rewrite length_app. simpl. lia.
Qed.

Lemma written_entry name v items :
  exists j d, written name v items !! j = Some d
    /\ matches name (type_of v) d = true
    /\ get d "id" = target_id name v items
    /\ (forall base token, v = Hec base token ->
        get d "url" = VStr base /\ d !! "token"%string = None).
Proof.
  unfold written, target_id.
  destruct (find_existing name (type_of v) items) as [[i x] |] eqn:Hfind.
  - exists i, (updated v x).
    pose proof (find_existing_length _ _ _ _ _ Hfind).
    apply find_existing_Some in Hfind as [Hi Hx].
    rewrite list_lookup_insert_eq by done. split_and!; [done | | |].
    + by rewrite matches_updated.
    + destruct v; cbn [updated].
      * by rewrite get_delete_ne, get_insert_ne.
      * by rewrite !get_insert_ne.
    + intros base token ->. cbn [updated]. split.
      * by rewrite get_delete_ne, get_insert_eq.
      * apply lookup_delete_eq.
  - exists (length items), (created v name (new_id (type_of v) items)).
    split_and!.
    + by rewrite lookup_app_r, Nat.sub_diag.
    + apply matches_created.
    + destruct v; cbn [created]; apply get_insert_eq.
    + intros base token ->. cbn [created]. unfold get.
      split; by simplify_map_eq.
Qed.



Lemma well_formed_updated payload v d :
  validate payload = inr v ->
  matches (get payload "name") (type_of v) d = true ->
  well_formed d -> well_formed (updated v d).
Proof.
  intros Hv Hm (Hid & Htok & Hname & Hkind).
  apply matches_fields in Hm as [_ Ht]; [| by apply validate_name in Hv].
  destruct v as [base token | ip port protocol]; cbn [updated type_of] in *.
  - apply validate_hec in Hv as (u & _ & -> & _ & _).
    split_and!.
    + destruct Hid as (i & Hi & Hne). exists i.
      by rewrite get_delete_ne, get_insert_ne.
    + apply lookup_delete_eq.
    + by rewrite get_delete_ne, get_insert_ne.
    + left. rewrite !get_delete_ne, get_insert_ne, get_insert_eq by done.
      split; [done |]. eexists. split; [done |].
      apply normalize_url_idempotent.
  - apply validate_syslog in Hv as [Hip Hp].
    split_and!.
    + destruct Hid as (i & Hi & Hne). exists i. by rewrite !get_insert_ne.
    + by rewrite !lookup_insert_ne.
    + by rewrite !get_insert_ne.
    + right. rewrite get_insert_eq.
      rewrite (get_insert_ne _ "protocol" "type") by done.
      rewrite (get_insert_ne _ "protocol" "ip") by done.
      rewrite (get_insert_ne _ "protocol" "port") by done.
      rewrite get_insert_eq.
      rewrite (get_insert_ne _ "port" "type") by done.
      rewrite (get_insert_ne _ "port" "ip") by done.
      rewrite get_insert_eq.
      rewrite (get_insert_ne _ "ip" "type") by done.
      split_and!; [done | done | by eexists |].
      destruct Hp as [-> | ->]; auto.
Qed.

Lemma well_formed_created payload v id :
  validate payload = inr v ->
  (exists i, id = VStr i /\ i <> []) ->
  well_formed (created v (get payload "name") id).
Proof.
  intros Hv (i & -> & Hi).
  pose proof (validate_name _ _ Hv) as Hname.
  destruct v as [base token | ip port protocol]; cbn [created].
  - apply validate_hec in Hv as (u & _ & -> & _ & _).
    split_and!.
    + exists i. by rewrite get_insert_eq.
    + by simplify_map_eq.
    + unfold get. by simplify_map_eq.
    + left. unfold get. simplify_map_eq. split; [done |].
      eexists. split; [done |]. apply normalize_url_idempotent.
  - apply validate_syslog in Hv as [Hip Hp].
    split_and!.
    + exists i. by rewrite get_insert_eq.
    + by simplify_map_eq.
    + unfold get. by simplify_map_eq.
    + right. unfold get. simplify_map_eq.
      split_and!; [done | done | by eexists |].
      destruct Hp as [-> | ->]; auto.
Qed.

Lemma written_well_formed payload v items :
  validate payload = inr v ->
  Forall well_formed items ->
  Forall well_formed (written (get payload "name") v items).
Proof.
  intros Hv Hitems. unfold written.
  destruct (find_existing _ _ _) as [[i d] |] eqn:Hfind.
  - apply find_existing_Some in Hfind as [Hi Hm].
    apply Forall_insert; [done |].
    apply (well_formed_updated payload); [done | done |].
    rewrite Forall_forall in Hitems. apply Hitems.
    by apply list_elem_of_lookup_2 in Hi.
  - apply Forall_app. split; [done |]. constructor; [| done].
    apply well_formed_created; [done | apply new_id_text].
Qed.

Lemma create_destination_well_formed e st payload :
  Forall well_formed (destinations_file st) ->
  Forall well_formed (destinations_file (snd (create_destination e st payload))).
Proof.
  intros H. unfold create_destination.
  destruct (validate payload) as [r | v] eqn:Hv; [done |].
  destruct (upsert e st (get payload "name") v) as [r st'] eqn:Hu.
  apply upsert_cases in Hu as [[(_ & Hf & _) | (_ & Hf)] _];
    [| | by apply validate_name in Hv]; cbn [snd]; rewrite Hf; [| done].
  by apply written_well_formed.
Qed.

Lemma delete_destination_well_formed e st dest_id :
  Forall well_formed (destinations_file st) ->
  Forall well_formed (destinations_file (snd (delete_destination e st dest_id))).
Proof.
  intros H. rewrite delete_destination_eq.
  destruct (save_ok e _); cbn [snd destinations_file].
  - unfold remaining. rewrite Forall_forall in H. apply Forall_forall.
    intros d Hd. apply list_elem_of_filter in Hd as [_ Hd]. by apply H.
  - by rewrite delete_password_file.
Qed.

Lemma replay_from calls st (P : state -> Prop) :
  (forall st c, c ∈ calls -> P st -> P (serve st c)) ->
  P st -> P (fold_left serve calls st).
Proof.
  revert st. induction calls as [|c calls IH]; intros st Hstep Hst; [done |].
  simpl. apply IH.
  - intros st' c' Hc'. apply Hstep. by apply list_elem_of_further.
  - apply Hstep; [apply list_elem_of_here | done].
Qed.

(** [X9] Whatever requests to create and to delete destinations are
    served, on whatever hosts, starting from an empty registry: no two
    stored destinations have the same name and type, and every stored
    destination has a non-empty text id, a name, no [token] field, and
    either type hec with a normalized url or type syslog with an address,
    an integer port and protocol UDP or TCP. *)
Theorem replay_invariant calls :
  unique_per_name_type (destinations_file (replay calls))
  /\ Forall well_formed (destinations_file (replay calls)).
Proof.
  unfold replay.
  apply (replay_from calls empty_registry
           (fun st => unique_per_name_type (destinations_file st)
                      /\ Forall well_formed (destinations_file st))).
  - intros st [e [payload | dest_id]] _ [Hu Hw]; cbn [serve]; split.
    + by apply create_destination_unique.
    + by apply create_destination_well_formed.
    + by apply delete_destination_unique.
    + by apply delete_destination_well_formed.
  - split; [apply unique_empty | constructor].
Qed.

Lemma has_secret_insert secrets d i (t : str) :
  t <> [] -> has_secret secrets d -> has_secret (<[i := t]> secrets) d.
Proof.
  intros Ht H Hd. destruct (H Hd) as (j & t' & Hj & Hs & Hne').
  destruct (decide (i = j)) as [-> | Hne].
  - exists j, t. by rewrite lookup_insert_eq.
  - exists j, t'. by rewrite lookup_insert_ne.
Qed.

Lemma syslog_not_hec : VStr (L "syslog") <> VStr (L "hec").
Proof. discriminate. Qed.

Lemma create_destination_has_secret e st payload :
  Forall (has_secret (keyring st)) (destinations_file st) ->
  let st' := snd (create_destination e st payload) in
  Forall (has_secret (keyring st')) (destinations_file st').
Proof.
  intros H. unfold create_destination.
  destruct (validate payload) as [r | v] eqn:Hv; [done |].
  pose proof (validate_name _ _ Hv) as Hname.
  destruct (upsert e st (get payload "name") v) as [r st'] eqn:Hu.
  apply upsert_cases in Hu as [Hfile Hkey]; [| done]. cbn [snd].
  assert (Hold : Forall (has_secret (keyring st')) (destinations_file st)).
  { destruct Hkey as [[-> _] | (base & i & t & -> & _ & _ & _ & _ & -> & _)];
      [done |].
    apply validate_hec in Hv as (u & _ & _ & _ & Ht).
    eapply Forall_impl; [exact H |]. intros d. apply has_secret_insert.
    by destruct t. }
  destruct Hfile as [(Hs & -> & _) | (_ & ->)]; [| done].
  assert (Hnew : forall d, matches (get payload "name") (type_of v) d = true ->
                   get d "id" = target_id (get payload "name") v (destinations_file st) ->
                   has_secret (keyring st') d).
  { intros d Hm Hid Hd.
    apply matches_fields in Hm as [_ Ht]; [| done].
    destruct Hkey as [[_ Hno] | (base & i & t & -> & Hti & _ & Hk & _ & -> & _)].
    - destruct v as [base token | ip port protocol].
      + by destruct (Hno base token).
      + cbn [type_of] in Ht. rewrite Ht in Hd. by destruct syslog_not_hec.
    - apply validate_hec in Hv as (u & _ & _ & _ & Htok).
      exists i, t. split_and!; [congruence | by rewrite lookup_insert_eq |].
      by destruct t. }
  unfold written, target_id in *.
  destruct (find_existing _ _ _) as [[i d] |] eqn:Hfind.
  - apply find_existing_Some in Hfind as [Hi Hm].
    apply Forall_insert; [done |]. apply Hnew.
    + by rewrite matches_updated.
    + destruct v; cbn [updated].
      * by rewrite get_delete_ne, get_insert_ne.
      * by rewrite !get_insert_ne.
  - apply Forall_app. split; [done |]. constructor; [| done]. apply Hnew.
    + apply matches_created.
    + destruct v; cbn [created]; apply get_insert_eq.
Qed.

Lemma delete_destination_has_secret e st dest_id :
  (forall items, save_ok e items = true) ->
  Forall (has_secret (keyring st)) (destinations_file st) ->
  let st' := snd (delete_destination e st dest_id) in
  Forall (has_secret (keyring st')) (destinations_file st').
Proof.
  intros Hsave H. rewrite delete_destination_eq, Hsave.
  cbn [snd destinations_file keyring].
  rewrite Forall_forall in H. apply Forall_forall. intros d Hd.
  unfold remaining in Hd. apply list_elem_of_filter in Hd as [Hne Hd].
  intros Ht. destruct (H d Hd Ht) as (i & t & Hi & Hs & Hne').
  exists i, t. split_and!; [done | | done].
  unfold delete_password. case_match; [| done]. cbn [keyring].
  rewrite lookup_delete_ne; [done |].
  intros ->. by rewrite Hi, py_eq_refl in Hne.
Qed.

(** [X10] If every file write succeeded while the requests were served,
    then every stored HEC destination has its token in the keyring: on a
    host with a keyring, [generate_logs] finds a url and a non-empty token
    for it, and the url is already normalized. *)
Theorem replay_secrets calls d e :
  Forall (fun c => forall items, save_ok (fst c) items = true) calls ->
  d ∈ destinations_file (replay calls) ->
  get d "type" = VStr (L "hec") ->
  HAS_KEYRING e = true ->
  exists url tok,
    hec_credentials e (replay calls) d = inr (VStr url, tok)
    /\ tok <> [] /\ _normalize_hec_url url = url.
Proof.
  intros Hsave Hd Ht Hk.
  assert (H : Forall well_formed (destinations_file (replay calls))
              /\ Forall (has_secret (keyring (replay calls)))
                   (destinations_file (replay calls))).
  { split; [apply replay_invariant |]. unfold replay.
    apply (replay_from calls empty_registry
             (fun st => Forall (has_secret (keyring st)) (destinations_file st))).
    - intros st [e' [payload | dest_id]] Hc Hst; cbn [serve].
      + by apply create_destination_has_secret.
      + apply delete_destination_has_secret; [| done].
        rewrite Forall_forall in Hsave. apply (Hsave _ Hc).
    - constructor. }
  destruct H as [Hw Hs]. rewrite Forall_forall in Hw, Hs.
  destruct (Hw d Hd) as ((i & Hi & Hne) & _ & _ & Hkind).
  destruct (Hs d Hd Ht) as (j & t & Hj & Hsec & Hnet).
  destruct Hkind as [(_ & u & Hu & Hnorm) | (Hty & _)];
    [| rewrite Ht in Hty; discriminate Hty].
  exists u, t. split_and!; [| done |].
  - assert (u <> []) by (rewrite <-Hnorm; apply normalize_url_nonempty).
    assert (i = j) as -> by congruence.
    unfold hec_credentials. rewrite Hk, Hj, Hu. cbn [get_password].
    rewrite Hsec. by destruct j, u, t.
  - rewrite <-Hnorm at 1. rewrite (proj1 (proj2 (normalize_url_idempotent u))).
    done.
Qed.

Lemma replay_secrets_witness :
  exists url tok,
    hec_credentials working
      (replay [(working,
                Create (hec_payload "prod" "https://example.com/" "abc"))])
      (<["id" := VStr (L "hec:1")]> (<["type" := VStr (L "hec")]>
         (<["name" := VStr (L "prod")]>
            {["url" := VStr (L "https://example.com/services/collector")]})))
    = inr (VStr url, tok)
    /\ tok <> [] /\ _normalize_hec_url url = url.
Proof.
  apply (replay_secrets
           [(working, Create (hec_payload "prod" "https://example.com/" "abc"))]).
  - by repeat constructor.
  - vm_compute. apply list_elem_of_here.
  - vm_compute. reflexivity.
  - reflexivity.
Defined.

Lemma save_and_respond_201 e st items id name t base body st' :
  save_and_respond e st items id name t base = (Json 201 body, st') ->
  exists b, base = Some b
    /\ body = <["id" := id]> (<["name" := name]>
                (<["type" := VStr t]> {["url" := VStr b]})).
Proof.
  unfold save_and_respond, _save_destinations.
  destruct (save_ok e items); [| discriminate].
  destruct base as [b |]; [| discriminate].
  intros [= <- <-]. by exists b.
Qed.

Lemma upsert_201 e st name v body st' :
  truthy name = true ->
  upsert e st name v = (Json 201 body, st') ->
  exists base token,
    v = Hec base token
    /\ body = <["id" := target_id name v (destinations_file st)]>
                (<["name" := name]> (<["type" := VStr (L "hec")]>
                   {["url" := VStr base]})).
Proof.
  intros Hname. unfold upsert, _load_destinations, target_id.
  rewrite existing_entry_find by done.
  destruct (find_existing name (type_of v) (destinations_file st))
    as [[i d] |] eqn:Hfind; destruct v as [base token | ip port protocol];
    cbn [type_of].
  - rewrite get_insert_ne by done.
    destruct (_ || _); [discriminate |].
    destruct (set_password _ _ _ _); [| discriminate].
    rewrite get_delete_ne, get_insert_ne by done.
    intros H. apply save_and_respond_201 in H as (b & [= <-] & ->).
    by exists base, token.
  - destruct (py_int port); [| discriminate].
    intros H. by apply save_and_respond_201 in H as (b & [=] & _).
  - destruct (negb _); [discriminate |].
    destruct (set_password _ _ _ _); [| discriminate].
    intros H. apply save_and_respond_201 in H as (b & [= <-] & ->).
    by exists base, token.
  - destruct (py_int port); [| discriminate].
    intros H. by apply save_and_respond_201 in H as (b & [=] & _).
Qed.

(** [X6] After a [create_destination] answered with 201, the file has an
    entry with the id of the answer and the normalized url, without a
    [token] field; the keyring holds the token of the request under that
    id; and [generate_logs] finds the credentials of that entry. *)
Theorem created_hec_is_usable e st payload body st' :
  create_destination e st payload = (Json 201 body, st') ->
  exists url tok i j d,
    get payload "url" = VStr url /\ get payload "token" = VStr tok
    /\ get body "url" = VStr (normalize_url url)
    /\ get body "id" = VStr i
    /\ destinations_file st' !! j = Some d
    /\ get d "id" = VStr i
    /\ get d "url" = VStr (normalize_url url)
    /\ d !! "token"%string = None
    /\ get_password st' (VStr i) = Some tok
    /\ hec_credentials e st' d = inr (VStr (normalize_url url), tok).
Proof.
  unfold create_destination.
  destruct (validate payload) as [r | v] eqn:Hv.
  { intros [= -> ->]. apply validate_rejected in Hv. destruct Hv. left. eauto. }
  pose proof (validate_name _ _ Hv) as Hname. intros Hu.
  destruct (upsert_201 _ _ _ _ _ _ Hname Hu) as (base & token & -> & ->).
  apply validate_hec in Hv as (url & Hurl & -> & -> & Htok).
  apply upsert_cases in Hu as [Hfile Hkey]; [| done].
  destruct Hfile as [(_ & Hfile & _) | (Hns & _)]; [| destruct Hns; left; eauto].
  destruct Hkey as [[_ Hno] | (b & i & t & [= <- Ht] & Hi & Hne & Hk & _ & Hkr & _)].
  { destruct (Hno _ _ eq_refl). left. eauto. }
  destruct (written_entry (get payload "name")
              (Hec (normalize_url url) (get payload "token"))
              (destinations_file st)) as (j & d & Hj & _ & Hid & Hd).
  destruct (Hd _ _ eq_refl) as [Hdu Hdt].
  rewrite Hi in Hid. rewrite Ht in Htok.
  exists url, t, i, j, d. split_and!; try done.
  - by rewrite Hfile.
  - cbn [get_password]. rewrite Hkr. apply lookup_insert_eq.
  - unfold hec_credentials. rewrite Hk, Hid, Hdu. cbn [get_password].
    rewrite Hkr, lookup_insert_eq.
    pose proof (normalize_url_nonempty url).
    destruct i, t, (normalize_url url); done.
Qed.



Lemma created_hec_is_usable_witness :
  let payload := hec_payload "prod" "https://example.com/" "abc" in
  let st' := snd (create_destination working empty_registry payload) in
  exists url tok i j d,
    get payload "url" = VStr url /\ get payload "token" = VStr tok
    /\ get (<["id" := VStr (L "hec:1")]> (<["name" := VStr (L "prod")]>
              (<["type" := VStr (L "hec")]>
                 {["url" := VStr (L "https://example.com/services/collector")]})))
         "url" = VStr (normalize_url url)
    /\ get (<["id" := VStr (L "hec:1")]> (<["name" := VStr (L "prod")]>
              (<["type" := VStr (L "hec")]>
                 {["url" := VStr (L "https://example.com/services/collector")]})))
         "id" = VStr i
    /\ destinations_file st' !! j = Some d
    /\ get d "id" = VStr i
    /\ get d "url" = VStr (normalize_url url)
    /\ d !! "token"%string = None
    /\ get_password st' (VStr i) = Some tok
    /\ hec_credentials working st' d = inr (VStr (normalize_url url), tok).
Proof.
  intros payload st'.
  apply (created_hec_is_usable working empty_registry payload).
  vm_compute. reflexivity.
Defined.

End RegistryLaws.

(** ** Laws of the streams *)

Section StreamLaws.

Ltac in_list :=
  try unfold status_texts;
  repeat first [apply list_elem_of_here | apply list_elem_of_further].

Ltac in_cases H :=
  repeat first
    [ apply elem_of_app in H as [H | H]
    | apply elem_of_cons in H as [H | H]; [try discriminate H |]
    | by apply elem_of_nil in H ].

Lemma send_lines_quiet w n lines :
  Forall (fun ev => opens_or_closes ev = false) (send_lines w n lines).
Proof.
  revert n. induction lines as [|line rest IH]; intros n; [constructor |].
  destruct line as [|c line]; [constructor |].
  cbn [send_lines]. destruct (send_error w n).
  - by repeat constructor.
  - constructor; [done |]. constructor; [done |]. apply IH.
Qed.

Lemma script_errors_quiet w :
  Forall (fun ev => on_socket ev = false) (script_errors w).
Proof. unfold script_errors. destruct (child_stderr w); by repeat constructor. Qed.

Lemma on_socket_quiet evs :
  Forall (fun ev => on_socket ev = false) evs ->
  Forall (fun ev => opens_or_closes ev = false) evs.
Proof. intros H. eapply Forall_impl; [exact H |]. by intros []. Qed.

Lemma syslog_send_socket r w ip port protocol :
  socket_use (syslog_send r w ip port protocol).
Proof.
  unfold syslog_send.
  assert (Hstream : forall kind,
    socket_use
      (let start := [SocketOpen kind]
                    ++ [Yield (L "INFO: Starting log generation..." ++ [nl])] in
       match popen_error w with
       | Some f => (start, Raised f, true)
       | None =>
           ret (start
                ++ [Popen [L "python"; full_script_path r;
                           L (pretty (log_count r))] []]
                ++ send_lines w 0 (child_stdout w)
                ++ script_errors w ++ [Wait]) true
       end)).
  { intros kind. cbv zeta. destruct (popen_error w); cbn [socket_use ret].
    - eexists _, _. split; [done |]. by repeat constructor.
    - eexists _, _. split; [done |].
      constructor; [done |]. constructor; [done |].
      apply Forall_app. split; [apply send_lines_quiet |].
      apply Forall_app. split; [apply on_socket_quiet, script_errors_quiet |].
      by repeat constructor. }
  destruct (bool_decide (protocol = L "UDP")); [apply Hstream |].
  destruct (bool_decide (protocol = L "TCP")).
  - destruct (connect_error w); [| apply Hstream].
    cbn [socket_use ret]. eexists _, _. split; [done |]. by repeat constructor.
  - cbn [socket_use ret]. by repeat constructor.
Qed.

Lemma syslog_checked_socket r w ip port protocol :
  socket_use (syslog_checked r w ip port protocol).
Proof.
  unfold syslog_checked. destruct port as [p |].
  - destruct (_ || _); [by repeat constructor | apply syslog_send_socket].
  - by repeat constructor.
Qed.

Lemma syslog_body_socket st r w : socket_use (syslog_body st r w).
Proof.
  unfold syslog_body. destruct (truthy _).
  - destruct (find_by_id _ _ _); [| by repeat constructor].
    destruct (py_int _); [| by repeat constructor].
    destruct (upper_or_empty _); [| by repeat constructor].
    apply syslog_checked_socket.
  - destruct (upper_or_empty _); [| by repeat constructor].
    apply syslog_checked_socket.
Qed.

Lemma forward_sanitized_quiet tok url nurl lines :
  Forall (fun ev => on_socket ev = false) (forward_sanitized tok url nurl lines).
Proof.
  induction lines as [|line rest IH]; [constructor |].
  destruct line; [constructor |]. cbn [forward_sanitized]. by constructor.
Qed.

Lemma hec_body_socket e st r w : socket_use (hec_body e st r w).
Proof.
  unfold hec_body.
  destruct (negb (truthy _)); [by repeat constructor |].
  destruct (choose_hec st r); [| by repeat constructor].
  destruct (hec_credentials e st _) as [msg | [hec_url tok]];
    [by repeat constructor |].
  destruct (negb (sender_exists w)); [by repeat constructor |].
  destruct hec_url; try by repeat constructor.
  unfold hec_send. destruct (product_id r); try by repeat constructor.
  destruct (popen_error w); [by repeat constructor |].
  cbn [socket_use ret]. constructor; [done |]. constructor; [done |].
  apply Forall_app. split; [apply forward_sanitized_quiet |].
  apply Forall_app. split; [| by repeat constructor].
  unfold sender_errors. destruct (child_stderr w); by repeat constructor.
Qed.

Lemma finish_socket w b :
  socket_use b ->
  (exists mid, finish w b = mid ++ [completion]
     /\ Forall (fun ev => on_socket ev = false) mid)
  \/ (exists kind mid,
        finish w b = SocketOpen kind :: mid ++ [completion; SocketClose]
        /\ Forall (fun ev => opens_or_closes ev = false) mid).
Proof.
  destruct b as [[evs how] sock]. cbn [socket_use finish].
  set (handler := match how with
                  | Returned => []
                  | Raised FileNotFoundError => _
                  | Raised _ => _
                  end).
  assert (Hh : Forall (fun ev => on_socket ev = false) handler).
  { unfold handler. destruct how as [|[]]; by repeat constructor. }
  destruct sock.
  - intros (kind & rest & -> & Hrest). right.
    exists kind, (rest ++ handler). split.
    + cbn. by rewrite <-!(assoc_L (++)).
    + apply Forall_app. split; [done | by apply on_socket_quiet].
  - intros Hevs. left. exists (evs ++ handler). split.
    + by rewrite app_nil_r, !(assoc_L (++)).
    + by apply Forall_app.
Qed.

(** [X11] The stream of [generate_logs] always ends with the completion
    line, followed only by the closing of the socket when one was opened.
    A socket is opened at most once, as the first event, and closed
    exactly once, as the last; without one, nothing is sent or closed. *)
Theorem stream_socket_discipline e st r w :
  let evs := generate_and_stream e st r w in
  (exists mid, evs = mid ++ [completion]
     /\ Forall (fun ev => on_socket ev = false) mid)
  \/ (exists kind mid,
        evs = SocketOpen kind :: mid ++ [completion; SocketClose]
        /\ Forall (fun ev => opens_or_closes ev = false) mid).
Proof.
  unfold generate_and_stream.
  destruct (bool_decide (destination r = L "syslog"));
    [apply finish_socket, syslog_body_socket |].
  destruct (bool_decide (destination r = L "hec"));
    [apply finish_socket, hec_body_socket |].
  apply finish_socket. constructor.
Qed.

Lemma sent_app a b : sent (a ++ b) = sent a ++ sent b.
Proof. apply omap_app. Qed.

Lemma logged_app a b : logged (a ++ b) = logged a ++ logged b.
Proof. apply omap_app. Qed.

Lemma sent_send data evs : sent (SocketSend data :: evs) = data :: sent evs.
Proof. reflexivity. Qed.

Lemma sent_yield line evs : sent (Yield line :: evs) = sent evs.
Proof. reflexivity. Qed.

Lemma logged_send data evs : logged (SocketSend data :: evs) = logged evs.
Proof. reflexivity. Qed.

Lemma logged_log data evs :
  logged (Yield (L "LOG: " ++ data) :: evs) = (L "LOG: " ++ data) :: logged evs.
Proof. reflexivity. Qed.

Lemma send_lines_readlines w n lines :
  send_lines w n (readlines lines) = send_lines w n lines.
Proof.
  revert n. induction lines as [|line rest IH]; intros n; [done |].
  destruct line as [|c line]; [done |].
  cbn [readlines send_lines]. destruct (send_error w n); [done |].
  by rewrite IH.
Qed.

Lemma send_lines_sent w n lines :
  sent (send_lines w n lines)
  = map datagram (take (sends_before_failure w n (readlines lines))
                    (readlines lines))
  /\ logged (send_lines w n lines)
     = map (fun data => L "LOG: " ++ data) (sent (send_lines w n lines))
  /\ (Terminate ∈ send_lines w n lines <->
      sends_before_failure w n (readlines lines) < length (readlines lines)).
Proof.
  revert n. induction lines as [|line rest IH]; intros n.
  - cbn. split_and!; [done | done |]. split; [by intros ?%elem_of_nil | lia].
  - destruct line as [|c line].
    + cbn. split_and!; [done | done |]. split; [by intros ?%elem_of_nil | lia].
    + cbn [readlines send_lines sends_before_failure].
      destruct (send_error w n) as [err |].
      * cbn. split_and!; [done | done |].
        split; [lia |]. intros _. apply list_elem_of_further, list_elem_of_here.
      * destruct (IH (S n)) as (IH1 & IH2 & IH3).
        rewrite sent_send, sent_yield, logged_send.
        change (strip (c :: line) ++ [nl]) with (datagram (c :: line)).
        rewrite logged_log.
        split_and!.
        -- cbn [take map length]. by rewrite <-IH1.
        -- cbn [map]. by rewrite IH2.
        -- cbn [length]. rewrite <-Nat.succ_lt_mono, <-IH3.
           split.
           ++ intros H. apply elem_of_cons in H as [H | H]; [discriminate |].
              apply elem_of_cons in H as [H | H]; [discriminate | done].
           ++ intros H. by do 2 apply list_elem_of_further.
Qed.

Lemma logged_other line evs :
  startswith (L "LOG: ") line = false -> logged (Yield line :: evs) = logged evs.
Proof.
  intros H.
  change (logged (Yield line :: evs))
    with (match (if startswith (L "LOG: ") line then Some line else None) with
          | Some y => y :: logged evs
          | None => logged evs
          end).
  by rewrite H.
Qed.

Lemma idle_sent evs :
  forallb idle evs = true ->
  sent evs = [] /\ logged evs = [] /\ (Terminate ∉ evs)
  /\ (forall command env, Popen command env ∉ evs).
Proof.
  induction evs as [|ev evs IH]; cbn [forallb].
  - intros _. split_and!; [done | done | by intros ?%elem_of_nil |].
    intros ?? H. by apply elem_of_nil in H.
  - intros [Hev Hevs]%andb_true_iff.
    destruct (IH Hevs) as (IH1 & IH2 & IH3 & IH4).
    destruct ev; try discriminate Hev; cbn [idle] in Hev.
    + split_and!; [done | | |].
      * apply negb_true_iff in Hev. by rewrite logged_other.
      * intros H. apply elem_of_cons in H as [[=] | H]. by apply IH3.
      * intros ?? H. apply elem_of_cons in H as [[=] | H]. by apply IH4 in H.
    + split_and!; [done | done | |].
      * intros H. apply elem_of_cons in H as [[=] | H]. by apply IH3.
      * intros ?? H. apply elem_of_cons in H as [[=] | H]. by apply IH4 in H.
    + split_and!; [done | done | |].
      * intros H. apply elem_of_cons in H as [[=] | H]. by apply IH3.
      * intros ?? H. apply elem_of_cons in H as [[=] | H]. by apply IH4 in H.
Qed.

Lemma script_errors_idle w : forallb idle (script_errors w) = true.
Proof. unfold script_errors. by destruct (child_stderr w). Qed.

Lemma syslog_send_streams r w ip port protocol :
  streams r w (syslog_send r w ip port protocol).
Proof.
  unfold syslog_send, streams.
  destruct (bool_decide (protocol = L "UDP")).
  { cbv zeta. destruct (popen_error w); [by right | left].
    split; [done |]. by exists SOCK_DGRAM. }
  destruct (bool_decide (protocol = L "TCP")); [| by right].
  destruct (connect_error w); [by right |].
  cbv zeta. destruct (popen_error w); [by right | left].
  split; [done |]. by exists SOCK_STREAM.
Qed.

Lemma syslog_body_streams st r w : streams r w (syslog_body st r w).
Proof.
  assert (Hc : forall ip port protocol,
             streams r w (syslog_checked r w ip port protocol)).
  { intros ip port protocol. unfold syslog_checked.
    destruct port as [p |]; [| by right].
    destruct (_ || _); [by right | apply syslog_send_streams]. }
  unfold syslog_body. destruct (truthy _).
  - destruct (find_by_id _ _ _); [| by right].
    destruct (py_int _); [| by right].
    destruct (upper_or_empty _); [| by right]. apply Hc.
  - destruct (upper_or_empty _); [| by right]. apply Hc.
Qed.

Lemma finish_idle w b :
  forallb idle (events_of b) = true -> forallb idle (finish w b) = true.
Proof.
  destruct b as [[evs how] sock]. cbn [events_of fst finish]. intros H.
  rewrite !forallb_app, H.
  destruct how as [|[]], sock; reflexivity.
Qed.

Lemma silent_sent evs :
  forallb silent evs = true ->
  sent evs = [] /\ logged evs = [] /\ (Terminate ∉ evs).
Proof.
  induction evs as [|ev evs IH]; cbn [forallb].
  - intros _. split_and!; [done | done | by intros ?%elem_of_nil].
  - intros [Hev Hevs]%andb_true_iff.
    destruct (IH Hevs) as (IH1 & IH2 & IH3).
    destruct ev; try discriminate Hev; cbn [silent] in Hev;
      (split_and!; [done | |
         intros H; apply elem_of_cons in H as [[=] | H]; by apply IH3]);
      try done.
    apply negb_true_iff in Hev. by rewrite logged_other.
Qed.

Lemma sends_before_failure_le w n lines :
  sends_before_failure w n lines <= length lines.
Proof.
  revert n. induction lines as [|line rest IH]; intros n; cbn; [lia |].
  destruct (send_error w n); [lia |]. specialize (IH (S n)). lia.
Qed.

Lemma sends_before_failure_all w n lines :
  (forall k, send_error w k = None) ->
  sends_before_failure w n lines = length lines.
Proof.
  intros H. revert n. induction lines as [|line rest IH]; intros n; cbn; [done |].
  by rewrite H, IH.
Qed.



Lemma forward_sanitized_no_popen tok url nurl lines command env :
  Popen command env ∉ forward_sanitized tok url nurl lines.
Proof.
  intros H. apply forward_sanitized_lines in H as [l [=]].
Qed.

Lemma finish_popen w b command env :
  Popen command env ∈ finish w b -> Popen command env ∈ events_of b.
Proof.
  destruct b as [[evs how] sock]. cbn [finish events_of fst]. intros H.
  apply elem_of_app in H as [H | H]; [done |].
  apply elem_of_app in H as [H | H].
  { destruct how as [|[]]; in_cases H. }
  apply elem_of_app in H as [H | H]; [in_cases H |].
  destruct sock; in_cases H.
Qed.

(** [X13] In a HEC run of [generate_logs] the sender is started only with
    full credentials: the keyring is available, the chosen destination has
    a non-empty token there and a non-empty url, the product id is a
    non-empty text and the sender script exists. The token and the
    normalized url are passed in the environment of the child. *)
Theorem hec_sender_needs_credentials e st r w command env :
  destination r = L "hec" ->
  Popen command env ∈ generate_and_stream e st r w ->
  exists chosen url tok product,
    choose_hec st r = Some chosen
    /\ HAS_KEYRING e = true
    /\ get_password st (get chosen "id") = Some tok /\ tok <> []
    /\ get chosen "url" = VStr url /\ url <> []
    /\ product_id r = VStr product /\ product <> []
    /\ sender_exists w = true
    /\ command = [L "python3"; hec_sender_path w; L "--product"; product;
                  L "-n"; L (pretty (log_count r));
                  L "--min-delay"; delay r; L "--max-delay"; delay r;
                  L "--print-responses"]
    /\ env = [("S1_HEC_TOKEN"%string, tok);
              ("S1_HEC_URL"%string, _normalize_hec_url url);
              ("S1_HEC_DEBUG"%string, L "1")].
Proof.
  intros Hd. unfold generate_and_stream.
  assert (Hne : destination r <> L "syslog") by (rewrite Hd; discriminate).
  rewrite bool_decide_eq_false_2, bool_decide_eq_true_2 by done.
  intros H0. apply finish_popen in H0. revert H0. unfold hec_body.
  destruct (truthy (product_id r)) eqn:Hprod; cbn [negb];
    [| intros H; in_cases H].
  destruct (choose_hec st r) as [chosen |] eqn:Hch; [| intros H; in_cases H].
  unfold hec_credentials.
  destruct (HAS_KEYRING e) eqn:Hk; cbn [negb orb]; [| intros H; in_cases H].
  destruct (truthy (get chosen "id")); cbn [negb]; [| intros H; in_cases H].
  destruct (get_password st (get chosen "id")) as [[|c t] |] eqn:Hpw;
    try solve [intros H; in_cases H].
  destruct (truthy (get chosen "url")) eqn:Hurl; [| intros H; in_cases H].
  destruct (sender_exists w) eqn:Hs; cbn [negb]; [| intros H; in_cases H].
  destruct (get chosen "url") as [| | |url] eqn:Hu; try solve [intros H; in_cases H].
  unfold hec_send.
  destruct (product_id r) as [| | |product] eqn:Hp; try solve [intros H; in_cases H].
  destruct (popen_error w); [intros H; in_cases H |].
  cbn [ret events_of fst]. intros H.
  apply elem_of_app in H as [H | H]; [in_cases H |].
  apply elem_of_app in H as [H | H].
  - apply elem_of_cons in H as [[= -> ->] | H]; [| in_cases H].
    exists chosen, url, (c :: t), product.
    split_and!; try done; [by destruct url | by destruct product].
  - apply elem_of_app in H as [H | H];
      [by apply forward_sanitized_no_popen in H |].
    apply elem_of_app in H as [H | H]; [| in_cases H].
    unfold sender_errors in H. destruct (child_stderr w); in_cases H.
Qed.

Lemma hec_sender_needs_credentials_witness :
  exists chosen url tok product,
    choose_hec (hec_registry "abc") hec_request = Some chosen
    /\ HAS_KEYRING working = true
    /\ get_password (hec_registry "abc") (get chosen "id") = Some tok
    /\ tok <> []
    /\ get chosen "url" = VStr url /\ url <> []
    /\ product_id hec_request = VStr product /\ product <> []
    /\ sender_exists (printing [] []) = true
    /\ [L "python3"; L "Backend/event_generators/shared/hec_sender.py";
        L "--product"; L "okta_authentication"; L "-n"; L "3";
        L "--min-delay"; L "1.0"; L "--max-delay"; L "1.0";
        L "--print-responses"]
       = [L "python3"; hec_sender_path (printing [] []); L "--product"; product;
          L "-n"; L (pretty (log_count hec_request));
          L "--min-delay"; delay hec_request; L "--max-delay"; delay hec_request;
          L "--print-responses"]
    /\ [("S1_HEC_TOKEN"%string, L "abc");
        ("S1_HEC_URL"%string, L "https://example.com/services/collector");
        ("S1_HEC_DEBUG"%string, L "1")]
       = [("S1_HEC_TOKEN"%string, tok);
          ("S1_HEC_URL"%string, _normalize_hec_url url);
          ("S1_HEC_DEBUG"%string, L "1")].
Proof.
  apply (hec_sender_needs_credentials working (hec_registry "abc") hec_request
           (printing [] [])).
  - reflexivity.
  - vm_compute. do 1 apply list_elem_of_further. apply list_elem_of_here.
Defined.

Lemma forward_quiet lines :
  Forall (fun ev => on_socket ev = false) (forward lines)
  /\ (forall command env, Popen command env ∉ forward lines).
Proof.
  induction lines as [|line rest [IH1 IH2]].
  - split; [constructor |]. intros ?? H. by apply elem_of_nil in H.
  - destruct line as [|c line].
    + split; [constructor |]. intros ?? H. by apply elem_of_nil in H.
    + cbn [forward]. split; [by constructor |].
      intros ?? H. apply elem_of_cons in H as [[=] | H]. by apply IH2 in H.
Qed.

Lemma scenario_stream_shape w scenario_id tok hec_url :
  let evs := scenario_stream w scenario_id tok hec_url in
  head evs = Some (Yield (L "INFO: Starting scenario execution..." ++ [nl]))
  /\ Forall (fun ev => on_socket ev = false) evs
  /\ (forall command env,
        Popen command env ∈ evs ->
        script_exists w = true
        /\ command = scenario_command w scenario_id
        /\ exists url, hec_url = VStr url /\ env = scenario_env tok url)
  /\ (exists line,
        last evs = Some (Yield line)
        /\ (L "INFO: Scenario execution complete" `prefix_of` line
            \/ L "ERROR: " `prefix_of` line)).
Proof.
  unfold scenario_stream. cbv zeta.
  destruct (script_exists w) eqn:Hs; cbn [negb].
  2:{ split_and!; [done | by repeat constructor | |].
      - intros ?? H. in_cases H.
      - eexists. split; [done |]. right. by eexists. }
  destruct hec_url as [| | |url].
  1-3: (split_and!; [done | by repeat constructor | |];
        [intros ?? H; in_cases H | eexists; split; [done |]; right; by eexists]).
  destruct (popen_error w) as [f |].
  { split_and!; [done | by repeat constructor | |].
    - intros ?? H. in_cases H.
    - eexists. split; [done |]. right. by eexists. }
  destruct (forward_quiet (child_stdout w)) as [Hq Hp].
  split_and!.
  - done.
  - repeat (apply Forall_app; split); by repeat constructor.
  - intros command env H.
    apply elem_of_app in H as [H | H]; [in_cases H |].
    apply elem_of_app in H as [H | H]; [in_cases H |].
    apply elem_of_app in H as [H | H].
    + apply elem_of_cons in H as [[= -> ->] | H]; [| in_cases H].
      split_and!; [done | done |]. by exists url.
    + apply elem_of_app in H as [H | H]; [by apply Hp in H | in_cases H].
  - eexists. rewrite !(assoc_L (++)), last_snoc. split; [done |].
    destruct (returncode w =? 0)%Z; [left | right]; by eexists.
Qed.



Lemma replace_go_absent fuel old new s :
  ~ occurs old s -> replace_go fuel old new s = s.
Proof.
  revert s. induction fuel as [|fuel IH]; intros s H; [done |].
  destruct s as [|c s]; [done |]. cbn [replace_go].
  destruct (startswith old (c :: s)) eqn:E.
  - destruct H. by apply occurs_prefix, startswith_prefix.
  - rewrite IH; [done |]. intros Ho. apply H. apply occurs_cons. by right.
Qed.

Lemma replace_absent old new s :
  old <> [] -> ~ occurs old s -> replace old new s = s.
Proof.
  intros Hold H. unfold replace. destruct old; [done |].
  by apply replace_go_absent.
Qed.

(** [X15] Lines of the sender that contain neither the token, nor the
    url, nor the normalized url pass through the sanitizing of
    [generate_logs] unchanged. *)
Theorem sanitize_keeps_clean_lines tok url nurl lines :
  tok <> [] -> url <> [] -> nurl <> [] ->
  Forall (fun line => ~ occurs tok line /\ ~ occurs url line
                      /\ ~ occurs nurl line) lines ->
  forward_sanitized tok url nurl lines = forward lines.
Proof.
  intros Ht Hu Hn. induction 1 as [|line lines (H1 & H2 & H3) _ IH]; [done |].
  destruct line as [|c line]; [done |].
  cbn [forward_sanitized forward]. rewrite IH. f_equal. f_equal.
  unfold sanitize.
  rewrite (replace_absent tok) by done.
  rewrite (replace_absent url) by done.
  by rewrite (replace_absent nurl).
Qed.

Lemma sanitize_keeps_clean_lines_witness :
  forward_sanitized (L "s3cr3t") (L "https://h.example")
    (L "https://h.example/services/collector")
    [L "sent 1 event" ++ [nl]; L "status 200" ++ [nl]]
  = forward [L "sent 1 event" ++ [nl]; L "status 200" ++ [nl]].
Proof.
  apply sanitize_keeps_clean_lines; try discriminate.
  repeat constructor; rewrite <-contains_occurs; by vm_compute.
Defined.

End StreamLaws.

(** ** Laws of the cleaners *)

Section CleaningLaws.

Lemma split_on_clean sep s : Forall (fun l => sep ∉ l) (split_on sep s).
Proof.
  induction s as [|c s IH]; cbn [split_on].
  - constructor; [| constructor]. by intros ?%elem_of_nil.
  - destruct (eqc c sep) eqn:E.
    + constructor; [| done]. by intros ?%elem_of_nil.
    + assert (Hc : c <> sep) by (intros ->; by rewrite eqc_refl in E).
      destruct (split_on sep s) as [|w ws].
      * constructor; [| done].
        intros [-> | H]%elem_of_cons; [done | by apply elem_of_nil in H].
      * apply Forall_cons in IH as [Hw Hws].
        constructor; [| done].
        intros [-> | H]%elem_of_cons; [done | by apply Hw].
Qed.

Lemma split_on_nonempty sep s : split_on sep s <> [].
Proof.
  destruct s as [|c s]; cbn [split_on]; [done |].
  destruct (eqc c sep); [done |]. by destruct (split_on sep s).
Qed.

Lemma split_on_fresh sep l : sep ∉ l -> split_on sep l = [l].
Proof.
  induction l as [|c l IH]; [done |]. intros H.
  apply not_elem_of_cons in H as [Hc Hl]. cbn [split_on].
  destruct (eqc c sep) eqn:E; [by apply eqc_true in E |].
  by rewrite IH.
Qed.

Lemma split_on_app sep l s :
  sep ∉ l ->
  split_on sep (l ++ sep :: s) = l :: split_on sep s.
Proof.
  induction l as [|c l IH]; intros H.
  - cbn. by rewrite eqc_refl.
  - apply not_elem_of_cons in H as [Hc Hl]. cbn [app split_on].
    destruct (eqc c sep) eqn:E; [by apply eqc_true in E |].
    by rewrite IH.
Qed.

Lemma split_on_join sep ls :
  ls <> [] -> Forall (fun l => sep ∉ l) ls ->
  split_on sep (join [sep] ls) = ls.
Proof.
  induction ls as [|l ls IH]; [done |]. intros _ H.
  inversion H as [|? ? Hl Hls]; subst.
  destruct ls as [|l' ls'].
  - cbn [join]. by apply split_on_fresh.
  - change (join [sep] (l :: l' :: ls'))
      with (l ++ sep :: join [sep] (l' :: ls')).
    rewrite split_on_app by done. by rewrite IH.
Qed.

Lemma clean_raw_logs_kept output product_name :
  clean_raw_logs output product_name
  = join [nl] (filter (fun line => kept line = true) (split_on nl output)).
Proof. unfold clean_raw_logs. by rewrite fold_left_keep. Qed.

Lemma filter_twice {A} (P : A -> Prop) `{!forall x, Decision (P x)} (l : list A) :
  filter P (filter P l) = filter P l.
Proof. rewrite list_filter_filter. apply list_filter_iff. tauto. Qed.

(** [X16] [clean_raw_logs] applied to its own result gives that result
    again. The result is made of lines of the input, in their order, none
    of them blank, joined by newlines. *)
Theorem clean_raw_logs_idempotent output product_name other_name :
  clean_raw_logs (clean_raw_logs output product_name) other_name
  = clean_raw_logs output product_name
  /\ exists lines,
       clean_raw_logs output product_name = join [nl] lines
       /\ lines `sublist_of` split_on nl output
       /\ Forall (fun line => strip line <> [] /\ nl ∉ line) lines
       /\ (lines <> [] ->
           split_on nl (clean_raw_logs output product_name) = lines).
Proof.
  rewrite !clean_raw_logs_kept.
  set (lines := filter (fun line => kept line = true) (split_on nl output)).
  assert (Hnl : Forall (fun l => nl ∉ l) lines).
  { pose proof (split_on_clean nl output) as H.
    rewrite Forall_forall in H. apply Forall_forall.
    intros l Hl. apply H. by apply list_elem_of_filter in Hl as [_ Hl]. }
  split.
  - destruct lines as [|l ls] eqn:E; [done |].
    rewrite split_on_join by done. rewrite <-E. unfold lines.
    by rewrite filter_twice.
  - exists lines. split_and!; [done | apply sublist_filter | |].
    + rewrite Forall_forall in Hnl. apply Forall_forall. intros l Hl.
      split; [| by apply Hnl].
      apply list_elem_of_filter in Hl as [Hk _]. unfold kept in Hk.
      apply andb_true_iff in Hk as [_ Hk]. apply negb_true_iff in Hk.
      by apply bool_decide_eq_false in Hk.
    + intros Hne. by apply split_on_join.
Qed.

Lemma closes_app a b : closes a = true -> closes (a ++ b) = true.
Proof.
  induction a as [|c a IH]; [done |]. cbn [app closes].
  destruct (eqc c "}"); [done |]. by destruct (eqc c "{").
Qed.

Lemma brace_groups_app a b :
  brace_groups a + brace_groups b <= brace_groups (a ++ b).
Proof.
  induction a as [|c a IH]; [done |]. cbn [app brace_groups].
  destruct (eqc c "{"); cbn [andb]; [| lia].
  destruct (closes a) eqn:E; [| lia].
  rewrite closes_app by done. lia.
Qed.

Lemma scan_groups inner s rest :
  scan inner s = Some rest ->
  closes s = true \/ (inner = false /\ 1 <= brace_groups s).
Proof.
  revert inner. induction s as [|c s IH]; intros inner; [done |].
  cbn [scan closes brace_groups].
  destruct (eqc c "}") eqn:E1; [by left |].
  destruct (eqc c "{") eqn:E2.
  - destruct inner; [done |]. intros H. right. split; [done |].
    apply IH in H as [H | [[=] _]]. rewrite H. cbn. lia.
  - intros H. apply IH in H as [H | [-> H]]; [by left |].
    right. split; [done |]. cbn. lia.
Qed.

Lemma object_end_groups m rest :
  object_end m = Some rest -> 1 <= brace_groups m.
Proof.
  destruct m as [|c m]; [done |]. cbn [object_end brace_groups].
  destruct (eqc c "{"); [| done].
  intros H. apply scan_groups in H as [-> | [_ H]]; cbn; lia.
Qed.

Lemma findall_go_groups fuel s :
  length (findall_go fuel json_object_pattern s) <= brace_groups s.
Proof.
  revert s. induction fuel as [|fuel IH]; intros s; [cbn; lia |].
  cbn [findall_go]. rewrite exec_json_object_pattern.
  destruct (object_end s) as [rest |] eqn:E.
  - apply object_end_split in E as (c & m & -> & Hm).
    rewrite length_app, Nat.add_sub, take_app_length. cbn [app length].
    apply object_end_groups in Hm.
    pose proof (brace_groups_app (c :: m) rest) as Happ.
    specialize (IH rest). cbn [app] in Happ. lia.
  - destruct s as [|c s]; [cbn; lia |].
    specialize (IH s). cbn [brace_groups]. lia.
Qed.

Lemma one_line_app a b : one_line a -> one_line b -> one_line (a ++ b).
Proof. unfold one_line. intros Ha Hb [H | H]%elem_of_app; auto. Qed.

Lemma one_line_concat ls : Forall one_line ls -> one_line (concat ls).
Proof.
  induction 1 as [|l ls Hl Hls IH]; cbn [concat].
  - by intros ?%elem_of_nil.
  - by apply one_line_app.
Qed.

Lemma one_line_join sep ls :
  one_line sep -> Forall one_line ls -> one_line (join sep ls).
Proof.
  intros Hsep. induction 1 as [|l ls Hl Hls IH]; cbn [join].
  - by intros ?%elem_of_nil.
  - destruct ls as [|l' ls']; [done |].
    apply one_line_app; [done |]. by apply one_line_app.
Qed.

Lemma one_line_decide s :
  forallb (fun c => negb (eqc c nl)) s = true -> one_line s.
Proof.
  unfold one_line. induction s as [|c s IH]; cbn [forallb].
  - by intros _ ?%elem_of_nil.
  - intros [Hc Hs]%andb_true_iff [<- | H]%elem_of_cons; [| by apply IH].
    by rewrite eqc_refl in Hc.
Qed.

Lemma pretty_N_go_one_line x s :
  one_line (L s) -> one_line (L (pretty_N_go x s)).
Proof.
  revert s. induction (N.lt_wf_0 x) as [x _ IH]; intros s Hs.
  assert (x = 0 \/ 0 < x)%N as [-> | Hx] by lia.
  - by rewrite pretty_N_go_0.
  - rewrite pretty_N_go_step by done. apply IH.
    { by apply N.div_lt. }
    change (L (String ?c s)) with (c :: L s).
    intros [Hc | H]%elem_of_cons; [| by apply Hs].
    revert Hc. unfold pretty_N_char. by repeat case_match.
Qed.

Lemma pretty_Z_one_line (z : Z) : one_line (L (pretty z)).
Proof.
  assert (HN : forall n : N, one_line (L (pretty n))).
  { intros n. unfold pretty, pretty_N. case_decide.
    - by apply one_line_decide.
    - apply pretty_N_go_one_line. by intros ?%elem_of_nil. }
  destruct z as [| p | p]; unfold pretty, pretty_Z.
  - by apply one_line_decide.
  - apply (HN (N.pos p)).
  - change (L ("-" +:+ ?s)) with ("-"%char :: L s).
    intros [[=] | H]%elem_of_cons. by apply (HN (N.pos p)).
Qed.

Lemma encode_char_one_line c : one_line (encode_char c).
Proof.
  apply one_line_decide.
  destruct c as [[] [] [] [] [] [] [] []]; reflexivity.
Qed.

Lemma encode_string_one_line s : one_line (encode_string s).
Proof.
  unfold encode_string.
  apply one_line_app; [by apply one_line_decide |].
  apply one_line_app; [| by apply one_line_decide].
  apply one_line_concat, Forall_map, Forall_forall.
  intros c _. apply encode_char_one_line.
Qed.

Lemma json_dumps_one_line : forall v, one_line (json_dumps v).
Proof.
  fix IH 1. intros [| [] | z | s | items | members]; cbn [json_dumps].
  - by apply one_line_decide.
  - by apply one_line_decide.
  - by apply one_line_decide.
  - apply pretty_Z_one_line.
  - apply encode_string_one_line.
  - apply one_line_app; [by apply one_line_decide |].
    apply one_line_app; [| by apply one_line_decide].
    apply one_line_join; [by apply one_line_decide |].
    revert items. fix IHitems 1. intros [|v items]; cbn [map].
    + constructor.
    + constructor; [apply IH | apply IHitems].
  - apply one_line_app; [by apply one_line_decide |].
    apply one_line_app; [| by apply one_line_decide].
    apply one_line_join; [by apply one_line_decide |].
    revert members. fix IHmembers 1. intros [|[k v] members]; cbn [map].
    + constructor.
    + constructor; [| apply IHmembers]. cbn [fst snd].
      apply one_line_app; [apply encode_string_one_line |].
      apply one_line_app; [by apply one_line_decide | apply IH].
Qed.

Lemma words_go_one_line cur s :
  Forall (fun c => isspace c = false) cur ->
  Forall (Forall (fun c => isspace c = false)) (words_go cur s).
Proof.
  revert cur. induction s as [|c s IH]; intros cur Hcur; cbn [words_go].
  - destruct cur; [constructor |]. constructor; [| constructor].
    by apply Forall_reverse.
  - destruct (isspace c) eqn:E.
    + destruct cur.
      * by apply IH.
      * constructor; [by apply Forall_reverse |]. by apply IH.
    + apply IH. by constructor.
Qed.

Lemma format_json_one_line r out : format_json r = Some out -> one_line out.
Proof.
  unfold format_json. destruct (json_loads r) as [v | |]; intros [= <-].
  - apply json_dumps_one_line.
  - apply one_line_join; [by apply one_line_decide |].
    pose proof (words_go_one_line [] r (Forall_nil_2 _)) as H.
    eapply Forall_impl; [exact H |]. intros w Hw Hnl.
    rewrite Forall_forall in Hw. by apply Hw in Hnl.
Qed.

(** [X17] The result of [clean_json_logs] has one record per line: each
    formatted record is free of newlines, so the lines of the result are
    the records, as many as the pattern found objects. That number is at
    most the number of brace groups [detect_log_format] counts, so an
    output with more than two records is detected as JSON. *)
Theorem clean_json_logs_lines output cleaned :
  clean_json_logs output = Some cleaned ->
  exists records,
    mapM format_json (findall json_object_pattern output) = Some records
    /\ cleaned = join [nl] records
    /\ length records = length (findall json_object_pattern output)
    /\ length records <= brace_groups output
    /\ Forall one_line records
    /\ (records <> [] -> split_on nl cleaned = records)
    /\ (2 < length records -> detect_log_format output = JSON).
Proof.
  unfold clean_json_logs.
  destruct (mapM format_json (findall json_object_pattern output))
    as [records |] eqn:E; [| discriminate].
  cbn. intros [= <-]. exists records.
  pose proof (mapM_Some_1 _ _ _ E) as HF.
  assert (Hlen : length records = length (findall json_object_pattern output)).
  { symmetry. by eapply Forall2_length. }
  assert (Hlines : Forall one_line records).
  { apply Forall_forall. intros out Hout.
    apply list_elem_of_lookup in Hout as [i Hi].
    destruct (Forall2_lookup_r _ _ _ _ _ HF Hi) as (m & _ & Hm).
    by apply format_json_one_line in Hm. }
  pose proof (findall_go_groups (S (length output)) output) as Hle.
  fold (findall json_object_pattern output) in Hle.
  split_and!; try done.
  - lia.
  - intros Hne. by apply split_on_join.
  - intros H. unfold detect_log_format, findall.
    rewrite findall_go_json_pattern by lia.
    destruct (2 <? brace_groups output) eqn:E2; [done |].
    apply Nat.ltb_ge in E2. lia.
Qed.

Lemma clean_json_logs_lines_witness :
  let output := L "a {" ++ quoted "k" ++ L ": 1} b {x} c {"
                ++ quoted "k" ++ L ": [2, 3]}" in
  exists records,
    mapM format_json (findall json_object_pattern output) = Some records
    /\ L "{" ++ quoted "k" ++ L ":1}" ++ [nl] ++ L "{x}" ++ [nl]
       ++ L "{" ++ quoted "k" ++ L ":[2,3]}" = join [nl] records
    /\ length records = length (findall json_object_pattern output)
    /\ length records <= brace_groups output
    /\ Forall one_line records
    /\ (records <> [] ->
        split_on nl (L "{" ++ quoted "k" ++ L ":1}" ++ [nl] ++ L "{x}" ++ [nl]
                     ++ L "{" ++ quoted "k" ++ L ":[2,3]}") = records)
    /\ (2 < length records -> detect_log_format output = JSON).
Proof.
  intros output.
  apply (clean_json_logs_lines output).
  vm_compute. reflexivity.
Defined.

End CleaningLaws.

(** ** Sending and saving cleaned logs *)

Section RouteLaws.




End RouteLaws.

(** ** Updating the sourcetype map *)

Section ParserFixLaws.

Lemma index_inside len (i : nat) : i <= len -> index len (Z.of_nat i) = i.
Proof.
  intros H. unfold index.
  destruct (Z.of_nat i <? 0)%Z eqn:E; [apply Z.ltb_lt in E; lia |].
  rewrite Z.min_l by lia. apply Nat2Z.id.
Qed.

Lemma find_from_char c w rest i :
  c ∉ w -> find_from [c] (w ++ c :: rest) i = Some (i + length w).
Proof.
  revert i. induction w as [|x w IH]; intros i Hc.
  - cbn. by rewrite eqc_refl, Nat.add_0_r.
  - apply not_elem_of_cons in Hc as [Hx Hw].
    cbn [app find_from startswith].
    destruct (eqc c x) eqn:E; [by apply eqc_true in E |].
    cbn [andb]. rewrite IH by done. f_equal. cbn [length]. lia.
Qed.

Lemma find_char c p w rest :
  c ∉ w ->
  find [c] (p ++ w ++ c :: rest) (Z.of_nat (length p))
  = Z.of_nat (length p + length w).
Proof.
  intros Hc. unfold find.
  destruct (_ <? _)%Z eqn:E.
  { apply Z.ltb_lt in E. rewrite length_app in E. lia. }
  rewrite index_inside by (rewrite length_app; lia).
  rewrite drop_app_length. by rewrite find_from_char.
Qed.

Lemma rfind_from_absent c s i : c ∉ s -> rfind_from [c] s i = None.
Proof.
  revert i. induction s as [|x s IH]; intros i Hc; [done |].
  apply not_elem_of_cons in Hc as [Hx Hs].
  cbn [rfind_from]. rewrite IH by done. cbn.
  destruct (eqc c x) eqn:E; [by apply eqc_true in E | done].
Qed.

Lemma rfind_from_char c w rest i :
  c ∉ rest -> rfind_from [c] (w ++ c :: rest) i = Some (i + length w).
Proof.
  revert i. induction w as [|x w IH]; intros i Hc.
  - cbn [app rfind_from]. rewrite rfind_from_absent by done.
    cbn. by rewrite eqc_refl, Nat.add_0_r.
  - cbn [app rfind_from]. rewrite IH by done. f_equal. cbn [length]. lia.
Qed.

Lemma rfind_char c p w rest :
  c ∉ rest ->
  rfind [c] (p ++ w ++ c :: rest) (Z.of_nat (length p))
  = Z.of_nat (length p + length w).
Proof.
  intros Hc. unfold rfind.
  destruct (_ <? _)%Z eqn:E.
  { apply Z.ltb_lt in E. rewrite length_app in E. lia. }
  rewrite index_inside by (rewrite length_app; lia).
  rewrite drop_app_length. by rewrite rfind_from_char.
Qed.

Lemma slice_middle p m q :
  slice (p ++ m ++ q) (Z.of_nat (length p)) (Z.of_nat (length p + length m)) = m.
Proof.
  unfold slice.
  rewrite !index_inside by (rewrite !length_app; lia).
  rewrite drop_app_length.
  replace (length p + length m - length p) with (length m) by lia.
  by rewrite take_app_length.
Qed.

Lemma slice_head p q : slice (p ++ q) 0 (Z.of_nat (length p)) = p.
Proof. apply (slice_middle [] p q). Qed.

Lemma slice_tail p q :
  slice (p ++ q) (Z.of_nat (length p)) (Z.of_nat (length (p ++ q))) = q.
Proof.
  rewrite length_app.
  pose proof (slice_middle p q []) as H. by rewrite !app_nil_r in H.
Qed.

(** [X18] When the generator already has a mapping in the file, in the
    usual form (the search pattern, the value, its closing quote, then
    some text up to the next quote), [update_hec_sender_mappings] does not
    read the value: what it takes as the current parser is the text
    between the closing quote of the value and the next quote. If that
    text differs from the parser, an update is recorded and the
    replacement looks for the pattern followed by that text; when this
    occurs nowhere, the content is left as it was. *)
Theorem existing_mapping_misread content generator parser before value between
    after :
  content = before ++ search_pattern generator ++ value ++ [dquote]
            ++ between ++ [dquote] ++ after ->
  find (search_pattern generator) content 0 = Z.of_nat (length before) ->
  dquote ∉ value -> dquote ∉ between ->
  between <> parser ->
  apply_mapping content (generator, parser)
  = (replace (mapping_line generator between) (mapping_line generator parser)
       content,
     [Updated generator between parser])
  /\ (~ occurs (mapping_line generator between) content ->
      fst (apply_mapping content (generator, parser)) = content).
Proof.
  intros Hc Hfind Hv Hb Hne.
  assert (Happly : apply_mapping content (generator, parser)
                   = (replace (mapping_line generator between)
                        (mapping_line generator parser) content,
                      [Updated generator between parser])).
  { unfold apply_mapping.
    replace (contains (search_pattern generator) content) with true.
    2:{ symmetry. apply contains_occurs. rewrite Hc. by eexists before, _. }
    rewrite Hfind.
    assert (Hsv : find [dquote] content
                    (Z.of_nat (length before)
                     + Z.of_nat (length (search_pattern generator)))
                  = Z.of_nat (length (before ++ search_pattern generator)
                              + length value)).
    { rewrite <-Nat2Z.inj_add, <-length_app, Hc.
      rewrite (assoc_L (++) before). by apply find_char. }
    rewrite Hsv.
    assert (Hev : find [dquote] content
                    (Z.of_nat (length (before ++ search_pattern generator)
                               + length value) + 1)
                  = Z.of_nat (length ((before ++ search_pattern generator)
                                      ++ value ++ [dquote])
                              + length between)).
    { replace (Z.of_nat (length (before ++ search_pattern generator)
                         + length value) + 1)%Z
        with (Z.of_nat (length ((before ++ search_pattern generator)
                                ++ value ++ [dquote]))).
      2:{ rewrite !length_app. cbn [length]. lia. }
      rewrite Hc.
      replace (before ++ search_pattern generator ++ value ++ [dquote]
               ++ between ++ [dquote] ++ after)
        with (((before ++ search_pattern generator) ++ value ++ [dquote])
              ++ between ++ dquote :: after).
      2:{ by rewrite <-!(assoc_L (++)). }
      by apply find_char. }
    rewrite Hev.
    assert (Hslice : slice content
                       (Z.of_nat (length (before ++ search_pattern generator)
                                  + length value) + 1)
                       (Z.of_nat (length ((before ++ search_pattern generator)
                                          ++ value ++ [dquote])
                                  + length between))
                     = between).
    { replace (Z.of_nat (length (before ++ search_pattern generator)
                         + length value) + 1)%Z
        with (Z.of_nat (length ((before ++ search_pattern generator)
                                ++ value ++ [dquote]))).
      2:{ rewrite !length_app. cbn [length]. lia. }
      rewrite Hc.
      replace (before ++ search_pattern generator ++ value ++ [dquote]
               ++ between ++ [dquote] ++ after)
        with (((before ++ search_pattern generator) ++ value ++ [dquote])
              ++ between ++ dquote :: after).
      2:{ by rewrite <-!(assoc_L (++)). }
      apply slice_middle. }
    rewrite Hslice. by rewrite bool_decide_eq_true_2. }
  split; [done |]. intros Hno. rewrite Happly. cbn [fst].
  apply replace_absent; [| done].
  unfold mapping_line, search_pattern. done.
Qed.

Lemma existing_mapping_misread_witness :
  apply_mapping sample_sender (L "okta_authentication", L "okta_ocsf_logs-latest")
  = (replace (mapping_line (L "okta_authentication") (L "," ++ [nl] ++ L "    "))
       (mapping_line (L "okta_authentication") (L "okta_ocsf_logs-latest"))
       sample_sender,
     [Updated (L "okta_authentication") (L "," ++ [nl] ++ L "    ")
        (L "okta_ocsf_logs-latest")])
  /\ (~ occurs (mapping_line (L "okta_authentication")
                  (L "," ++ [nl] ++ L "    ")) sample_sender ->
      fst (apply_mapping sample_sender
             (L "okta_authentication", L "okta_ocsf_logs-latest"))
      = sample_sender).
Proof.
  apply (existing_mapping_misread sample_sender (L "okta_authentication")
           (L "okta_ocsf_logs-latest")
           (L "SOURCETYPE_MAP = {" ++ [nl] ++ L "    ") (L "okta")
           (L "," ++ [nl] ++ L "    ")
           (L "aws_cloudtrail" ++ [dquote] ++ L ": " ++ [dquote] ++ L "aws"
            ++ [dquote] ++ L "," ++ [nl] ++ L "}" ++ [nl])).
  - reflexivity.
  - vm_compute. reflexivity.
  - vm_compute. intros H. repeat (apply elem_of_cons in H as [[=] | H]).
    by apply elem_of_nil in H.
  - vm_compute. intros H. repeat (apply elem_of_cons in H as [[=] | H]).
    by apply elem_of_nil in H.
  - discriminate.
Defined.

(** [X19] A mapping for a generator that the file does not mention is
    added as a line of its own just before the last closing brace of the
    file, provided the text [SOURCETYPE_MAP = {] occurs before that brace:
    the rest of the file is unchanged. A real run writes the new content
    and returns [True]; a test run writes nothing and returns [True]; a
    failed write returns [False]. *)
Theorem new_mapping_inserted content generator parser before after i :
  contains (search_pattern generator) content = false ->
  find (L "SOURCETYPE_MAP = {") content 0 = Z.of_nat i ->
  content = before ++ L "}" ++ after ->
  "}"%char ∉ after ->
  i <= length before ->
  let content' := before ++ new_entry generator parser ++ L "}" ++ after in
  apply_mapping content (generator, parser)
  = (content', [Added generator parser])
  /\ update_hec_sender_mappings (Some content) true [(generator, parser)] false
     = (true, Some content')
  /\ update_hec_sender_mappings (Some content) true [(generator, parser)] true
     = (true, None)
  /\ update_hec_sender_mappings (Some content) false [(generator, parser)] false
     = (false, None)
  /\ contains (search_pattern generator) content' = true.
Proof.
  intros Habsent Hfind Hc Hafter Hi content'.
  assert (Happly : apply_mapping content (generator, parser)
                   = (content', [Added generator parser])).
  { unfold apply_mapping. rewrite Habsent, Hfind.
    rewrite bool_decide_eq_true_2 by lia.
    assert (Hr : rfind (L "}") content (Z.of_nat i)
                 = Z.of_nat (length before)).
    { rewrite Hc. rewrite <-(take_drop i before) at 1.
      rewrite <-(assoc_L (++)).
      replace (Z.of_nat i) with (Z.of_nat (length (take i before))).
      2:{ rewrite length_take. lia. }
      change (L "}" ++ after) with ("}"%char :: after).
      change (L "}") with ["}"%char].
      rewrite rfind_char by done.
      rewrite <-length_app, take_drop. done. }
    rewrite Hr. rewrite bool_decide_eq_true_2 by lia.
    rewrite Hc at 1. rewrite slice_head.
    rewrite Hc. rewrite slice_tail. done. }
  split_and!; [done | | | |].
  - unfold update_hec_sender_mappings, apply_mappings. cbn [fold_left fst snd].
    by rewrite Happly.
  - unfold update_hec_sender_mappings, apply_mappings. cbn [fold_left fst snd].
    by rewrite Happly.
  - unfold update_hec_sender_mappings, apply_mappings. cbn [fold_left fst snd].
    by rewrite Happly.
  - apply contains_occurs. unfold content', new_entry, mapping_line.
    exists (before ++ L "    "), (parser ++ [dquote] ++ L "," ++ [nl] ++ L "}" ++ after).
    by rewrite <-!(assoc_L (++)).
Qed.

Lemma new_mapping_inserted_witness :
  let content' :=
    L "SOURCETYPE_MAP = {" ++ [nl]
    ++ L "    " ++ mapping_line (L "okta_authentication") (L "okta") ++ L "," ++ [nl]
    ++ L "    " ++ mapping_line (L "aws_cloudtrail") (L "aws") ++ L "," ++ [nl]
    ++ new_entry (L "paloalto_firewall") (L "paloalto_paloalto_logs-latest")
    ++ L "}" ++ [nl] in
  apply_mapping sample_sender
    (L "paloalto_firewall", L "paloalto_paloalto_logs-latest")
  = (content', [Added (L "paloalto_firewall") (L "paloalto_paloalto_logs-latest")])
  /\ update_hec_sender_mappings (Some sample_sender) true
       [(L "paloalto_firewall", L "paloalto_paloalto_logs-latest")] false
     = (true, Some content')
  /\ update_hec_sender_mappings (Some sample_sender) true
       [(L "paloalto_firewall", L "paloalto_paloalto_logs-latest")] true
     = (true, None)
  /\ update_hec_sender_mappings (Some sample_sender) false
       [(L "paloalto_firewall", L "paloalto_paloalto_logs-latest")] false
     = (false, None)
  /\ contains (search_pattern (L "paloalto_firewall")) content' = true.
Proof.
  apply (new_mapping_inserted sample_sender (L "paloalto_firewall")
           (L "paloalto_paloalto_logs-latest")
           (L "SOURCETYPE_MAP = {" ++ [nl]
            ++ L "    " ++ mapping_line (L "okta_authentication") (L "okta")
            ++ L "," ++ [nl]
            ++ L "    " ++ mapping_line (L "aws_cloudtrail") (L "aws")
            ++ L "," ++ [nl])
           [nl] 0).
  - vm_compute. reflexivity.
  - vm_compute. reflexivity.
  - vm_compute. reflexivity.
  - intros H. apply elem_of_cons in H as [[=] | H]. by apply elem_of_nil in H.
  - cbn. lia.
Defined.

End ParserFixLaws.
